(** * Rag_Norma: the text pipeline of [app/processing]

    A shallow embedding of [normalizer.py], [structure_parser.py] and
    [segmenter.py].  Python strings are sequences of code points, Python
    integers are [Z], and a Python call is a computation in an error monad
    whose failures are the exceptions the interpreter raises (a name that is
    bound nowhere, an attribute an object does not have, a comparison between
    an [int] and a function object, a group a pattern does not define). *)

From Stdlib Require Import ZArith List Bool String Ascii Lia.
From stdpp Require Import base option list gmap strings.
Import ListNotations.

Local Open Scope Z_scope.

(** ** The Python runtime *)

Module Py.

(** Exceptions the three modules can raise. *)
Inductive exn : Type :=
| AttributeError (cls attr : string)
| NameError (name : string)
| UnboundLocalError (name : string)
| TypeError (what : string)
| IndexError (what : string)
| ValueError (what : string)
| OverflowError (what : string).

Inductive result (A : Type) : Type :=
| Ok (a : A)
| Raise (e : exn).
Arguments Ok {A} a.
Arguments Raise {A} e.

Definition bind {A B : Type} (m : result A) (k : A -> result B) : result B :=
  match m with
  | Ok a => k a
  | Raise e => Raise e
  end.

(** A [str] is the list of its code points; [len] is its number of code
    points. *)
Definition str : Type := list Z.

Definition len {A : Type} (s : list A) : Z := Z.of_nat (length s).

(** Values whose Python type is not fixed by the place that uses them. *)
Inductive value : Type :=
| VNone
| VInt (z : Z)
| VStr (s : str)
| VObject (name : string).   (* a function, method, class or module object *)

(** Decoding of the UTF-8 bytes of a literal into code points. *)
Fixpoint utf8_decode (fuel : nat) (bs : list Z) : str :=
  match fuel with
  | O => []
  | S fuel' =>
    match bs with
    | [] => []
    | b0 :: r0 =>
      if b0 <? 128 then b0 :: utf8_decode fuel' r0
      else if b0 <? 224 then
        match r0 with
        | b1 :: r1 => ((b0 - 192) * 64 + (b1 - 128)) :: utf8_decode fuel' r1
        | _ => []
        end
      else if b0 <? 240 then
        match r0 with
        | b1 :: b2 :: r2 =>
          ((b0 - 224) * 4096 + (b1 - 128) * 64 + (b2 - 128)) :: utf8_decode fuel' r2
        | _ => []
        end
      else
        match r0 with
        | b1 :: b2 :: b3 :: r3 =>
          ((b0 - 240) * 262144 + (b1 - 128) * 4096 + (b2 - 128) * 64 + (b3 - 128))
            :: utf8_decode fuel' r3
        | _ => []
        end
    end
  end.

Fixpoint bytes_of (s : string) : list Z :=
  match s with
  | EmptyString => []
  | String a r => Z.of_nat (nat_of_ascii a) :: bytes_of r
  end.

(** [u "текст"] is the [str] written by that literal. *)
Definition u (s : string) : str := utf8_decode (String.length s) (bytes_of s).

Definition NL : Z := 10.
Definition TAB : Z := 9.
Definition SP : Z := 32.

(** [str.isspace] on one code point (CPython's [_PyUnicode_IsWhitespace]);
    the regular expression class [\s] is the same set. *)
Definition isspace (c : Z) : bool :=
  ((9 <=? c) && (c <=? 13)) || ((28 <=? c) && (c <=? 32))
  || (c =? 133) || (c =? 160) || (c =? 5760)
  || ((8192 <=? c) && (c <=? 8202))
  || (c =? 8232) || (c =? 8233) || (c =? 8239) || (c =? 8287) || (c =? 12288).

Fixpoint lstrip (s : str) : str :=
  match s with
  | c :: r => if isspace c then lstrip r else s
  | [] => []
  end.

Definition rstrip (s : str) : str := rev (lstrip (rev s)).

(** [s.strip()] *)
Definition strip (s : str) : str := rstrip (lstrip s).

Fixpoint str_eqb (a b : str) : bool :=
  match a, b with
  | [], [] => true
  | x :: a', y :: b' => (x =? y) && str_eqb a' b'
  | _, _ => false
  end.

Fixpoint starts_with (p s : str) : bool :=
  match p, s with
  | [], _ => true
  | x :: p', y :: s' => (x =? y) && starts_with p' s'
  | _ :: _, [] => false
  end.

(** Slice bounds as Python normalises them: a negative index counts from the
    end, and both bounds are clamped to [0, len]. *)
Definition clamp_index (n i : Z) : Z :=
  let i' := if i <? 0 then i + n else i in
  Z.max 0 (Z.min n i').

(** [s[a:b]] *)
Definition slice (s : str) (a b : Z) : str :=
  let n := len s in
  let a' := clamp_index n a in
  let b' := clamp_index n b in
  firstn (Z.to_nat (b' - a')) (skipn (Z.to_nat a') s).

(** [s[a:]] and [s[:b]] *)
Definition slice_from (s : str) (a : Z) : str := slice s a (len s).
Definition slice_to (s : str) (b : Z) : str := slice s 0 b.

(** The lowest index [i] with [lo <= i], [i + len sub <= hi] and [sub] at [i],
    scanning [fuel] positions; [-1] when there is none. *)
Fixpoint find_scan (fuel : nat) (sub rest : str) (i hi : Z) : Z :=
  match fuel with
  | O => -1
  | S fuel' =>
    if hi <? i + len sub then -1
    else if starts_with sub rest then i
    else match rest with
         | [] => -1
         | _ :: rest' => find_scan fuel' sub rest' (i + 1) hi
         end
  end.

(** [s.find(sub, start, end)] *)
Definition find3 (s sub : str) (start stop : Z) : Z :=
  let n := len s in
  let a := clamp_index n start in
  let b := clamp_index n stop in
  find_scan (S (length s)) sub (skipn (Z.to_nat a) s) a b.

(** [s.find(sub, start)] *)
Definition find2 (s sub : str) (start : Z) : Z := find3 s sub start (len s).

(** The highest index with the same property, for [rfind]. *)
Fixpoint rfind_scan (fuel : nat) (sub rest : str) (i hi : Z) (best : Z) : Z :=
  match fuel with
  | O => best
  | S fuel' =>
    if hi <? i + len sub then best
    else
      let best' := if starts_with sub rest then i else best in
      match rest with
      | [] => best'
      | _ :: rest' => rfind_scan fuel' sub rest' (i + 1) hi best'
      end
  end.

(** [s.rfind(sub, start, end)] *)
Definition rfind3 (s sub : str) (start stop : Z) : Z :=
  let n := len s in
  let a := clamp_index n start in
  let b := clamp_index n stop in
  rfind_scan (S (length s)) sub (skipn (Z.to_nat a) s) a b (-1).

(** [sep.join(parts)] *)
Fixpoint join (sep : str) (parts : list str) : str :=
  match parts with
  | [] => []
  | [p] => p
  | p :: rest => p ++ sep ++ join sep rest
  end.

(** [s.split(sep)] for a one-character separator. *)
Fixpoint split_char (sep : Z) (s : str) (cur : str) : list str :=
  match s with
  | [] => [rev cur]
  | c :: r => if c =? sep then rev cur :: split_char sep r [] else split_char sep r (c :: cur)
  end.

(** Line boundaries of [str.splitlines]. *)
Definition is_linebreak (c : Z) : bool :=
  (c =? 10) || (c =? 13) || (c =? 11) || (c =? 12) || (c =? 28) || (c =? 29)
  || (c =? 30) || (c =? 133) || (c =? 8232) || (c =? 8233).

(** [s.splitlines()]: a [\r\n] pair is one boundary and a final boundary
    opens no empty last line. *)
Fixpoint splitlines_aux (s : str) (cur : str) : list str :=
  match s with
  | [] => match cur with [] => [] | _ => [rev cur] end
  | c :: r =>
    if is_linebreak c then
      match c, r with
      | 13, 10 :: r' => rev cur :: splitlines_aux r' []
      | _, _ => rev cur :: splitlines_aux r []
      end
    else splitlines_aux r (c :: cur)
  end.

Definition splitlines (s : str) : list str := splitlines_aux s [].

(** [s.replace(old, new)] for a one-character [old]. *)
Definition replace_char (old : Z) (new : str) (s : str) : str :=
  flat_map (fun c => if c =? old then new else [c]) s.

(** Limits of a 64-bit CPython: [sys.maxsize], and the bound from which
    [str(n)] refuses an [int] under the default [sys.int_max_str_digits] of
    4300 digits. Running out of memory is outside the model. *)
Definition maxsize : Z := 9223372036854775807.
Definition str_digits_bound : Z := 10 ^ 4300.

(** [str(n)] for an [int], as far as it can fail: the digits are only ever
    read back as the number they denote. *)
Definition str_of_int (n : Z) : result Z :=
  if str_digits_bound <=? Z.abs n
  then Raise (ValueError "Exceeds the limit (4300 digits) for integer string conversion")
  else Ok n.

(** [c * n] for a one-character [str] [c]; no character for [n <= 0]. *)
Definition str_repeat (c : Z) (n : Z) : result str :=
  if (n <? - maxsize - 1) || (maxsize <? n)
  then Raise (OverflowError "cannot fit 'int' into an index-sized integer")
  else Ok (repeat c (Z.to_nat n)).

(** The functions and types every module sees without importing them. *)
Definition builtins : list string :=
  ["abs"; "aiter"; "all"; "anext"; "any"; "ascii"; "bin"; "bool"; "breakpoint";
   "bytearray"; "bytes"; "callable"; "chr"; "classmethod"; "compile"; "complex";
   "delattr"; "dict"; "dir"; "divmod"; "enumerate"; "eval"; "exec"; "filter";
   "float"; "format"; "frozenset"; "getattr"; "globals"; "hasattr"; "hash";
   "help"; "hex"; "id"; "input"; "int"; "isinstance"; "issubclass"; "iter";
   "len"; "list"; "locals"; "map"; "max"; "memoryview"; "min"; "next"; "object";
   "oct"; "open"; "ord"; "pow"; "print"; "property"; "range"; "repr"; "reversed";
   "round"; "set"; "setattr"; "slice"; "sorted"; "staticmethod"; "str"; "sum";
   "super"; "tuple"; "type"; "vars"; "zip"; "__import__"]%string.

(** Reading a name that is not local to the function: the module's globals,
    then the builtins; [NameError] when neither binds it. *)
Definition load_global (globals : list string) (x : string) : result value :=
  if existsb (String.eqb x) (globals ++ builtins) then Ok (VObject x)
  else Raise (NameError x).

(** Reading a local variable: [UnboundLocalError] before its first
    assignment. *)
Definition load_local {A : Type} (x : string) (v : option A) : result A :=
  match v with
  | Some a => Ok a
  | None => Raise (UnboundLocalError x)
  end.

(** [len(v)] *)
Definition py_len (v : value) : result Z :=
  match v with
  | VStr s => Ok (len s)
  | _ => Raise (TypeError "object has no len()")
  end.

(** Truth value of an object. *)
Definition truthy (v : value) : bool :=
  match v with
  | VNone => false
  | VInt z => negb (z =? 0)
  | VStr s => match s with [] => false | _ => true end
  | VObject _ => true
  end.

(** [a <= b] and [a > b] where [a] is an [int]: defined against an [int]
    only. *)
Definition int_le (a : Z) (b : value) : result bool :=
  match b with
  | VInt z => Ok (a <=? z)
  | _ => Raise (TypeError "'<=' not supported between instances of 'int' and another type")
  end.

Definition int_gt (a : Z) (b : value) : result bool :=
  match b with
  | VInt z => Ok (z <? a)
  | _ => Raise (TypeError "'>' not supported between instances of 'int' and another type")
  end.

(** [v - z] *)
Definition sub_int (v : value) (z : Z) : result Z :=
  match v with
  | VInt a => Ok (a - z)
  | _ => Raise (TypeError "unsupported operand type(s) for -")
  end.

(** [v != z]: objects of different types are unequal. *)
Definition ne_int (v : value) (z : Z) : bool :=
  match v with
  | VInt a => negb (a =? z)
  | _ => true
  end.

(** A [str] that neither starts nor ends with white space. *)
Definition trimmed (s : str) : Prop :=
  (forall c, head s = Some c -> isspace c = false)
  /\ (forall c, last s = Some c -> isspace c = false).

(** The length of the run of code points satisfying [pred] at the start. *)
Fixpoint run_len (pred : Z -> bool) (s : str) : nat :=
  match s with
  | c :: rest => if pred c then S (run_len pred rest) else O
  | [] => O
  end.

(** No run of code points satisfying [pred] is longer than [K]. *)
Fixpoint runs_bounded (pred : Z -> bool) (K : nat) (s : str) : Prop :=
  match s with
  | [] => True
  | _ :: rest => (run_len pred s <= K)%nat /\ runs_bounded pred K rest
  end.

End Py.

Notation "'do' x <- m ; k" := (Py.bind m (fun x => k))
  (at level 10, x name, m at level 100, k at level 200).

(** ** The table-driven part of the standard library

    [unicodedata], the case mappings of [str] and of [re.IGNORECASE], and
    [re.compile] on a pattern the caller supplies are look-ups in the Unicode
    character database and a parser of pattern syntax.  The pipeline is
    modelled over any such tables: every function below takes them as a
    parameter. *)

Module Lib.

(** What [re.compile] makes of a caller-supplied pattern: a compiled pattern,
    given by its [search]; [re.error], which the normaliser catches; or
    another exception (a repetition count too large is an [OverflowError]),
    which it does not. *)
Inductive compiled : Type :=
| Pattern (search : Py.str -> bool)
| ReError
| Failure (e : Py.exn).

Record tables : Type := {
  (* unicodedata.normalize("NFKC", s) *)
  nfkc : Py.str -> Py.str;
  (* unicodedata.category(ch)[0] == "C" *)
  category_C : Z -> bool;
  (* str.isalnum on one code point: the class \w is this or "_" *)
  isalnum : Z -> bool;
  (* str.isdecimal on one code point: the class \d *)
  isdecimal : Z -> bool;
  (* simple lower and upper case of one code point *)
  lower : Z -> Z;
  upper : Z -> Z;
  (* two code points that re.IGNORECASE identifies *)
  same_letter : Z -> Z -> bool;
  (* s.upper() *)
  str_upper : Py.str -> Py.str;
  (* re.compile(pat, re.IGNORECASE) on a caller-supplied pattern *)
  compile : Py.str -> compiled
}.

(** The tables on Basic Latin and the Cyrillic block, used to run examples:
    letters are [A-Za-z], [U+0400..U+045F] and digits [0-9]; every other
    code point is caseless, not alphanumeric and not a control character
    unless it is below [U+0020] or in [U+007F..U+009F]. NFKC leaves such a
    text unchanged; every caller-supplied pattern is taken to be invalid. *)
Definition basic_lower (c : Z) : Z :=
  if (65 <=? c) && (c <=? 90) then c + 32
  else if (1040 <=? c) && (c <=? 1071) then c + 32
  else if (1024 <=? c) && (c <=? 1039) then c + 80
  else c.

Definition basic_upper (c : Z) : Z :=
  if (97 <=? c) && (c <=? 122) then c - 32
  else if (1072 <=? c) && (c <=? 1103) then c - 32
  else if (1104 <=? c) && (c <=? 1119) then c - 80
  else c.

Definition basic_isalnum (c : Z) : bool :=
  ((48 <=? c) && (c <=? 57)) || ((65 <=? c) && (c <=? 90))
  || ((97 <=? c) && (c <=? 122)) || ((1024 <=? c) && (c <=? 1119)).

Definition basic : tables := {|
  nfkc := fun s => s;
  category_C := fun c => (c <? 32) || ((127 <=? c) && (c <=? 159)) || (c =? 173);
  isalnum := basic_isalnum;
  isdecimal := fun c => (48 <=? c) && (c <=? 57);
  lower := basic_lower;
  upper := basic_upper;
  same_letter := fun a b => basic_lower a =? basic_lower b;
  str_upper := map basic_upper;
  compile := fun _ => ReError
|}.

End Lib.

(** ** Regular expressions

    The patterns of the three modules, as syntax trees, and a backtracking
    matcher with the semantics of [re] on them: greedy repetition, ordered
    alternation, named groups, [^] and [$] with and without [re.MULTILINE],
    one-character look-behind, and [re.IGNORECASE]. *)

Module Re.

Inductive item : Type :=
| Chr (c : Z)              (* a literal code point *)
| Rng (lo hi : Z)          (* lo-hi *)
| Word                     (* \w *)
| Space                    (* \s *)
| Digit.                   (* \d *)

Inductive regex : Type :=
| Eps
| Set_ (items : list item)              (* [...] or one literal *)
| Any                                   (* . *)
| Bol                                   (* ^ *)
| Eol                                   (* $ *)
| Behind (items : list item)            (* (?<=[...]) *)
| Seq (a b : regex)
| Alt (a b : regex)
| Rep (lo : nat) (hi : option nat) (r : regex)   (* r{lo,hi}, greedy *)
| Group (name : string) (r : regex).    (* (?P<name>r); "" for an unnamed group *)

Record pattern : Type := {
  re : regex;
  ignorecase : bool;
  multiline : bool
}.

(** A match: its span and the spans of the groups that took part, the most
    recent binding of a name first. *)
Definition groups : Type := list (string * (nat * nat)).

Record match_ : Type := {
  m_start : nat;
  m_end : nat;
  m_groups : groups
}.

(** Pattern syntax helpers. *)
Definition lit1 (c : Z) : regex := Set_ [Chr c].

Fixpoint lit (s : Py.str) : regex :=
  match s with
  | [] => Eps
  | [c] => lit1 c
  | c :: r => Seq (lit1 c) (lit r)
  end.

Fixpoint seq (rs : list regex) : regex :=
  match rs with
  | [] => Eps
  | [r] => r
  | r :: rest => Seq r (seq rest)
  end.

Fixpoint alt (rs : list regex) : regex :=
  match rs with
  | [] => Set_ []
  | [r] => r
  | r :: rest => Alt r (alt rest)
  end.

Definition star (r : regex) : regex := Rep 0 None r.
Definition plus (r : regex) : regex := Rep 1 None r.
Definition opt (r : regex) : regex := Rep 0 (Some 1%nat) r.
Definition chars (s : Py.str) : list item := map Chr s.

(** Whether [g] has a binding of the group [nm]. *)
Definition binds (nm : string) (g : groups) : bool :=
  existsb (fun e => String.eqb nm (fst e)) g.

(** [g'] binds every group [g] binds. *)
Definition extends (g g' : groups) : Prop :=
  forall nm, binds nm g = true -> binds nm g' = true.

(** Whether every way through [r] passes the group [nm]. *)
Fixpoint must_bind (nm : string) (r : regex) : bool :=
  match r with
  | Seq a b => must_bind nm a || must_bind nm b
  | Alt a b => must_bind nm a && must_bind nm b
  | Group n r' => String.eqb nm n || must_bind nm r'
  | _ => false
  end.

Fixpoint group_names (r : regex) : list string :=
  match r with
  | Seq a b | Alt a b => group_names a ++ group_names b
  | Rep _ _ r' => group_names r'
  | Group nm r' => nm :: group_names r'
  | _ => []
  end.

Section Matcher.

Variable T : Lib.tables.
Variable p : pattern.
Variable s : Py.str.

Definition in_range (lo hi c : Z) : bool := (lo <=? c) && (c <=? hi).

(** One class item against one code point. Under [re.IGNORECASE] a literal
    also matches the code points identified with it, and a range also
    matches a code point whose lower or upper case it contains. *)
Definition item_matches (it : item) (c : Z) : bool :=
  match it with
  | Chr x => (c =? x) || (ignorecase p && Lib.same_letter T c x)
  | Rng lo hi =>
      in_range lo hi c
      || (ignorecase p && (in_range lo hi (Lib.lower T c) || in_range lo hi (Lib.upper T c)))
  | Word => Lib.isalnum T c || (c =? 95)
  | Space => Py.isspace c
  | Digit => Lib.isdecimal T c
  end.

Definition in_set (items : list item) (c : Z) : bool :=
  existsb (fun it => item_matches it c) items.

Definition char_at (i : nat) : option Z := nth_error s i.

Definition at_bol (i : nat) : bool :=
  match i with
  | O => true
  | S j => multiline p && match char_at j with Some 10 => true | _ => false end
  end.

Definition at_eol (i : nat) : bool :=
  let n := length s in
  (i =? n)%nat
  || match char_at i with
     | Some 10 => multiline p || (S i =? n)%nat
     | _ => false
     end.

(** A greedy repetition of [step] between [lo] and [hi] times, then [k]: one
    more iteration is tried first, and an iteration that consumes nothing
    ends the repetition. The body of every repetition in the patterns below
    consumes at least one code point. *)
Fixpoint rep_loop (step : nat -> groups -> (nat -> groups -> option (nat * groups))
                          -> option (nat * groups))
    (k : nat -> groups -> option (nat * groups))
    (fuel lo : nat) (hi : option nat) (i : nat) (g : groups) : option (nat * groups) :=
  match fuel with
  | O => None
  | S fuel' =>
    let stop := match lo with O => k i g | S _ => None end in
    match hi with
    | Some O => stop
    | _ =>
      match step i g (fun j g' =>
              if (j =? i)%nat then None
              else rep_loop step k fuel' (Nat.pred lo) (option_map Nat.pred hi) j g') with
      | Some x => Some x
      | None => stop
      end
    end
  end.

(** [run r i g k]: match [r] at position [i] and continue with [k]; the first
    alternative that lets the continuation succeed wins. *)
Fixpoint run (r : regex) (i : nat) (g : groups)
    (k : nat -> groups -> option (nat * groups)) : option (nat * groups) :=
  match r with
  | Eps => k i g
  | Set_ items =>
      match char_at i with
      | Some c => if in_set items c then k (S i) g else None
      | None => None
      end
  | Any =>
      match char_at i with
      | Some c => if c =? 10 then None else k (S i) g
      | None => None
      end
  | Bol => if at_bol i then k i g else None
  | Eol => if at_eol i then k i g else None
  | Behind items =>
      match i with
      | O => None
      | S j => match char_at j with
               | Some c => if in_set items c then k i g else None
               | None => None
               end
      end
  | Seq a b => run a i g (fun j g' => run b j g' k)
  | Alt a b =>
      match run a i g k with
      | Some x => Some x
      | None => run b i g k
      end
  | Group nm r' => run r' i g (fun j g' => k j ((nm, (i, j)) :: g'))
  | Rep lo hi r' => rep_loop (run r') k (S (S (length s))) lo hi i g
  end.

(** The match that starts at [i], if any. *)
Definition match_at (i : nat) : option match_ :=
  match run (re p) i [] (fun j g => Some (j, g)) with
  | Some (j, g) => Some {| m_start := i; m_end := j; m_groups := g |}
  | None => None
  end.

(** The leftmost match that starts at [i] or later. *)
Fixpoint search_from (fuel : nat) (i : nat) : option match_ :=
  match match_at i with
  | Some m => Some m
  | None => match fuel with
            | O => None
            | S fuel' => if (length s <=? i)%nat then None else search_from fuel' (S i)
            end
  end.

(** [p.finditer(s)]: successive non-overlapping matches, left to right. The
    patterns below match no empty string. *)
Fixpoint finditer_from (fuel : nat) (i : nat) : list match_ :=
  match fuel with
  | O => []
  | S fuel' =>
    match search_from (length s) i with
    | None => []
    | Some m =>
      m :: finditer_from fuel' (if (m_end m <=? m_start m)%nat then S (m_end m) else m_end m)
    end
  end.

Definition finditer : list match_ := finditer_from (S (length s)) 0.

(** [p.match(s)] and [p.search(s)] as truth values. *)
Definition matches : bool :=
  match match_at 0 with Some _ => true | None => false end.

Definition search : bool :=
  match search_from (length s) 0 with Some _ => true | None => false end.

Definition substr (a b : nat) : Py.str := firstn (b - a) (skipn a s).

(** [m.group(name)]: [IndexError] for a name the pattern does not define,
    [None] for a group that took no part in the match. *)
Definition group (m : match_) (name : string) : Py.result (option Py.str) :=
  if existsb (String.eqb name) (group_names (re p)) then
    Py.Ok (match List.find (fun e => String.eqb name (fst e)) (m_groups m) with
           | Some (_, (a, b)) => Some (substr a b)
           | None => None
           end)
  else Py.Raise (Py.IndexError "no such group").

(** [p.sub(repl, s)] with [repl] computed from the match. *)
Fixpoint sub_from (repl : match_ -> Py.str) (ms : list match_) (i : nat) : Py.str :=
  match ms with
  | [] => skipn i s
  | m :: rest => substr i (m_start m) ++ repl m ++ sub_from repl rest (m_end m)
  end.

Definition sub (repl : match_ -> Py.str) : Py.str := sub_from repl finditer 0.

(** [p.split(s)] for a pattern without groups. *)
Fixpoint split_from (ms : list match_) (i : nat) : list Py.str :=
  match ms with
  | [] => [skipn i s]
  | m :: rest => substr i (m_start m) :: split_from rest (m_end m)
  end.

Definition split : list Py.str := split_from finditer 0.

End Matcher.

(** What substitution and splitting do for a pattern [[...]{lo,}]: every
    maximal run of at least [lo] code points of the class is one match.
    [sub_runs] replaces each such run by [repl]; [split_runs] cuts the text at
    each such run, [cur] being the piece under construction, last code point
    first. *)
Fixpoint sub_runs (pred : Z -> bool) (lo : nat) (repl : Py.str) (fuel : nat) (s : Py.str)
    : Py.str :=
  match fuel with
  | O => s
  | S fuel' =>
    match s with
    | [] => []
    | c :: rest =>
      let r := Py.run_len pred s in
      if (lo <=? r)%nat then repl ++ sub_runs pred lo repl fuel' (skipn r s)
      else c :: sub_runs pred lo repl fuel' rest
    end
  end.

Fixpoint split_runs (pred : Z -> bool) (lo : nat) (fuel : nat) (cur : Py.str) (s : Py.str)
    : list Py.str :=
  match fuel with
  | O => [rev cur ++ s]
  | S fuel' =>
    match s with
    | [] => [rev cur]
    | c :: rest =>
      let r := Py.run_len pred s in
      if (lo <=? r)%nat then rev cur :: split_runs pred lo fuel' [] (skipn r s)
      else split_runs pred lo fuel' (c :: cur) rest
    end
  end.

End Re.

(** ** normalizer.py *)

Module Normalizer.

Import Py.

Record CleanConfig : Type := {
  remove_page_numbers : bool;
  remove_headers_footers : bool;
  header_min_repeats : Z;
  header_max_len : Z;
  extra_header_footer_regexes : list str;
  normalize_bullets : bool;
  bullet_sumbol : str;
  max_consecutive_newlines : Z;
  collapse_spaces : bool;
  fix_hyphenation : bool;
  normalize_dashes : bool;
  soften_inline_newlines : bool;
  inline_newline_window : Z
}.

(** [CleanConfig()] *)
Definition default_config : CleanConfig := {|
  remove_page_numbers := true;
  remove_headers_footers := true;
  header_min_repeats := 3;
  header_max_len := 120;
  extra_header_footer_regexes := [];
  normalize_bullets := true;
  bullet_sumbol := u "-";
  max_consecutive_newlines := 2;
  collapse_spaces := true;
  fix_hyphenation := true;
  normalize_dashes := true;
  soften_inline_newlines := false;
  inline_newline_window := 60
|}.

(** The [str] attributes of a [CleanConfig] instance, by name: the fields the
    dataclass declares with type [str]. *)
Definition getattr_str (cfg : CleanConfig) (name : string) : result str :=
  if String.eqb name "bullet_sumbol" then Ok (bullet_sumbol cfg)
  else if existsb (String.eqb name)
            ["remove_page_numbers"; "remove_headers_footers"; "header_min_repeats";
             "header_max_len"; "extra_header_footer_regexes"; "normalize_bullets";
             "max_consecutive_newlines"; "collapse_spaces"; "fix_hyphenation";
             "normalize_dashes"; "soften_inline_newlines"; "inline_newline_window"]%string
  then Raise (TypeError "not a str")
  else Raise (AttributeError "CleanConfig" name).

(** Names bound at module level. *)
Definition globals : list string :=
  ["annotations"; "dataclass"; "field"; "TracebackType"; "Iterable"; "List";
   "Pattern"; "re"; "unicodedata"; "CleanConfig"; "_SOFT_HYPHEN"; "_HYPHENS";
   "RE_HYPHEN_NEWLINE"; "RE_SOFT_HYPHEN"; "RE_BULLET_LINE"; "RE_ANY_DASH";
   "RE_PAGE_NUM_PURE"; "RE_PAGE_WORD"; "RE_DATE_LINE"; "RE_HEADER_HINT";
   "RE_TABLE_CONT"; "RE_TABLE_HEAD"; "RE_FIG_HEAD"; "_strip_control_chars";
   "_normalize_unicode"; "_fix_hyphenation"; "_normalize_bullets";
   "_normalize_dashes"; "_soften_inline_newlines";
   "_collapse_spaces_and_newlines"; "_drop_header_footer_lines"; "clean";
   "_soffen_inline_newlines_quard"; "__all__"]%string.

(** [MAXREPEAT] of [re] on a 64-bit build. *)
Definition MAXREPEAT : Z := 4294967295.

Definition plain (r : Re.regex) : Re.pattern :=
  {| Re.re := r; Re.ignorecase := false; Re.multiline := false |}.
Definition icase (r : Re.regex) : Re.pattern :=
  {| Re.re := r; Re.ignorecase := true; Re.multiline := false |}.
Definition mline (r : Re.regex) : Re.pattern :=
  {| Re.re := r; Re.ignorecase := false; Re.multiline := true |}.

Definition ws : Re.regex := Re.Set_ [Re.Space].
Definition digit : Re.regex := Re.Set_ [Re.Digit].

(** [_SOFT_HYPHEN] and [_HYPHENS] *)
Definition _SOFT_HYPHEN : Z := 173.
Definition _HYPHENS : list Re.item :=
  [Re.Chr 45; Re.Chr 8208; Re.Chr 8209; Re.Chr 8210; Re.Chr 8211; Re.Chr 8212; Re.Chr 8213].

(** [(\w)[-...]\n(\w)] *)
Definition RE_HYPHEN_NEWLINE : Re.pattern :=
  plain (Re.seq [Re.Group "1" (Re.Set_ [Re.Word]); Re.Set_ _HYPHENS; Re.lit1 NL;
                 Re.Group "2" (Re.Set_ [Re.Word])]).

Definition RE_SOFT_HYPHEN : Re.pattern := plain (Re.lit1 _SOFT_HYPHEN).

(** [^[\s•·\*\-–—]+\s+], MULTILINE *)
Definition RE_BULLET_LINE : Re.pattern :=
  mline (Re.seq [Re.Bol;
                 Re.plus (Re.Set_ [Re.Space; Re.Chr 8226; Re.Chr 183; Re.Chr 42; Re.Chr 45;
                                   Re.Chr 8211; Re.Chr 8212]);
                 Re.plus ws]).

(** [[‐‑‒–—―]+] *)
Definition RE_ANY_DASH : Re.pattern :=
  plain (Re.plus (Re.Set_ [Re.Chr 8208; Re.Chr 8209; Re.Chr 8210; Re.Chr 8211; Re.Chr 8212;
                           Re.Chr 8213])).

Definition page_dash : Re.regex := Re.opt (Re.Set_ [Re.Chr 8211; Re.Chr 8212; Re.Chr 45]).

(** [^\s*[–—\-]?\s*\d{1,4}\s*[–—\-]?\s*$] *)
Definition RE_PAGE_NUM_PURE : Re.pattern :=
  plain (Re.seq [Re.Bol; Re.star ws; page_dash; Re.star ws; Re.Rep 1 (Some 4%nat) digit;
                 Re.star ws; page_dash; Re.star ws; Re.Eol]).

(** [^\s*(стр\.?|страница|page)\s*[№:]?\s*\d{1,4}\s*$], IGNORECASE *)
Definition RE_PAGE_WORD : Re.pattern :=
  icase (Re.seq [Re.Bol; Re.star ws;
                 Re.Group "1" (Re.alt [Re.Seq (Re.lit (u "стр")) (Re.opt (Re.lit1 46));
                                       Re.lit (u "страница"); Re.lit (u "page")]);
                 Re.star ws; Re.opt (Re.Set_ [Re.Chr 8470; Re.Chr 58]); Re.star ws;
                 Re.Rep 1 (Some 4%nat) digit; Re.star ws; Re.Eol]).

(** [^\s*(?:\d{1,2}[./]\d{1,2}[./]\d{2,4}|[А-Яа-яA-Za-z]+\s+\d{4}\s*г\.)\s*$] *)
Definition RE_DATE_LINE : Re.pattern :=
  let sep := Re.Set_ [Re.Chr 46; Re.Chr 47] in
  plain (Re.seq [Re.Bol; Re.star ws;
                 Re.alt [Re.seq [Re.Rep 1 (Some 2%nat) digit; sep; Re.Rep 1 (Some 2%nat) digit;
                                 sep; Re.Rep 2 (Some 4%nat) digit];
                         Re.seq [Re.plus (Re.Set_ [Re.Rng 1040 1071; Re.Rng 1072 1103;
                                                   Re.Rng 65 90; Re.Rng 97 122]);
                                 Re.plus ws; Re.Rep 4 (Some 4%nat) digit; Re.star ws;
                                 Re.lit1 1075; Re.lit1 46]];
                 Re.star ws; Re.Eol]).

(** [(ГОСТ|СНиП|СП|ПУЭ|СТО)\s+[A-ZА-Я0-9\-.:/]+|Издание|Изм\.\s*\d+|UTD|ISO],
    IGNORECASE *)
Definition RE_HEADER_HINT : Re.pattern :=
  icase (Re.alt [Re.seq [Re.Group "1" (Re.alt [Re.lit (u "ГОСТ"); Re.lit (u "СНиП");
                                               Re.lit (u "СП"); Re.lit (u "ПУЭ");
                                               Re.lit (u "СТО")]);
                         Re.plus ws;
                         Re.plus (Re.Set_ [Re.Rng 65 90; Re.Rng 1040 1071; Re.Rng 48 57;
                                           Re.Chr 45; Re.Chr 46; Re.Chr 58; Re.Chr 47])];
                 Re.lit (u "Издание");
                 Re.seq [Re.lit (u "Изм"); Re.lit1 46; Re.star ws; Re.plus digit];
                 Re.lit (u "UTD");
                 Re.lit (u "ISO")]).

(** The tail [\s+\d+(...)?$] shared by the table and figure patterns; the
    optional group is one of [.,] and the rest of the line. *)
Definition numbered_tail (grp : string) : list Re.regex :=
  [Re.plus ws; Re.plus digit;
   Re.opt (Re.Group grp (Re.Seq (Re.Set_ [Re.Chr 46; Re.Chr 44]) (Re.star Re.Any)));
   Re.Eol].

(** [^\s*(продолжение|окончание)\s+таблицы\s+\d+(...)?$], IGNORECASE *)
Definition RE_TABLE_CONT : Re.pattern :=
  icase (Re.seq ([Re.Bol; Re.star ws;
                  Re.Group "1" (Re.alt [Re.lit (u "продолжение"); Re.lit (u "окончание")]);
                  Re.plus ws; Re.lit (u "таблицы")] ++ numbered_tail "2")).

(** [^\s*таблица\s+\d+(...)?$], IGNORECASE *)
Definition RE_TABLE_HEAD : Re.pattern :=
  icase (Re.seq ([Re.Bol; Re.star ws; Re.lit (u "таблица")] ++ numbered_tail "1")).

(** [^\s*рисунок\s+\d+(...)?$], IGNORECASE *)
Definition RE_FIG_HEAD : Re.pattern :=
  icase (Re.seq ([Re.Bol; Re.star ws; Re.lit (u "рисунок")] ++ numbered_tail "1")).

Section WithTables.

Variable T : Lib.tables.

Definition _strip_control_chars (text : str) : str :=
  List.filter (fun ch => (ch =? NL) || (ch =? TAB) || negb (Lib.category_C T ch)) text.

Definition _normalize_unicode (text : str) : str :=
  let text := Lib.nfkc T text in
  Re.sub T RE_SOFT_HYPHEN text (fun _ => []).

(** The replacement template [\1\2]. *)
Definition groups_1_2 (text : str) (m : Re.match_) : str :=
  let grp nm := match List.find (fun e => String.eqb nm (fst e)) (Re.m_groups m) with
                | Some (_, (a, b)) => Re.substr text a b
                | None => []
                end in
  grp "1"%string ++ grp "2"%string.

(** [for _ in range(3)] with its [break] at a fixed point. *)
Fixpoint fix_hyphenation_passes (passes : nat) (text : str) : str :=
  match passes with
  | O => text
  | S passes' =>
    let new_text := Re.sub T RE_HYPHEN_NEWLINE text (groups_1_2 text) in
    if str_eqb new_text text then text else fix_hyphenation_passes passes' new_text
  end.

Definition _fix_hyphenation (text : str) : str := fix_hyphenation_passes 3 text.

Definition _normalize_bullets (text : str) (bullet_symbol : str) : str :=
  Re.sub T RE_BULLET_LINE text (fun _ => bullet_symbol ++ [SP]).

Definition _normalize_dashes (text : str) : str :=
  Re.sub T RE_ANY_DASH text (fun _ => [45]).

(** The [while] loop of [_soften_inline_newlines] over the remaining lines.
    The second bound of the test reads the name [windows]. *)
Fixpoint soften_loop (window : Z) (lines : list str) (out : list str) : result (list str) :=
  match lines with
  | [] => Ok out
  | cur :: rest =>
    match rest with
    | [] => Ok (out ++ [cur])
    | nxt :: rest' =>
      do merge <-
        (if (0 <? len cur) && (len cur <=? window) then
           if 0 <? len nxt then
             do w <- load_global globals "windows"; int_le (len nxt) w
           else Ok false
         else Ok false);
      if (merge : bool) then soften_loop window rest' (out ++ [strip (cur ++ [SP] ++ nxt)])
      else soften_loop window rest (out ++ [cur])
    end
  end.

Definition _soften_inline_newlines (text : str) (window : Z) : result str :=
  do out <- soften_loop window (split_char NL text []) [];
  Ok (join [NL] out).

(** [re.compile] of the pattern of [lo] or more newlines, written with the
    digits of [lo]: a count from [MAXREPEAT] on is refused. *)
Definition compile_newlines (lo : Z) : result Re.pattern :=
  if MAXREPEAT <=? lo then Raise (OverflowError "the repetition number is too large")
  else Ok (plain (Re.Rep (Z.to_nat lo) None (Re.lit1 NL))).

(** [_collapse_spaces_and_newlines(text, collapse_spaces,
    max_consecutive_newlines)]. With a limit of at least one the pattern is
    written first, with [str] of the count, then the replacement is built,
    then [re.sub] compiles the pattern. *)
Definition _collapse_spaces_and_newlines (text : str) (collapse_spaces : bool)
    (max_consecutive_newlines : Z) : result str :=
  let text :=
    if collapse_spaces then
      let text := replace_char TAB [SP] text in
      Re.sub T (plain (Re.Rep 2 None (Re.lit1 SP))) text (fun _ => [SP])
    else text in
  do text <-
    (if 1 <=? max_consecutive_newlines then
       do count <- str_of_int (max_consecutive_newlines + 1);
       do replacement <- str_repeat NL max_consecutive_newlines;
       do pattern <- compile_newlines count;
       Ok (Re.sub T pattern text (fun _ => replacement))
     else Ok text);
  Ok (strip text).

(** The [try] around [re.compile]: an invalid pattern is skipped, any other
    exception leaves the function. *)
Fixpoint compile_extra (pats : list str) (extra_compiled : list (str -> bool))
    : result (list (str -> bool)) :=
  match pats with
  | [] => Ok extra_compiled
  | pat :: rest =>
    match Lib.compile T pat with
    | Lib.Pattern search => compile_extra rest (extra_compiled ++ [search])
    | Lib.ReError => compile_extra rest extra_compiled
    | Lib.Failure e => Raise e
    end
  end.

(** The first loop of [_drop_header_footer_lines]: how often each short
    candidate line occurs. *)
Definition count_line (cfg : CleanConfig) (freq : gmap str Z) (raw : str) : gmap str Z :=
  let s := strip raw in
  if match s with [] => true | _ => false end || (header_max_len cfg <? len s) then freq
  else if Re.search T RE_HEADER_HINT s || Re.matches T RE_PAGE_WORD s
          || Re.matches T RE_PAGE_NUM_PURE s
       then <[s := default 0 (freq !! s) + 1]> freq
       else freq.

(** The second loop: whether a line is kept. *)
Definition keep_line (cfg : CleanConfig) (extra_compiled : list (str -> bool))
    (freq : gmap str Z) (ln : str) : bool :=
  let s := strip ln in
  match s with
  | [] => true
  | _ =>
    if remove_page_numbers cfg && (Re.matches T RE_PAGE_NUM_PURE s || Re.matches T RE_PAGE_WORD s)
    then false
    else if Re.matches T RE_DATE_LINE s then false
    else if Re.matches T RE_TABLE_CONT s then false
    else
      let is_headerish :=
        Re.search T RE_HEADER_HINT s || Re.matches T RE_TABLE_HEAD s || Re.matches T RE_FIG_HEAD s in
      let repeated_enough := header_min_repeats cfg <=? default 0 (freq !! s) in
      if remove_headers_footers cfg && is_headerish
         && (repeated_enough || (len s <=? header_max_len cfg))
      then false
      else if existsb (fun p => p s) extra_compiled then false
      else true
  end.

Definition _drop_header_footer_lines (lines : list str) (cfg : CleanConfig)
    : result (list str) :=
  do extra_compiled <- compile_extra (extra_header_footer_regexes cfg) [];
  let freq := fold_left (count_line cfg) lines (∅ : gmap str Z) in
  Ok (List.filter (keep_line cfg extra_compiled freq) lines).

(** [config or CleanConfig()] *)
Definition effective (config : option CleanConfig) : CleanConfig :=
  match config with Some c => c | None => default_config end.

(** [clean(text, config)] *)
Definition clean (text : str) (config : option CleanConfig) : result str :=
  let cfg := effective config in
  let text := _normalize_unicode text in
  let text := _strip_control_chars text in
  let text := if fix_hyphenation cfg then _fix_hyphenation text else text in
  let text := if normalize_dashes cfg then _normalize_dashes text else text in
  do text <-
    (if normalize_bullets cfg then
       do bullet_symbol <- getattr_str cfg "bullet_symbol";
       Ok (_normalize_bullets text bullet_symbol)
     else Ok text);
  let lines := splitlines text in
  do lines <- _drop_header_footer_lines lines cfg;
  let text := join [NL] lines in
  do text <-
    (if soften_inline_newlines cfg then
       _soften_inline_newlines text (inline_newline_window cfg)
     else Ok text);
  _collapse_spaces_and_newlines text (collapse_spaces cfg) (max_consecutive_newlines cfg).

(** The test [clean(clean(t)) == clean(t)], operands evaluated left to
    right. *)
Definition idempotence_test (t : str) (config : option CleanConfig) : result bool :=
  do once <- clean t config;
  do twice <- clean once config;
  do again <- clean t config;
  Ok (str_eqb twice again).

End WithTables.

(** [CleanConfig(header_min_repeats=n)] *)
Definition with_min_repeats (n : Z) : CleanConfig := {|
  remove_page_numbers := true;
  remove_headers_footers := true;
  header_min_repeats := n;
  header_max_len := 120;
  extra_header_footer_regexes := [];
  normalize_bullets := true;
  bullet_sumbol := u "-";
  max_consecutive_newlines := 2;
  collapse_spaces := true;
  fix_hyphenation := true;
  normalize_dashes := true;
  soften_inline_newlines := false;
  inline_newline_window := 60
|}.

(** The same configuration with [normalize_bullets=False]. *)
Definition without_bullets (cfg : CleanConfig) : CleanConfig := {|
  remove_page_numbers := remove_page_numbers cfg;
  remove_headers_footers := remove_headers_footers cfg;
  header_min_repeats := header_min_repeats cfg;
  header_max_len := header_max_len cfg;
  extra_header_footer_regexes := extra_header_footer_regexes cfg;
  normalize_bullets := false;
  bullet_sumbol := bullet_sumbol cfg;
  max_consecutive_newlines := max_consecutive_newlines cfg;
  collapse_spaces := collapse_spaces cfg;
  fix_hyphenation := fix_hyphenation cfg;
  normalize_dashes := normalize_dashes cfg;
  soften_inline_newlines := soften_inline_newlines cfg;
  inline_newline_window := inline_newline_window cfg
|}.

(** The text of scenario 1: a page line, the body, the page line again. *)
Definition scenario1_text : str :=
  u "Страница 3" ++ [NL; NL] ++ u "Основной текст." ++ [NL; NL] ++ u "Страница 3".

(** Two short lines and the configuration that merges such lines. *)
Definition two_lines_text : str := u "a" ++ [NL] ++ u "b".

Definition softening : CleanConfig := {|
  remove_page_numbers := true;
  remove_headers_footers := true;
  header_min_repeats := 3;
  header_max_len := 120;
  extra_header_footer_regexes := [];
  normalize_bullets := false;
  bullet_sumbol := u "-";
  max_consecutive_newlines := 2;
  collapse_spaces := true;
  fix_hyphenation := true;
  normalize_dashes := true;
  soften_inline_newlines := true;
  inline_newline_window := 60
|}.

(** A word broken at a hyphen, a page-number line, the rest of the word. *)
Definition broken_word_text : str := u "a-" ++ [NL] ++ u " 12" ++ [NL] ++ u "b".

(** [[.!?…:;]\s*$], the test of [_soffen_inline_newlines_quard] for a line
    that ends a sentence. *)
Definition RE_SENTENCE_END : Re.pattern :=
  plain (Re.seq [Re.Set_ [Re.Chr 46; Re.Chr 33; Re.Chr 63; Re.Chr 8230; Re.Chr 58; Re.Chr 59];
                 Re.star ws; Re.Eol]).

(** The [while] loop of [_soffen_inline_newlines_quard] over the remaining
    lines. *)
Fixpoint quard_loop (T : Lib.tables) (window : Z) (lines : list str) (out : list str)
    : list str :=
  match lines with
  | [] => out
  | cur :: rest =>
    match rest with
    | [] => out ++ [cur]
    | nxt :: rest' =>
      if (0 <? len cur) && (len cur <=? window) && ((0 <? len nxt) && (len nxt <=? window))
         && negb (Re.search T RE_SENTENCE_END cur)
      then quard_loop T window rest' (out ++ [strip (cur ++ [SP] ++ nxt)])
      else quard_loop T window rest (out ++ [cur])
    end
  end.

(** [_soffen_inline_newlines_quard(text, window)] *)
Definition _soffen_inline_newlines_quard (T : Lib.tables) (text : str) (window : Z) : str :=
  join [NL] (quard_loop T window (split_char NL text []) []).

(** The code points that are not white space, in order. *)
Definition nonspace (s : str) : str := List.filter (fun c => negb (isspace c)) s.

(** A line that is empty once stripped. *)
Definition is_blank (ln : str) : bool :=
  match strip ln with [] => true | _ => false end.

(** The same configuration with another [header_min_repeats]. *)
Definition set_min_repeats (n : Z) (cfg : CleanConfig) : CleanConfig := {|
  remove_page_numbers := remove_page_numbers cfg;
  remove_headers_footers := remove_headers_footers cfg;
  header_min_repeats := n;
  header_max_len := header_max_len cfg;
  extra_header_footer_regexes := extra_header_footer_regexes cfg;
  normalize_bullets := normalize_bullets cfg;
  bullet_sumbol := bullet_sumbol cfg;
  max_consecutive_newlines := max_consecutive_newlines cfg;
  collapse_spaces := collapse_spaces cfg;
  fix_hyphenation := fix_hyphenation cfg;
  normalize_dashes := normalize_dashes cfg;
  soften_inline_newlines := soften_inline_newlines cfg;
  inline_newline_window := inline_newline_window cfg
|}.

(** The text [clean] has built when it reaches the bullet stage. *)
Definition before_bullets (T : Lib.tables) (cfg : CleanConfig) (text : str) : str :=
  let text := _normalize_unicode T text in
  let text := _strip_control_chars T text in
  let text := if fix_hyphenation cfg then _fix_hyphenation T text else text in
  if normalize_dashes cfg then _normalize_dashes T text else text.

(** Every line the table counts is at most [header_max_len] long. *)
Definition counts_short (cfg : CleanConfig) (freq : gmap str Z) : Prop :=
  forall k v, freq !! k = Some v -> len k <= header_max_len cfg.

(** The text [_collapse_spaces_and_newlines] returns, when it returns. *)
Definition collapsed (T : Lib.tables) (text : str) (collapse_spaces : bool)
    (max_consecutive_newlines : Z) : str :=
  let text :=
    if collapse_spaces then
      let text := replace_char TAB [SP] text in
      Re.sub T (plain (Re.Rep 2 None (Re.lit1 SP))) text (fun _ => [SP])
    else text in
  let text :=
    if 1 <=? max_consecutive_newlines then
      Re.sub T (plain (Re.Rep (Z.to_nat (max_consecutive_newlines + 1)) None (Re.lit1 NL))) text
        (fun _ => repeat NL (Z.to_nat max_consecutive_newlines))
    else text in
  strip text.

(** The class of the pattern of two or more spaces, and of the pattern of
    [lo] or more newlines, in [_collapse_spaces_and_newlines]. *)
Definition space_class (T : Lib.tables) : Z -> bool :=
  Re.in_set T (plain (Re.Rep 2 None (Re.lit1 SP))) [Re.Chr SP].

Definition newline_class (T : Lib.tables) (lo : nat) : Z -> bool :=
  Re.in_set T (plain (Re.Rep lo None (Re.lit1 NL))) [Re.Chr NL].

(** A code point [_strip_control_chars] keeps. *)
Definition kept_char (T : Lib.tables) (c : Z) : Prop :=
  c = NL \/ c = TAB \/ Lib.category_C T c = false.

(** Lines of plain text around a date line, a table-continuation line, a
    blank line and a standard citation. *)
Definition noisy_lines : list str :=
  [u "Text"; u "12.03.2020"; u "  "; u "Продолжение таблицы 3"; u "ГОСТ 123-45"; u "End"].

(** A configuration with both removal switches off. *)
Definition keep_all : CleanConfig := {|
  remove_page_numbers := false;
  remove_headers_footers := false;
  header_min_repeats := 3;
  header_max_len := 120;
  extra_header_footer_regexes := [];
  normalize_bullets := false;
  bullet_sumbol := u "-";
  max_consecutive_newlines := 2;
  collapse_spaces := true;
  fix_hyphenation := true;
  normalize_dashes := true;
  soften_inline_newlines := false;
  inline_newline_window := 60
|}.

End Normalizer.

(** ** structure_parser.py *)

Module StructureParser.

Import Py.

(** The six strings [_mk_anchor] is called with; its branch and the
    [priority] default for any other string are never taken. *)
Inductive kind : Type := section | appendix | clause | numtitle | table | figure.

Definition kind_eqb (a b : kind) : bool :=
  match a, b with
  | section, section | appendix, appendix | clause, clause
  | numtitle, numtitle | table, table | figure, figure => true
  | _, _ => false
  end.

Record Anchor : Type := {
  a_kind : kind;
  a_id : str;
  a_title : str;
  a_start : Z;
  a_end : Z;
  a_level : Z;
  a_raw_kind : option str
}.

Definition set_end (a : Anchor) (e : Z) : Anchor :=
  {| a_kind := a_kind a; a_id := a_id a; a_title := a_title a; a_start := a_start a;
     a_end := e; a_level := a_level a; a_raw_kind := a_raw_kind a |}.

(** Names bound at module level: the imports (taken to succeed), the
    patterns, the class and the functions. *)
Definition globals : list string :=
  ["annotations"; "dataclass"; "current_process"; "List"; "Optional"; "Tuple"; "re";
   "ingest"; "RE_SECTION"; "RE_APPENDIX"; "RE_CLAUSE"; "RE_NUM_TITLE"; "RE_TABLE";
   "RE_FIG"; "Anchor"; "label"; "_bot_depth"; "_mk_anchor"; "find_anchors";
   "_best_anchor_for_pos"; "annotate_chunks_with_sections"; "build_outline";
   "__all__"]%string.

Definition imline (r : Re.regex) : Re.pattern :=
  {| Re.re := r; Re.ignorecase := true; Re.multiline := true |}.

Definition ws : Re.regex := Re.Set_ [Re.Space].
Definition digit : Re.regex := Re.Set_ [Re.Digit].
Definition dot : Re.regex := Re.lit1 46.
Definition title_rest : Re.regex := Re.Group "title" (Re.star Re.Any).
Definition closer : Re.regex := Re.opt (Re.Set_ [Re.Chr 46; Re.Chr 41]).

(** [^\s*(?P<kind>Раздел|Глава|Часть)\s+(?P<id>(?:[IVXLCDM]+|\d+))\s*[.)]?\s*(?P<title>.* )$] *)
Definition RE_SECTION : Re.pattern :=
  imline (Re.seq [Re.Bol; Re.star ws;
                  Re.Group "kind" (Re.alt [Re.lit (u "Раздел"); Re.lit (u "Глава");
                                           Re.lit (u "Часть")]);
                  Re.plus ws;
                  Re.Group "id" (Re.alt [Re.plus (Re.Set_ (Re.chars (u "IVXLCDM")));
                                         Re.plus digit]);
                  Re.star ws; closer; Re.star ws; title_rest; Re.Eol]).

(** [^\s*(?P<kind>Приложение)\s*(?P<id>[A-ЯA-Z\d]+)?\s*[.)]?\s*(?P<title>.* )$]; the
    first range runs from Latin [A] to Cyrillic [Я]. *)
Definition RE_APPENDIX : Re.pattern :=
  imline (Re.seq [Re.Bol; Re.star ws;
                  Re.Group "kind" (Re.lit (u "Приложение"));
                  Re.star ws;
                  Re.opt (Re.Group "id" (Re.plus (Re.Set_ [Re.Rng 65 1071; Re.Rng 65 90;
                                                            Re.Digit])));
                  Re.star ws; closer; Re.star ws; title_rest; Re.Eol]).

(** [\d+(?:\.\d+){0,n}] *)
Definition dotted (n : option nat) : Re.regex :=
  Re.Seq (Re.plus digit) (Re.Rep 0 n (Re.Seq dot (Re.plus digit))).

(** [^\s*(?P<kind>Пункт|Подпункт|П\.|п\.)\s+(?P<id>\d+(?:\.\d+){0,4})\s*[.)]?\s*(?P<title>.* )$] *)
Definition RE_CLAUSE : Re.pattern :=
  imline (Re.seq [Re.Bol; Re.star ws;
                  Re.Group "kind" (Re.alt [Re.lit (u "Пункт"); Re.lit (u "Подпункт");
                                           Re.Seq (Re.lit1 1055) dot;
                                           Re.Seq (Re.lit1 1087) dot]);
                  Re.plus ws;
                  Re.Group "id" (dotted (Some 4%nat));
                  Re.star ws; closer; Re.star ws; title_rest; Re.Eol]).

(** [^\s*(?P<id>\d+(?:\.\d+){0,2})\s+(?P<title>[A-ЯA-ZЁ].{2,})$], MULTILINE only;
    it has no group [kind]. *)
Definition RE_NUM_TITLE : Re.pattern :=
  {| Re.re := Re.seq [Re.Bol; Re.star ws;
                      Re.Group "id" (dotted (Some 2%nat));
                      Re.plus ws;
                      Re.Group "title" (Re.Seq (Re.Set_ [Re.Rng 65 1071; Re.Rng 65 90;
                                                         Re.Chr 1025])
                                               (Re.Rep 2 None Re.Any));
                      Re.Eol];
     Re.ignorecase := false; Re.multiline := true |}.

(** [^\s*(?P<kind>Таблица)\s+(?P<id>\d+(?:\.\d+)* )\s*(?P<title>.* )$] and the same
    for [Рисунок]. *)
Definition caption (word : str) : Re.pattern :=
  imline (Re.seq [Re.Bol; Re.star ws;
                  Re.Group "kind" (Re.lit word);
                  Re.plus ws;
                  Re.Group "id" (dotted None);
                  Re.star ws; title_rest; Re.Eol]).

Definition RE_TABLE : Re.pattern := caption (u "Таблица").
Definition RE_FIG : Re.pattern := caption (u "Рисунок").

(** [_bot_depth]: the number of dots of the identifier plus one. *)
Definition _bot_depth (num_id : str) : Z :=
  match num_id with
  | [] => 1
  | _ => len (List.filter (fun c => c =? 46) num_id) + 1
  end.

(** Calling the object a name is bound to with one argument, where an [int]
    is expected: the module defines one such function. *)
Definition call_int (f : value) (arg : value) : result Z :=
  match f, arg with
  | VObject "_bot_depth", VStr s => Ok (_bot_depth s)
  | VObject "_bot_depth", _ => Raise (AttributeError "object" "count")
  | _, _ => Raise (TypeError "object is not callable")
  end.

(** [_mk_anchor]: the level of a clause or numbered title is read through
    the names [_dot_depth] and [id]. *)
Definition _mk_anchor (k : kind) (raw_kind : option str) (_id : option str)
    (title : option str) (start : Z) : result Anchor :=
  do level <-
    (match k with
     | section | appendix => Ok 1
     | clause | numtitle =>
         do f <- load_global globals "_dot_depth";
         do arg <- load_global globals "id";
         do d <- call_int f arg;
         Ok (Z.min (1 + d) 6)
     | table | figure => Ok 99
     end);
  do id_stripped <-
    (match _id with
     | Some i => Ok (strip i)
     | None => Raise (AttributeError "NoneType" "strip")
     end);
  Ok {| a_kind := k; a_raw_kind := raw_kind; a_id := id_stripped;
        a_title := strip (match title with Some t => t | None => [] end);
        a_start := start; a_end := 1; a_level := level |}.

(** Stable sort by [start], as [anchors.sort(key=lambda a: a.start)]. *)
Fixpoint insert_by_start (a : Anchor) (l : list Anchor) : list Anchor :=
  match l with
  | [] => [a]
  | b :: rest => if a_start a <? a_start b then a :: l else b :: insert_by_start a rest
  end.

Definition sort_by_start (l : list Anchor) : list Anchor :=
  fold_left (fun acc a => insert_by_start a acc) l [].

(** [a.end = l[i + 1].start if i + 1 < len(l) else len(text)] for every [a]. *)
Fixpoint set_ends (text_len : Z) (l : list Anchor) : list Anchor :=
  match l with
  | [] => []
  | a :: rest =>
      set_end a (match rest with b :: _ => a_start b | [] => text_len end)
      :: set_ends text_len rest
  end.

Definition priority (k : kind) : Z :=
  match k with
  | section | appendix => 1
  | clause => 2
  | numtitle => 3
  | table | figure => 9
  end.

(** One step of the de-duplication loop. *)
Definition dedup_step (dedup : list Anchor) (a : Anchor) : list Anchor :=
  match last dedup with
  | Some d =>
      if (Z.abs (a_start a - a_start d) <? 2) && str_eqb (a_id a) (a_id d) then
        if priority (a_kind a) <? priority (a_kind d) then removelast dedup ++ [a]
        else dedup
      else dedup ++ [a]
  | None => dedup ++ [a]
  end.

Section WithTables.

Variable T : Lib.tables.

(** One [for m in RE.finditer(text)] loop of [find_anchors]. [id_default] is
    true where the source writes [m.group("id") or ""]. *)
Fixpoint collect (P : Re.pattern) (k : kind) (id_default : bool) (text : str)
    (ms : list Re.match_) (anchors : list Anchor) : result (list Anchor) :=
  match ms with
  | [] => Ok anchors
  | m :: rest =>
    do raw <- Re.group P text m "kind";
    do i <- Re.group P text m "id";
    do t <- Re.group P text m "title";
    let i := if id_default then
               match i with Some (_ :: _) => i | _ => Some [] end
             else i in
    do a <- _mk_anchor k raw i t (Z.of_nat (Re.m_start m));
    collect P k id_default text rest (anchors ++ [a])
  end.

Definition scan (P : Re.pattern) (k : kind) (id_default : bool) (text : str)
    (anchors : list Anchor) : result (list Anchor) :=
  collect P k id_default text (Re.finditer T P text) anchors.

(** [find_anchors(text)] *)
Definition find_anchors (text : str) : result (list Anchor) :=
  do anchors <- scan RE_SECTION section false text [];
  do anchors <- scan RE_APPENDIX appendix true text anchors;
  do anchors <- scan RE_CLAUSE clause false text anchors;
  do anchors <- scan RE_NUM_TITLE numtitle false text anchors;
  do anchors <- scan RE_TABLE table false text anchors;
  do anchors <- scan RE_FIG figure false text anchors;
  let anchors := sort_by_start anchors in
  let anchors := set_ends (len text) anchors in
  let dedup := fold_left dedup_step anchors [] in
  Ok (set_ends (len text) dedup).

(** The first loop of [_best_anchor_for_pos]: the last anchor of the leading
    run with [start <= pos]. *)
Fixpoint last_not_after (anchors : list Anchor) (pos : value) (candidate : option Anchor)
    : result (option Anchor) :=
  match anchors with
  | [] => Ok candidate
  | a :: rest =>
    do le <- int_le (a_start a) pos;
    if (le : bool) then last_not_after rest pos (Some a) else Ok candidate
  end.

(** [obj.level] on the object a name is bound to: no function, class or
    module object of this module has such an attribute, nor has an [int], a
    [str] or [None]. *)
Definition level_of (v : value) : result Z :=
  Raise (AttributeError "object" "level").

(** The second loop, over [reversed(anchors)]. Its comparison of levels
    reads the name [bext]. *)
Fixpoint refine (l : list Anchor) (pos : value) (best : Anchor) : result Anchor :=
  match l with
  | [] => Ok best
  | a :: rest =>
    do gt <- int_gt (a_start a) pos;
    if (gt : bool) then refine rest pos best
    else if kind_eqb (a_kind a) table || kind_eqb (a_kind a) figure then refine rest pos best
    else
      do le <- int_le (a_start a) pos;
      if (le : bool) && (a_start best <=? a_start a) then
        do bext <- load_global globals "bext";
        do bl <- level_of bext;
        if ((bl <? a_level a) && (a_level a <? 99))
           || ((a_level a =? a_level best) && (a_start best <=? a_start a))
        then refine rest pos a
        else refine rest pos best
      else refine rest pos best
  end.

(** [_best_anchor_for_pos(anchors, pos)] *)
Definition _best_anchor_for_pos (anchors : list Anchor) (pos : value)
    : result (option Anchor) :=
  match anchors with
  | [] => Ok None
  | _ =>
    do candidate <- last_not_after anchors pos None;
    match candidate with
    | None => Ok None
    | Some c => do best <- refine (rev anchors) pos c; Ok (Some best)
    end
  end.

(** [anchor.name()]: the class [Anchor] defines its seven fields and no
    method ([label] is a function of the module). *)
Definition call_method (a : Anchor) (name : string) : result str :=
  if existsb (String.eqb name)
       ["kind"; "id"; "title"; "start"; "end"; "level"; "raw_kind"]%string
  then Raise (TypeError "object is not callable")
  else Raise (AttributeError "Anchor" name).

(** The loop of [annotate_chunks_with_sections]: [start] is what the name
    [current_process] is bound to. *)
Fixpoint annotate_loop (anchors : list Anchor) (chunks : list str) (cursor : Z)
    (labels : list (option str)) : result (list (option str)) :=
  match chunks with
  | [] => Ok labels
  | ch :: rest =>
    do start <- load_global globals "current_process";
    do anchor <- _best_anchor_for_pos anchors start;
    do lab <-
      (match anchor with
       | Some a => do l <- call_method a "lebel"; Ok (Some l)
       | None => Ok None
       end);
    annotate_loop anchors rest (cursor + (len ch + 1)) (labels ++ [lab])
  end.

(** [annotate_chunks_with_sections(text, chunks)] *)
Definition annotate_chunks_with_sections (text : str) (chunks : list str)
    : result (list (option str)) :=
  do anchors <- find_anchors text;
  annotate_loop anchors chunks 0 [].

End WithTables.

(** A text whose only heading comes after a first paragraph, and that
    paragraph as the only chunk (scenario 4). *)
Definition scenario4_text : str := u "abc" ++ [NL; NL] ++ u "Раздел 1. Общие".
Definition scenario4_chunks : list str := [u "abc"].

(** Two section headings around a line of text (scenario 3). *)
Definition scenario3_text : str :=
  u "Раздел 1. Общие положения" ++ [NL] ++ u "..." ++ [NL] ++ u "Раздел 2. Термины".

(** A text with one numbered clause, and one with a bare numbered title. *)
Definition clause_text : str := u "Пункт 1.2 Общие".
Definition numtitle_text : str := u "1.2 Общие положения".

(** The chaining of ends: each anchor ends where the next one starts, the
    last one at [text_len]. *)
Fixpoint chained (text_len : Z) (l : list Anchor) : Prop :=
  match l with
  | [] => True
  | a :: rest =>
      a_end a = match rest with b :: _ => a_start b | [] => text_len end
      /\ chained text_len rest
  end.

(** [build_outline(text)] *)
Definition build_outline (T : Lib.tables) (text : str) : result (list Anchor) :=
  find_anchors T text.

(** A caption anchor: a table or a figure. *)
Definition is_caption (a : Anchor) : Prop := a_kind a = table \/ a_kind a = figure.

(** What [_mk_anchor] gives an anchor it can build: level 1 for a section or
    an appendix, level 99 for a caption, and a stripped id and title. *)
Definition well_formed (a : Anchor) : Prop :=
  (((a_kind a = section \/ a_kind a = appendix) /\ a_level a = 1)
   \/ (is_caption a /\ a_level a = 99))
  /\ trimmed (a_id a) /\ trimmed (a_title a).

(** The candidate of the lookup at an [int] position: the last anchor of the
    leading run of anchors that start at or before [pos]. *)
Fixpoint candidate_at (anchors : list Anchor) (pos : Z) (candidate : option Anchor)
    : option Anchor :=
  match anchors with
  | [] => candidate
  | a :: rest => if a_start a <=? pos then candidate_at rest pos (Some a) else candidate
  end.

(** An anchor whose level the second loop compares with that of [c]: it
    starts at or before [pos] and not before [c], and is no caption. *)
Definition compared (c : Anchor) (pos : Z) (a : Anchor) : bool :=
  (a_start a <=? pos)
  && negb (kind_eqb (a_kind a) table || kind_eqb (a_kind a) figure)
  && (a_start c <=? a_start a).

(** A table caption as an anchor, and a text without any heading. *)
Definition caption_anchor : Anchor :=
  {| a_kind := table; a_id := u "2"; a_title := u "Sizes"; a_start := 3; a_end := 20;
     a_level := 99; a_raw_kind := None |}.

Definition plain_text : str := u "Just a line of text.".

(** A section heading followed by a table caption. *)
Definition caption_text : str := u "Раздел 1. Общие" ++ [NL] ++ u "Таблица 2 Размеры".

(** Offsets in ascending order. *)
Fixpoint ascending (l : list Z) : Prop :=
  match l with
  | [] => True
  | x :: rest => Forall (Z.le x) rest /\ ascending rest
  end.

End StructureParser.

(** ** segmenter.py *)

Module Segmenter.

Import Py.

Record SegmentConfig : Type := {
  target_len : Z;
  max_len : Z;
  min_len : Z;
  overlap : Z;
  prefer_headings : bool;
  min_par_len : Z;
  min_sent_len : Z
}.

(** [SegmentConfig()] *)
Definition default_config : SegmentConfig := {|
  target_len := 900;
  max_len := 1200;
  min_len := 250;
  overlap := 120;
  prefer_headings := true;
  min_par_len := 20;
  min_sent_len := 20
|}.

(** The truth value of an attribute of a [SegmentConfig] instance, by name. *)
Definition getattr_truth (cfg : SegmentConfig) (name : string) : result bool :=
  if String.eqb name "target_len" then Ok (negb (target_len cfg =? 0))
  else if String.eqb name "max_len" then Ok (negb (max_len cfg =? 0))
  else if String.eqb name "min_len" then Ok (negb (min_len cfg =? 0))
  else if String.eqb name "overlap" then Ok (negb (overlap cfg =? 0))
  else if String.eqb name "prefer_headings" then Ok (prefer_headings cfg)
  else if String.eqb name "min_par_len" then Ok (negb (min_par_len cfg =? 0))
  else if String.eqb name "min_sent_len" then Ok (negb (min_sent_len cfg =? 0))
  else Raise (AttributeError "SegmentConfig" name).

(** Names bound at module level. *)
Definition globals : list string :=
  ["annotations"; "dataclass"; "pbkdf2_hmac"; "List"; "Tuple"; "Iterable"; "Optional";
   "re"; "SegmentConfig"; "HEAD_RE"; "UPPER_HEADING_RE"; "PARA_SPLIT_RE";
   "SENT_SPLIT_RE"; "_split_paragraphs"; "_is_heading"; "_split_sentences";
   "_soft_cut"; "chunk_text"; "chunk_text_with_spans"; "approximate_pages";
   "__all__"]%string.

Definition ws : Re.regex := Re.Set_ [Re.Space].
Definition digit : Re.regex := Re.Set_ [Re.Digit].
Definition digit09 : Re.regex := Re.Set_ [Re.Rng 48 57].
Definition dot : Re.regex := Re.lit1 46.

(** [\d+(?:\.\d+){0,4}] *)
Definition clause_number : Re.regex :=
  Re.Seq (Re.plus digit) (Re.Rep 0 (Some 4%nat) (Re.Seq dot (Re.plus digit))).

(** [HEAD_RE], IGNORECASE: optional white space, one of seven heading
    shapes, optional white space, end. *)
Definition HEAD_RE : Re.pattern :=
  {| Re.re :=
       Re.seq [Re.Bol; Re.star ws;
               Re.alt [
                 (* (?:ГОСТ|СНиП|СП|ПУЭ|СТО)\s+[\w\-.:/]+ *)
                 Re.seq [Re.alt [Re.lit (u "ГОСТ"); Re.lit (u "СНиП"); Re.lit (u "СП");
                                 Re.lit (u "ПУЭ"); Re.lit (u "СТО")];
                         Re.plus ws;
                         Re.plus (Re.Set_ [Re.Word; Re.Chr 45; Re.Chr 46; Re.Chr 58;
                                           Re.Chr 47])];
                 (* Раздел\s+\d+ *)
                 Re.seq [Re.lit (u "Раздел"); Re.plus ws; Re.plus digit];
                 (* Глава\s+\d+ *)
                 Re.seq [Re.lit (u "Глава"); Re.plus ws; Re.plus digit];
                 (* Часть\s+(?:\d+|[IVXLCDM]+) *)
                 Re.seq [Re.lit (u "Часть"); Re.plus ws;
                         Re.alt [Re.plus digit; Re.plus (Re.Set_ (Re.chars (u "IVXLCDM")))]];
                 (* Пункт\s+\d+(?:\.\d+){0,4} *)
                 Re.seq [Re.lit (u "Пункт"); Re.plus ws; clause_number];
                 (* П\.\s*\d+(?:\.\d+){0,4} *)
                 Re.seq [Re.lit1 1055; dot; Re.star ws; clause_number];
                 (* [0-9]+(?:\.[0-9]+){0,2}\s+[А-ЯA-ZЁ].{2,} *)
                 Re.seq [Re.plus digit09;
                         Re.Rep 0 (Some 2%nat) (Re.Seq dot (Re.plus digit09));
                         Re.plus ws;
                         Re.Set_ [Re.Rng 1040 1071; Re.Rng 65 90; Re.Chr 1025];
                         Re.Rep 2 None Re.Any]];
               Re.star ws; Re.Eol];
     Re.ignorecase := true; Re.multiline := false |}.

(** [^[A-ZА-ЯЁ0-9 \-,:()]{8,80}$] *)
Definition UPPER_HEADING_RE : Re.pattern :=
  {| Re.re :=
       Re.seq [Re.Bol;
               Re.Rep 8 (Some 80%nat)
                 (Re.Set_ [Re.Rng 65 90; Re.Rng 1040 1071; Re.Chr 1025; Re.Rng 48 57;
                           Re.Chr 32; Re.Chr 45; Re.Chr 44; Re.Chr 58; Re.Chr 40; Re.Chr 41]);
               Re.Eol];
     Re.ignorecase := false; Re.multiline := false |}.

(** [\n{2,}] *)
Definition PARA_SPLIT_RE : Re.pattern :=
  {| Re.re := Re.Rep 2 None (Re.lit1 NL); Re.ignorecase := false; Re.multiline := false |}.

(** [(?<=[\.\?\!\:;…])\s+] *)
Definition SENT_SPLIT_RE : Re.pattern :=
  {| Re.re := Re.Seq (Re.Behind [Re.Chr 46; Re.Chr 63; Re.Chr 33; Re.Chr 58; Re.Chr 59;
                                 Re.Chr 8230])
                     (Re.plus ws);
     Re.ignorecase := false; Re.multiline := false |}.

(** Truth value of a [str] or a [list]. *)
Definition nonempty {A : Type} (l : list A) : bool :=
  match l with [] => false | _ => true end.

Section WithTables.

Variable T : Lib.tables.

Definition _split_paragraphs (text : str) : list str :=
  let parts := map strip (Re.split T PARA_SPLIT_RE text) in
  List.filter nonempty parts.

Definition _is_heading (line : str) : bool :=
  let s := strip line in
  if Re.matches T HEAD_RE s then true
  else if (8 <=? len s) && (len s <=? 80) && str_eqb s (Lib.str_upper T s)
          && Re.matches T UPPER_HEADING_RE s
  then true
  else false.

Definition _split_sentences (par : str) : list str :=
  let parts := map strip (Re.split T SENT_SPLIT_RE par) in
  List.filter nonempty parts.

(** A sentence whose length reaches [min_len]. *)
Definition long_sentence (cfg : SegmentConfig) (s : str) : bool := min_len cfg <=? len s.

(** The sentence loop of [_soft_cut]. [pos] is never advanced, and the
    distance is computed from the name [ens]. *)
Fixpoint sentence_loop (cfg : SegmentConfig) (target : Z) (sents : list str)
    (pos best best_dist : Z) : result (Z * Z) :=
  match sents with
  | [] => Ok (best, best_dist)
  | s :: rest =>
    let end_ := pos + len s in
    if end_ <? min_len cfg then sentence_loop cfg target rest pos best best_dist
    else
      do ens <- load_global globals "ens";
      do d <- sub_int ens target;
      let dist := Z.abs d in
      if (dist <? best_dist) && (end_ <=? max_len cfg)
      then sentence_loop cfg target rest pos end_ dist
      else sentence_loop cfg target rest pos best best_dist
  end.

(** Pairs in the order of Python tuples, and [cand.sort()]. *)
Definition pair_ltb (a b : Z * Z) : bool :=
  (fst a <? fst b) || ((fst a =? fst b) && (snd a <? snd b)).

Fixpoint insert_pair (a : Z * Z) (l : list (Z * Z)) : list (Z * Z) :=
  match l with
  | [] => [a]
  | b :: rest => if pair_ltb a b then a :: l else b :: insert_pair a rest
  end.

Definition sort_pairs (l : list (Z * Z)) : list (Z * Z) :=
  fold_left (fun acc a => insert_pair a acc) l [].

(** [_soft_cut(buffer, cfg)] *)
Definition _soft_cut (buffer : str) (cfg : SegmentConfig) : result Z :=
  let n := len buffer in
  if n <=? max_len cfg then Ok (-1)
  else
    let target := target_len cfg in
    let target := if target <? min_len cfg then (min_len cfg + max_len cfg) / 2 else target in
    let target := Z.max (min_len cfg) (Z.min target (max_len cfg)) in
    let sents := _split_sentences buffer in
    do bb <- sentence_loop cfg target sents 0 (-1) (10 ^ 9);
    let best := fst bb in
    if negb (best =? -1) then Ok best
    else
      let left := rfind3 buffer [SP] (min_len cfg) (Z.min n (max_len cfg)) in
      let right := find3 buffer [SP] (Z.min target (n - 1)) (Z.min n (max_len cfg)) in
      let cand := if negb (left =? -1) then [(Z.abs (left - target), left)] else [] in
      do rigth <- load_global globals "rigth";
      let cand := if ne_int rigth (-1) then cand ++ [(Z.abs (right - target), right)] else cand in
      match sort_pairs cand with
      | c :: _ => Ok (snd c)
      | [] => Ok (-1)
      end.

(** The first loop of [chunk_text_with_spans]: the loop variable is [par],
    the body reads [p], a local of the function that no statement has
    assigned yet. *)
Fixpoint build_items (paragraphs : list str) (p : option str) (items : list (str * bool))
    : result (list (str * bool)) :=
  match paragraphs with
  | [] => Ok items
  | par :: rest =>
    do p1 <- load_local "p" p;
    let is_head := _is_heading p1 in
    do p2 <- load_local "p" p;
    build_items rest p (items ++ [(p2, is_head)])
  end.

(** The locals of the main loop. [buf] is a [str] until the overflow branch
    binds it to a method object. *)
Record locals : Type := {
  chunks : list str;
  spans : list (Z * Z);
  buf : value;
  buf_start : Z;
  cursor : Z;
  chunk : option str
}.

Definition as_str (v : value) : result str :=
  match v with
  | VStr s => Ok s
  | _ => Raise (TypeError "a str is required")
  end.

(** The heading branch (the first [if] of the loop body). *)
Definition close_on_heading (cfg : SegmentConfig) (idx : Z) (is_head : bool) (st : locals)
    : result locals :=
  do c <-
    (if is_head then
       if truthy (buf st) then
         do n <- py_len (buf st);
         if min_len cfg <=? n then getattr_truth cfg "prefet_headings" else Ok false
       else Ok false
     else Ok false);
  if (c : bool) then
    do b <- as_str (buf st);
    do cut_at <- _soft_cut b cfg;
    if negb (cut_at =? -1) then
      let ch := strip (slice_to b cut_at) in
      let overlap_text := strip (slice b (Z.max 0 (cut_at - overlap cfg)) cut_at) in
      Ok {| chunks := chunks st ++ [ch];
            spans := spans st ++ [(buf_start st, buf_start st + cut_at)];
            buf := VStr (strip (overlap_text ++ [NL] ++ slice_from b cut_at));
            buf_start := buf_start st + cut_at - len overlap_text;
            cursor := cursor st;
            chunk := Some ch |}
    else
      Ok {| chunks := chunks st ++ [strip b];
            spans := spans st ++ [(buf_start st, buf_start st + len b)];
            buf := VStr [];
            buf_start := idx;
            cursor := cursor st;
            chunk := chunk st |}
  else Ok st.

(** The second [if] of the loop body: start a buffer, append the paragraph,
    or handle the overflow. *)
Definition append_paragraph (cfg : SegmentConfig) (idx : Z) (p : str) (st : locals)
    : result locals :=
  if negb (truthy (buf st)) then
    Ok {| chunks := chunks st; spans := spans st; buf := VStr p; buf_start := idx;
          cursor := cursor st; chunk := chunk st |}
  else
    do b <- as_str (buf st);
    let candidate := strip (b ++ [NL; NL] ++ p) in
    do st' <-
      (if len candidate <=? max_len cfg then
         Ok {| chunks := chunks st; spans := spans st; buf := VStr candidate;
               buf_start := buf_start st; cursor := cursor st; chunk := chunk st |}
       else
         do cut_at <- _soft_cut b cfg;
         if cut_at =? -1 then
           let chunks1 := chunks st ++ [strip b] in
           let spans1 := spans st ++ [(buf_start st, buf_start st + len b)] in
           let overlap_text := strip (slice_from b (Z.max 0 (len b - overlap cfg))) in
           let b2 := strip (overlap_text ++ [NL; NL] ++ p) in
           do ch <- load_local "chunk" (chunk st);
           let chunks2 := chunks1 ++ [ch] in
           let spans2 := spans1 ++ [(buf_start st, buf_start st + len b2)] in
           let overlap_text2 := strip (slice b2 (Z.max 0 (cut_at - overlap cfg)) cut_at) in
           Ok {| chunks := chunks2; spans := spans2;
                 buf := VObject "str.strip";
                 buf_start := buf_start st + cut_at - len overlap_text2;
                 cursor := cursor st; chunk := chunk st |}
         else Ok st);
    Ok {| chunks := chunks st'; spans := spans st'; buf := buf st';
          buf_start := buf_start st'; cursor := idx + len p; chunk := chunk st' |}.

(** The last [if] of the loop body and the [return] that follows it. *)
Definition flush_and_return (text : str) (cfg : SegmentConfig) (st : locals)
    : result (list str * list (Z * Z)) :=
  if truthy (buf st) then
    do n <- py_len (buf st);
    do b <- as_str (buf st);
    let emit := Ok (chunks st ++ [strip b], spans st ++ [(len text - len b, len text)]) in
    if (n <? min_len cfg) && nonempty (chunks st) then
      match last (chunks st) with
      | None => Raise (IndexError "list index out of range")
      | Some prev =>
        let merged := strip (prev ++ [NL; NL] ++ b) in
        if len merged <=? max_len cfg then
          match last (spans st) with
          | None => Raise (IndexError "list index out of range")
          | Some (prev_start, _) =>
              Ok (removelast (chunks st) ++ [merged],
                  removelast (spans st) ++ [(prev_start, prev_start + len merged)])
          end
        else emit
      end
    else emit
  else Ok (chunks st, spans st).

(** One run of the body of [for p, is_head in items]. *)
Definition loop_body (text : str) (cfg : SegmentConfig) (p : str) (is_head : bool)
    (st : locals) : result (list str * list (Z * Z)) :=
  let idx := find2 text p (cursor st) in
  let idx := if idx =? -1 then cursor st else idx in
  do st <- close_on_heading cfg idx is_head st;
  do st <- append_paragraph cfg idx p st;
  flush_and_return text cfg st.

(** [chunk_text_with_spans(text, cfg)]. The [return] statement is the last
    statement of the loop body, so the body runs for the first item only;
    with no item the function ends without a [return] and its value is
    [None]. *)
Definition chunk_text_with_spans (text : str) (cfg : SegmentConfig)
    : result (option (list str * list (Z * Z))) :=
  let paragraphs := _split_paragraphs text in
  do items <- build_items paragraphs None [];
  let st := {| chunks := []; spans := []; buf := VStr []; buf_start := 0; cursor := 0;
               chunk := None |} in
  match items with
  | [] => Ok None
  | (p, is_head) :: _ =>
      do r <- loop_body text cfg p is_head st;
      Ok (Some r)
  end.

(** [chunk_text(text, cfg)]: [chunks, _ = chunk_text_with_spans(text, cfg)] *)
Definition chunk_text (text : str) (cfg : SegmentConfig) : result (list str) :=
  do r <- chunk_text_with_spans text cfg;
  match r with
  | Some (chunks, _) => Ok chunks
  | None => Raise (TypeError "cannot unpack non-iterable NoneType object")
  end.

End WithTables.

(** *** Page mapper *)

(** [min(l)] and [max(l)]: [ValueError] on an empty list. *)
Definition py_min (l : list Z) : result Z :=
  match l with
  | [] => Raise (ValueError "min() arg is an empty sequence")
  | x :: r => Ok (fold_left Z.min r x)
  end.

Definition py_max (l : list Z) : result Z :=
  match l with
  | [] => Raise (ValueError "max() arg is an empty sequence")
  | x :: r => Ok (fold_left Z.max r x)
  end.

(** The loop that turns the per-page counts into [(start, end, page)]
    triples; a page descriptor is a [dict] from field names to [int]. *)
Fixpoint build_cutoffs (pages_meta : list (gmap string Z)) (s : Z)
    (cutoffs : list (Z * Z * Z)) : list (Z * Z * Z) :=
  match pages_meta with
  | [] => cutoffs
  | p :: rest =>
    let s2 := s + default 0 (p !! "chars"%string) in
    let pg := default 0 (p !! "page"%string) in
    let pg := if pg =? 0 then len cutoffs + 1 else pg in
    build_cutoffs rest s2 (cutoffs ++ [(s, s2, pg)])
  end.

(** [[pg for (a, b, pg) in cutoffs if not (b <= start or a >= end)]] *)
Definition pages_hit (cutoffs : list (Z * Z * Z)) (span : Z * Z) : list Z :=
  let '(start, end_) := span in
  map (fun c => snd c)
      (List.filter (fun c => let '(a, b, _) := c in negb ((b <=? start) || (end_ <=? a)))
                   cutoffs).

Definition page_range (cutoffs : list (Z * Z * Z)) (span : Z * Z)
    : result (option Z * option Z) :=
  match pages_hit cutoffs span with
  | [] => Ok (None, None)
  | hits => do lo <- py_min hits; do hi <- py_max hits; Ok (Some lo, Some hi)
  end.

Fixpoint page_ranges (cutoffs : list (Z * Z * Z)) (spans : list (Z * Z))
    (acc : list (option Z * option Z)) : result (list (option Z * option Z)) :=
  match spans with
  | [] => Ok acc
  | sp :: rest => do r <- page_range cutoffs sp; page_ranges cutoffs rest (acc ++ [r])
  end.

(** [approximate_pages(pages_meta, spans)] *)
Definition approximate_pages (pages_meta : list (gmap string Z)) (spans : list (Z * Z))
    : result (list (option Z * option Z)) :=
  match pages_meta with
  | [] => Ok (map (fun _ => (None, None)) spans)
  | _ =>
    let cutoffs := build_cutoffs pages_meta 0 [] in
    page_ranges cutoffs spans []
  end.

(** The answer for one span as a value: [page_range] without its failure
    case. *)
Definition range_of (cutoffs : list (Z * Z * Z)) (span : Z * Z) : option Z * option Z :=
  match pages_hit cutoffs span with
  | [] => (None, None)
  | x :: r => (Some (fold_left Z.min r x), Some (fold_left Z.max r x))
  end.

(** A buffer of one long word, and one of many short sentences. *)
Definition one_word_buffer : str := repeat 97 1201.
Definition short_sentences_buffer : str := concat (repeat (u "ab. ") 301).

(** The page mapper in the words of the specification: the range of page
    [i] starts at the sum of the counts of the pages before it and is as long
    as its own count; a page without a number takes its position. *)
Definition chars_of (p : gmap string Z) : Z := default 0 (p !! "chars"%string).

Definition page_number (i : nat) (p : gmap string Z) : Z :=
  let pg := default 0 (p !! "page"%string) in
  if pg =? 0 then Z.of_nat i + 1 else pg.

Fixpoint total_chars (pages_meta : list (gmap string Z)) : Z :=
  match pages_meta with
  | [] => 0
  | p :: rest => chars_of p + total_chars rest
  end.

Definition cumulative_range (pages_meta : list (gmap string Z)) (i : nat)
    (p : gmap string Z) : Z * Z * Z :=
  let a := total_chars (firstn i pages_meta) in
  (a, a + chars_of p, page_number i p).

Definition cumulative_ranges (pages_meta : list (gmap string Z)) : list (Z * Z * Z) :=
  imap (cumulative_range pages_meta) pages_meta.

(** [not (page_end <= span_start or page_start >= span_end)] *)
Definition overlaps (c : Z * Z * Z) (span : Z * Z) : Prop :=
  ~ (snd (fst c) <= fst span \/ fst (fst c) >= snd span).

(** [pg] is the number of a page whose range overlaps [span]. *)
Definition overlapping_page (pages_meta : list (gmap string Z)) (span : Z * Z) (pg : Z) : Prop :=
  exists c, In c (cumulative_ranges pages_meta) /\ overlaps c span /\ snd c = pg.

(** [r] is the answer the specification gives for [span]. *)
Definition range_as_specified (pages_meta : list (gmap string Z)) (span : Z * Z)
    (r : option Z * option Z) : Prop :=
  match r with
  | (None, None) => forall pg, ~ overlapping_page pages_meta span pg
  | (Some lo, Some hi) =>
      overlapping_page pages_meta span lo /\ overlapping_page pages_meta span hi
      /\ forall pg, overlapping_page pages_meta span pg -> lo <= pg <= hi
  | _ => False
  end.

(** Two lists of descriptors that read the same from position [i] on: the
    same counts and the same page numbers, a missing entry counting as 0
    characters or as the position. *)
Fixpoint same_pages (i : nat) (l l' : list (gmap string Z)) : Prop :=
  match l, l' with
  | [], [] => True
  | p :: r, q :: r' =>
      chars_of p = chars_of q /\ page_number i p = page_number i q /\ same_pages (S i) r r'
  | _, _ => False
  end.

(** The two pages and the span of scenario 5. *)
Definition scenario5_pages : list (gmap string Z) :=
  [ {[ "page"%string := 1; "chars"%string := 100 ]};
    {[ "page"%string := 2; "chars"%string := 50 ]} ].

Definition scenario5_spans : list (Z * Z) := [(90, 120)].

End Segmenter.

(** * Properties *)

(** ** The matcher *)

Section MatcherProperties.

Import Re.

Variable T : Lib.tables.
Variable p : pattern.
Variable s : Py.str.

Lemma extends_refl (g : groups) : extends g g.
Proof. intros nm H. exact H. Qed.

Lemma extends_trans (g1 g2 g3 : groups) : extends g1 g2 -> extends g2 g3 -> extends g1 g3.
Proof. intros H12 H23 nm H. apply H23, H12, H. Qed.

Lemma extends_cons (e : string * (nat * nat)) (g : groups) : extends g (e :: g).
Proof. intros nm H. unfold binds in *. cbn [existsb]. rewrite H. apply orb_true_r. Qed.

(** A successful match ends in a successful continuation, on groups that
    extend the initial ones. *)
Lemma rep_loop_continues
    (step : nat -> groups -> (nat -> groups -> option (nat * groups)) -> option (nat * groups))
    (k : nat -> groups -> option (nat * groups)) :
  (forall i g k' res, step i g k' = Some res ->
                      exists j g', k' j g' = Some res /\ extends g g') ->
  forall fuel lo hi i g res,
    rep_loop step k fuel lo hi i g = Some res ->
    exists j g', k j g' = Some res /\ extends g g'.
Proof.
  intros Hstep. induction fuel as [|fuel IH]; intros lo hi i g res H; [discriminate|].
  cbn [rep_loop] in H.
  assert (Hstop : match lo with O => k i g | S _ => None end = Some res ->
                  exists j g', k j g' = Some res /\ extends g g').
  { destruct lo; [|discriminate]. intros Hk. exists i, g. split; [exact Hk|apply extends_refl]. }
  assert (Hmore : forall x,
             step i g (fun j g' => if (j =? i)%nat then None
                                   else rep_loop step k fuel (Nat.pred lo)
                                          (option_map Nat.pred hi) j g') = Some x ->
             x = res -> exists j g', k j g' = Some res /\ extends g g').
  { intros x Hx ->. apply Hstep in Hx as (j & g' & Hj & Hext).
    destruct (j =? i)%nat; [discriminate|].
    apply IH in Hj as (j' & g'' & Hk & Hext').
    exists j', g''. split; [exact Hk|eapply extends_trans; eassumption]. }
  destruct hi as [[|n]|].
  - apply Hstop, H.
  - destruct (step i g _) as [x|] eqn:E.
    + injection H as H. exact (Hmore x eq_refl H).
    + apply Hstop, H.
  - destruct (step i g _) as [x|] eqn:E.
    + injection H as H. exact (Hmore x eq_refl H).
    + apply Hstop, H.
Qed.

Lemma run_continues (r : regex) :
  forall i g k res, run T p s r i g k = Some res ->
                    exists j g', k j g' = Some res /\ extends g g'.
Proof.
  induction r as [|items| | | |items|a IHa b IHb|a IHa b IHb|lo hi r IH|nm r IH];
    intros i g k res H; cbn [run] in H.
  - exists i, g. split; [exact H|apply extends_refl].
  - destruct (char_at s i); [|discriminate]. destruct (in_set T p items z); [|discriminate].
    exists (S i), g. split; [exact H|apply extends_refl].
  - destruct (char_at s i); [|discriminate]. destruct (z =? 10); [discriminate|].
    exists (S i), g. split; [exact H|apply extends_refl].
  - destruct (at_bol p s i); [|discriminate].
    exists i, g. split; [exact H|apply extends_refl].
  - destruct (at_eol p s i); [|discriminate].
    exists i, g. split; [exact H|apply extends_refl].
  - destruct i as [|i']; [discriminate|].
    destruct (char_at s i'); [|discriminate]. destruct (in_set T p items z); [|discriminate].
    exists (S i'), g. split; [exact H|apply extends_refl].
  - apply IHa in H as (j & g' & Hb & Hext).
    apply IHb in Hb as (j' & g'' & Hk & Hext').
    exists j', g''. split; [exact Hk|eapply extends_trans; eassumption].
  - destruct (run T p s a i g k) as [x|] eqn:E.
    + injection H as ->. apply IHa in E. exact E.
    + apply IHb in H. exact H.
  - eapply rep_loop_continues; [|exact H]. intros. eapply IH. eassumption.
  - apply IH in H as (j & g' & Hk & Hext).
    exists j, ((nm, (i, j)) :: g'). split; [exact Hk|].
    eapply extends_trans; [exact Hext|apply extends_cons].
Qed.

(** A group that every way through the pattern passes is bound when the
    match succeeds. *)
Lemma run_binds (nm : string) (r : regex) :
  must_bind nm r = true ->
  forall i g k res, run T p s r i g k = Some res ->
                    exists j g', k j g' = Some res /\ binds nm g' = true.
Proof.
  induction r as [|items| | | |items|a IHa b IHb|a IHa b IHb|lo hi r IH|n r IH];
    cbn [must_bind]; intros Hm i g k res H; try discriminate; cbn [run] in H.
  - apply orb_true_iff in Hm as [Hm|Hm].
    + apply (IHa Hm) in H as (j & g' & Hb & Hnm).
      apply run_continues in Hb as (j' & g'' & Hk & Hext).
      exists j', g''. split; [exact Hk|apply Hext, Hnm].
    + apply run_continues in H as (j & g' & Hb & _).
      apply (IHb Hm) in Hb. exact Hb.
  - apply andb_true_iff in Hm as [Hma Hmb].
    destruct (run T p s a i g k) as [x|] eqn:E.
    + injection H as ->. apply (IHa Hma) in E. exact E.
    + apply (IHb Hmb) in H. exact H.
  - apply orb_true_iff in Hm as [Hm|Hm].
    + apply run_continues in H as (j & g' & Hk & _).
      exists j, ((n, (i, j)) :: g'). split; [exact Hk|].
      unfold binds. cbn [existsb fst]. rewrite Hm. reflexivity.
    + apply (IH Hm) in H as (j & g' & Hk & Hnm).
      exists j, ((n, (i, j)) :: g'). split; [exact Hk|]. apply extends_cons, Hnm.
Qed.

Lemma match_at_binds (nm : string) (i : nat) (m : match_) :
  must_bind nm (re p) = true ->
  match_at T p s i = Some m -> binds nm (m_groups m) = true.
Proof.
  intros Hm H. unfold match_at in H.
  destruct (run T p s (re p) i [] _) as [[j g]|] eqn:E; [|discriminate].
  injection H as <-. cbn [m_groups].
  apply (run_binds nm _ Hm) in E as (j' & g' & Hk & Hnm).
  injection Hk as <- <-. exact Hnm.
Qed.

Lemma search_from_match (fuel i : nat) (m : match_) :
  search_from T p s fuel i = Some m -> exists i', match_at T p s i' = Some m.
Proof.
  revert i. induction fuel as [|fuel IH]; intros i H; cbn [search_from] in H.
  - destruct (match_at T p s i) eqn:E; [|discriminate]. injection H as <-. eauto.
  - destruct (match_at T p s i) eqn:E.
    + injection H as <-. eauto.
    + destruct (length s <=? i)%nat; [discriminate|]. eapply IH, H.
Qed.

Lemma finditer_from_match (fuel i : nat) (m : match_) :
  In m (finditer_from T p s fuel i) -> exists i', match_at T p s i' = Some m.
Proof.
  revert i. induction fuel as [|fuel IH]; intros i H; cbn [finditer_from] in H; [contradiction|].
  destruct (search_from T p s (length s) i) as [m'|] eqn:E; [|contradiction].
  destruct H as [<-|H].
  - eapply search_from_match, E.
  - eapply IH, H.
Qed.

(** Every match of [finditer] binds such a group. *)
Lemma finditer_binds (nm : string) :
  must_bind nm (re p) = true ->
  Forall (fun m => binds nm (m_groups m) = true) (finditer T p s).
Proof.
  intros Hm. apply Forall_forall. intros m Hin.
  apply list_elem_of_In in Hin.
  apply finditer_from_match in Hin as [i Hi].
  eapply match_at_binds; eassumption.
Qed.

(** [m.group(name)] on a bound group of the pattern is a [str]. *)
Lemma group_bound (name : string) (m : match_) :
  existsb (String.eqb name) (group_names (re p)) = true ->
  binds name (m_groups m) = true ->
  exists v, group p s m name = Py.Ok (Some v).
Proof.
  intros Hn Hb. unfold group. rewrite Hn.
  unfold binds in Hb. induction (m_groups m) as [|[n [a b]] g IH]; [discriminate|].
  cbn [existsb fst] in Hb. cbn [List.find fst].
  destruct (String.eqb name n); [eauto|]. apply IH, Hb.
Qed.

(** [m.group(name)] on a group of the pattern does not raise. *)
Lemma group_defined (name : string) (m : match_) :
  existsb (String.eqb name) (group_names (re p)) = true ->
  exists v, group p s m name = Py.Ok v.
Proof. intros Hn. unfold group. rewrite Hn. eauto. Qed.

End MatcherProperties.

(** ** The normaliser *)

Section NormalizerProperties.

Import Py Normalizer.

Variable T : Lib.tables.

(** The dataclass declares [bullet_sumbol]; an instance has no attribute
    [bullet_symbol]. *)
Lemma getattr_bullet_symbol (cfg : CleanConfig) :
  getattr_str cfg "bullet_symbol" = Raise (AttributeError "CleanConfig" "bullet_symbol").
Proof. reflexivity. Qed.

(** The attribute that is declared can be read. *)
Lemma getattr_bullet_sumbol (cfg : CleanConfig) :
  getattr_str cfg "bullet_sumbol" = Ok (bullet_sumbol cfg).
Proof. reflexivity. Qed.

(** With [normalize_bullets] set, [clean] stops at the read of
    [cfg.bullet_symbol], whatever the text. *)
Lemma clean_raises_with_bullets (text : str) (cfg : CleanConfig) :
  normalize_bullets cfg = true ->
  clean T text (Some cfg) = Raise (AttributeError "CleanConfig" "bullet_symbol").
Proof.
  intros Hb. unfold clean. cbn [effective]. rewrite Hb, getattr_bullet_symbol. reflexivity.
Qed.

(** The limits are in this order. *)
Lemma limits_ordered : MAXREPEAT < maxsize /\ maxsize < str_digits_bound.
Proof. split; vm_compute; reflexivity. Qed.

(** [_collapse_spaces_and_newlines] returns below the largest repetition
    count [re] accepts, and raises from there on; what it returns is
    [collapsed]. *)
Lemma collapse_returns (text : str) (cs : bool) (N : Z) :
  N < MAXREPEAT - 1 ->
  _collapse_spaces_and_newlines T text cs N = Ok (collapsed T text cs N).
Proof.
  intros HN. destruct limits_ordered as [H1 H2].
  unfold _collapse_spaces_and_newlines, collapsed.
  destruct (Z.leb_spec 1 N); [|reflexivity].
  unfold str_of_int. rewrite Z.abs_eq by lia.
  destruct (Z.leb_spec str_digits_bound (N + 1)); [lia|]. cbn [bind].
  unfold str_repeat.
  destruct (Z.ltb_spec N (- maxsize - 1)); [lia|].
  destruct (Z.ltb_spec maxsize N); [lia|]. cbn [orb bind].
  unfold compile_newlines.
  destruct (Z.leb_spec MAXREPEAT (N + 1)); [lia|]. reflexivity.
Qed.

Lemma collapse_raises (text : str) (cs : bool) (N : Z) :
  MAXREPEAT - 1 <= N ->
  exists e, _collapse_spaces_and_newlines T text cs N = Raise e.
Proof.
  intros HN. assert (HM : MAXREPEAT = 4294967295) by reflexivity.
  unfold _collapse_spaces_and_newlines.
  destruct (Z.leb_spec 1 N); [|lia].
  destruct (str_of_int (N + 1)) as [count|e] eqn:Ec; [|cbn [bind]; eauto].
  unfold str_of_int in Ec.
  destruct (str_digits_bound <=? Z.abs (N + 1)); [discriminate|]. injection Ec as <-.
  cbn [bind]. destruct (str_repeat NL N) as [r|e]; [|cbn [bind]; eauto].
  cbn [bind]. unfold compile_newlines.
  destruct (Z.leb_spec MAXREPEAT (N + 1)); [|lia]. cbn [bind]. eauto.
Qed.

Lemma collapse_returned (text out : str) (cs : bool) (N : Z) :
  _collapse_spaces_and_newlines T text cs N = Ok out -> out = collapsed T text cs N.
Proof.
  intros H. destruct (Z.lt_ge_cases N (MAXREPEAT - 1)) as [HN|HN].
  - rewrite (collapse_returns text cs N HN) in H. congruence.
  - destruct (collapse_raises text cs N HN) as [e He]. congruence.
Qed.

(** X23. With [normalize_bullets] and [soften_inline_newlines] both off and
    no caller-supplied pattern, [clean] returns for every text when
    [max_consecutive_newlines] is below [MAXREPEAT - 1], the largest count
    for which the newline pattern compiles, and raises from there on. *)
Lemma clean_returns_without_bullets (text : str) (cfg : CleanConfig) :
  normalize_bullets cfg = false ->
  soften_inline_newlines cfg = false ->
  extra_header_footer_regexes cfg = [] ->
  (max_consecutive_newlines cfg < MAXREPEAT - 1 -> exists out, clean T text (Some cfg) = Ok out)
  /\ (MAXREPEAT - 1 <= max_consecutive_newlines cfg ->
      exists e, clean T text (Some cfg) = Raise e).
Proof.
  intros Hb Hs He. unfold clean, _drop_header_footer_lines. cbn [effective].
  rewrite Hb, Hs, He. cbn [compile_extra bind]. split; intros HN.
  - rewrite collapse_returns by exact HN. eauto.
  - apply collapse_raises, HN.
Qed.

(** C1 (the code departs from the claim). For every input string and every
    configuration with [normalize_bullets] set, the default one included,
    [clean] does not return a string: the read of [cfg.bullet_symbol] raises
    [AttributeError], because the field of [CleanConfig] is spelled
    [bullet_sumbol]. *)
Theorem clean_raises_at_bullet_symbol (text : str) (config : option CleanConfig) :
  normalize_bullets (effective config) = true ->
  clean T text config = Raise (AttributeError "CleanConfig" "bullet_symbol").
Proof.
  intros Hb. destruct config as [cfg|].
  - apply clean_raises_with_bullets. exact Hb.
  - apply (clean_raises_with_bullets text default_config). reflexivity.
Qed.

(** C4 (the code departs from the claim). Under the default configuration
    the test [clean(clean(t)) == clean(t)] yields no truth value for any
    [t]: its first call of [clean] already raises [AttributeError]. *)
Theorem idempotence_test_default_raises (t : str) :
  idempotence_test T t None = Raise (AttributeError "CleanConfig" "bullet_symbol").
Proof.
  unfold idempotence_test.
  rewrite (clean_raises_with_bullets t default_config eq_refl : clean T t None = _).
  reflexivity.
Qed.

(** C5 (the code departs from the claim). On the text of scenario 1 with
    [header_min_repeats=2] and the other fields at their defaults, [clean]
    raises [AttributeError] instead of returning the body line. *)
Theorem clean_scenario1_raises :
  clean T scenario1_text (Some (with_min_repeats 2))
  = Raise (AttributeError "CleanConfig" "bullet_symbol").
Proof.
  apply clean_raises_with_bullets. reflexivity.
Qed.

End NormalizerProperties.

Lemma clean_raises_at_bullet_symbol_witness :
  Normalizer.clean Lib.basic [] None
  = Py.Raise (Py.AttributeError "CleanConfig" "bullet_symbol").
Proof.
  apply (clean_raises_at_bullet_symbol Lib.basic [] None). reflexivity.
Defined.

(** The stages after the failing read do what scenario 1 describes: with
    [normalize_bullets=False] both page lines go and the body line stays. *)
Lemma clean_scenario1_without_bullets :
  Normalizer.clean Lib.basic Normalizer.scenario1_text
    (Some (Normalizer.without_bullets (Normalizer.with_min_repeats 2)))
  = Py.Ok (Py.u "Основной текст.").
Proof. vm_compute. reflexivity. Qed.

(** With [soften_inline_newlines] set, two short lines in a row make [clean]
    read the name [windows], which nothing binds. *)
Lemma clean_softening_raises :
  Normalizer.clean Lib.basic Normalizer.two_lines_text (Some Normalizer.softening)
  = Py.Raise (Py.NameError "windows").
Proof. vm_compute. reflexivity. Qed.

(** With [normalize_bullets=False], so that [clean] returns, a second pass
    can still change the text: hyphenation is repaired before the page-number
    line between the two halves of a word is dropped. *)
Lemma clean_twice_differs_without_bullets :
  let cfg := Some (Normalizer.without_bullets Normalizer.default_config) in
  Normalizer.clean Lib.basic Normalizer.broken_word_text cfg = Py.Ok (Py.u "a-" ++ [10] ++ Py.u "b")
  /\ Normalizer.clean Lib.basic (Py.u "a-" ++ [10] ++ Py.u "b") cfg = Py.Ok (Py.u "ab")
  /\ Normalizer.idempotence_test Lib.basic Normalizer.broken_word_text cfg = Py.Ok false.
Proof. vm_compute. repeat split; reflexivity. Qed.

(** ** The anchor extractor *)

Section StructureParserProperties.

Import Py StructureParser.

Variable T : Lib.tables.

(** The module defines [_bot_depth]; nothing binds [_dot_depth] or [bext]. *)
Lemma load_dot_depth : load_global globals "_dot_depth" = Raise (NameError "_dot_depth").
Proof. reflexivity. Qed.

Lemma load_bext : load_global globals "bext" = Raise (NameError "bext").
Proof. reflexivity. Qed.

(** [current_process] is bound, by the import from [multiprocessing], to a
    function. *)
Lemma load_current_process :
  load_global globals "current_process" = Ok (VObject "current_process").
Proof. reflexivity. Qed.

(** A clause anchor cannot be built. *)
Lemma mk_anchor_clause (raw i t : option str) (start : Z) :
  _mk_anchor clause raw i t start = Raise (NameError "_dot_depth").
Proof. reflexivity. Qed.

(** The clause loop raises at its first match. *)
Lemma scan_clause (text : str) (anchors : list Anchor) :
  scan T RE_CLAUSE clause false text anchors
  = match Re.finditer T RE_CLAUSE text with
    | [] => Ok anchors
    | _ :: _ => Raise (NameError "_dot_depth")
    end.
Proof.
  unfold scan. destruct (Re.finditer T RE_CLAUSE text) as [|m ms]; reflexivity.
Qed.

(** The numbered-title loop raises at its first match: the pattern has no
    group [kind]. *)
Lemma scan_numtitle (text : str) (anchors : list Anchor) :
  scan T RE_NUM_TITLE numtitle false text anchors
  = match Re.finditer T RE_NUM_TITLE text with
    | [] => Ok anchors
    | _ :: _ => Raise (IndexError "no such group")
    end.
Proof.
  unfold scan. destruct (Re.finditer T RE_NUM_TITLE text) as [|m ms]; reflexivity.
Qed.

(** C7 (the code departs from the claim). [find_anchors] returns no anchor
    list for a text in which the clause pattern or the numbered-title
    pattern matches: it raises. *)
Theorem find_anchors_raises_on_numbered (text : str) :
  Re.finditer T RE_CLAUSE text <> [] \/ Re.finditer T RE_NUM_TITLE text <> [] ->
  exists e, find_anchors T text = Raise e.
Proof.
  intros H. unfold find_anchors.
  destruct (scan T RE_SECTION section false text []) as [a1|e]; [|eauto].
  cbn [bind].
  destruct (scan T RE_APPENDIX appendix true text a1) as [a2|e]; [|eauto].
  cbn [bind]. rewrite scan_clause.
  destruct (Re.finditer T RE_CLAUSE text) as [|m ms]; [|eauto].
  cbn [bind]. rewrite scan_numtitle.
  destruct (Re.finditer T RE_NUM_TITLE text) as [|m ms]; [|eauto].
  destruct H as [H|H]; contradiction.
Qed.

(** The other four kinds of anchor can be built from an identifier. *)
Lemma mk_anchor_returns (k : kind) (raw t : option str) (i : str) (start : Z) :
  k <> clause -> k <> numtitle ->
  exists a, _mk_anchor k raw (Some i) t start = Ok a.
Proof.
  intros Hc Hn. destruct k; try contradiction; cbn; eauto.
Qed.

(** Their loops return, given that every match binds the group [id] or the
    loop supplies a default for it. *)
Lemma collect_returns (P : Re.pattern) (k : kind) (id_default : bool) (text : str)
    (ms : list Re.match_) (anchors : list Anchor) :
  k <> clause -> k <> numtitle ->
  existsb (String.eqb "kind") (Re.group_names (Re.re P)) = true ->
  existsb (String.eqb "id") (Re.group_names (Re.re P)) = true ->
  existsb (String.eqb "title") (Re.group_names (Re.re P)) = true ->
  id_default = true \/ Forall (fun m => Re.binds "id" (Re.m_groups m) = true) ms ->
  exists out, collect P k id_default text ms anchors = Ok out.
Proof.
  intros Hc Hn Hkind Hid Htitle Hb. revert anchors.
  induction ms as [|m ms IH]; intros anchors; cbn [collect]; [eauto|].
  destruct (group_defined P text "kind" m Hkind) as [raw ->].
  destruct (group_defined P text "title" m Htitle) as [t Ht].
  assert (Hi : exists i : str,
             (do i0 <- Re.group P text m "id";
              Ok (if id_default
                  then match i0 with Some (_ :: _) => i0 | _ => Some [] end
                  else i0)) = Ok (@Some str i)).
  { destruct Hb as [->|Hall].
    - destruct (group_defined P text "id" m Hid) as [[[|c v]|] ->]; cbn [bind]; eauto.
    - inversion Hall as [|? ? Hm _]; subst.
      destruct (group_bound P text "id" m Hid Hm) as [v ->]. cbn [bind].
      destruct id_default; [destruct v|]; eauto. }
  destruct Hi as [i Hi].
  destruct (mk_anchor_returns k raw t i (Z.of_nat (Re.m_start m)) Hc Hn) as [a Ha].
  cbn [bind].
  destruct (Re.group P text m "id") as [i0|]; [|discriminate]. cbn [bind] in Hi |- *.
  rewrite Ht. cbn [bind]. injection Hi as Hi. rewrite Hi, Ha. cbn [bind].
  apply IH. destruct Hb as [Hb|Hall]; [left; exact Hb|right].
  inversion Hall; assumption.
Qed.

(** X20. [find_anchors] returns when neither the clause pattern nor the
    numbered-title pattern matches: it raises exactly on the texts of C7's
    theorem. *)
Lemma find_anchors_returns (text : str) :
  Re.finditer T RE_CLAUSE text = [] ->
  Re.finditer T RE_NUM_TITLE text = [] ->
  exists anchors, find_anchors T text = Ok anchors.
Proof.
  intros Hcl Hnt. unfold find_anchors.
  destruct (collect_returns RE_SECTION section false text (Re.finditer T RE_SECTION text) [])
    as [a1 H1]; try discriminate; try reflexivity.
  { right. apply finditer_binds. reflexivity. }
  unfold scan at 1. rewrite H1. cbn [bind].
  destruct (collect_returns RE_APPENDIX appendix true text (Re.finditer T RE_APPENDIX text) a1)
    as [a2 H2]; try discriminate; try reflexivity.
  { left. reflexivity. }
  unfold scan at 1. rewrite H2. cbn [bind].
  rewrite scan_clause, Hcl. cbn [bind]. rewrite scan_numtitle, Hnt. cbn [bind].
  destruct (collect_returns RE_TABLE table false text (Re.finditer T RE_TABLE text) a2)
    as [a3 H3]; try discriminate; try reflexivity.
  { right. apply finditer_binds. reflexivity. }
  unfold scan at 1. rewrite H3. cbn [bind].
  destruct (collect_returns RE_FIG figure false text (Re.finditer T RE_FIG text) a3)
    as [a4 H4]; try discriminate; try reflexivity.
  { right. apply finditer_binds. reflexivity. }
  unfold scan at 1. rewrite H4. cbn [bind]. eauto.
Qed.

(** [set_ends] chains the ends. *)
Lemma set_ends_chained (text_len : Z) (l : list Anchor) :
  chained text_len (set_ends text_len l).
Proof.
  induction l as [|a rest IH]; [exact I|].
  cbn [set_ends chained]. split; [|exact IH].
  destruct rest; reflexivity.
Qed.

(** X21. On the texts for which [find_anchors] returns, the ends are
    chained: each anchor ends where the next one starts, and the last one at
    the length of the text. *)
Lemma find_anchors_chained (text : str) (anchors : list Anchor) :
  find_anchors T text = Ok anchors -> chained (len text) anchors.
Proof.
  unfold find_anchors. intros H.
  repeat match type of H with
         | bind ?m _ = Ok _ => destruct m; cbn [bind] in H; [|discriminate]
         end.
  injection H as <-. apply set_ends_chained.
Qed.

(** The anchors are sorted by [start] and stay so: de-duplication only
    drops anchors, and [set_ends] changes no [start]. *)
Lemma ascending_sublist (l k : list Z) : sublist l k -> ascending k -> ascending l.
Proof.
  induction 1 as [|x l k Hsub IH|x l k Hsub IH]; cbn [ascending].
  - trivial.
  - intros [Hall Hk]. split; [|apply IH, Hk].
    clear IH Hk. induction Hsub as [|y l k Hsub IH|y l k Hsub IH].
    + constructor.
    + inversion Hall; subst. constructor; [assumption|apply IH; assumption].
    + inversion Hall; subst. apply IH; assumption.
  - intros [_ Hk]. apply IH, Hk.
Qed.

Lemma sublist_map_start (l k : list Anchor) :
  sublist l k -> sublist (map a_start l) (map a_start k).
Proof.
  induction 1; cbn [map]; [constructor|now constructor|now constructor].
Qed.

Lemma removelast_sublist (l : list Anchor) : sublist (removelast l) l.
Proof.
  induction l as [|a [|b l] IH]; cbn [removelast].
  - constructor.
  - constructor. constructor.
  - constructor. exact IH.
Qed.

Lemma dedup_step_sublist (dedup rest : list Anchor) (a : Anchor) :
  sublist (dedup_step dedup a ++ rest) (dedup ++ a :: rest).
Proof.
  assert (Hkeep : sublist ((dedup ++ [a]) ++ rest) (dedup ++ a :: rest)).
  { rewrite <- app_assoc. reflexivity. }
  unfold dedup_step. destruct (last dedup) as [d|]; [|exact Hkeep].
  destruct (_ && _); [|exact Hkeep].
  destruct (_ <? _).
  - rewrite <- app_assoc. apply sublist_app; [apply removelast_sublist|reflexivity].
  - apply sublist_app; [reflexivity|]. apply sublist_cons. reflexivity.
Qed.

Lemma dedup_fold_sublist (rest dedup : list Anchor) :
  sublist (fold_left dedup_step rest dedup) (dedup ++ rest).
Proof.
  revert dedup. induction rest as [|a rest IH]; intros dedup; cbn [fold_left].
  - rewrite app_nil_r. reflexivity.
  - etransitivity; [apply IH|].
    etransitivity; [|apply (dedup_step_sublist dedup rest a)].
    reflexivity.
Qed.

Lemma set_ends_starts (text_len : Z) (l : list Anchor) :
  map a_start (set_ends text_len l) = map a_start l.
Proof.
  induction l as [|a rest IH]; [reflexivity|].
  cbn [set_ends map]. rewrite IH. reflexivity.
Qed.

Lemma insert_by_start_ascending (a : Anchor) (l : list Anchor) :
  ascending (map a_start l) -> ascending (map a_start (insert_by_start a l)).
Proof.
  induction l as [|b rest IH]; cbn [insert_by_start map ascending].
  - intros _. split; [constructor|exact I].
  - intros [Hall Hrest].
    destruct (Z.ltb_spec (a_start a) (a_start b)) as [Hlt|Hge]; cbn [map ascending].
    + split; [|split; assumption].
      constructor; [lia|]. eapply Forall_impl; [exact Hall|]. cbn. intros; lia.
    + split; [|apply IH, Hrest].
      clear IH Hrest. induction rest as [|c rest IHr]; cbn [insert_by_start map].
      * constructor; [exact Hge|constructor].
      * inversion Hall; subst.
        destruct (a_start a <? a_start c); cbn [map].
        -- constructor; [exact Hge|]. constructor; assumption.
        -- constructor; [assumption|]. apply IHr. assumption.
Qed.

Lemma sort_by_start_ascending (l : list Anchor) :
  ascending (map a_start (sort_by_start l)).
Proof.
  unfold sort_by_start.
  assert (H : forall acc, ascending (map a_start acc) ->
                          ascending (map a_start (fold_left (fun acc a => insert_by_start a acc) l acc))).
  { induction l as [|a rest IH]; intros acc Hacc; cbn [fold_left].
    - exact Hacc.
    - apply IH, insert_by_start_ascending, Hacc. }
  apply H. exact I.
Qed.

(** X22. On the texts for which [find_anchors] returns, the anchors are in
    ascending order of [start]. *)
Lemma find_anchors_ascending (text : str) (anchors : list Anchor) :
  find_anchors T text = Ok anchors -> ascending (map a_start anchors).
Proof.
  unfold find_anchors. intros H.
  repeat match type of H with
         | bind ?m _ = Ok _ => destruct m; cbn [bind] in H; [|discriminate]
         end.
  injection H as <-. rewrite set_ends_starts.
  eapply ascending_sublist.
  - apply sublist_map_start, dedup_fold_sublist.
  - cbn [app]. rewrite set_ends_starts. apply sort_by_start_ascending.
Qed.

(** Part of C8 that the code does: with no anchor at or before [pos] the
    lookup returns [None], for any list of anchors. *)
Lemma best_anchor_absent (anchors : list Anchor) (pos : Z) :
  (forall a, In a anchors -> pos < a_start a) ->
  _best_anchor_for_pos anchors (VInt pos) = Ok None.
Proof.
  intros H. destruct anchors as [|a rest]; [reflexivity|].
  unfold _best_anchor_for_pos. cbn [last_not_after int_le bind].
  specialize (H a (or_introl eq_refl)).
  destruct (Z.leb_spec (a_start a) pos); [lia|]. reflexivity.
Qed.

(** With a position that is not an [int] the lookup raises at its first
    comparison. *)
Lemma best_anchor_type_error (a : Anchor) (anchors : list Anchor) (name : string) :
  _best_anchor_for_pos (a :: anchors) (VObject name)
  = Raise (TypeError "'<=' not supported between instances of 'int' and another type").
Proof. reflexivity. Qed.

(** C8 (the code departs from the claim). Whenever the text has at least
    one anchor, [annotate_chunks_with_sections] gives the first chunk no
    label, not even [None]: the position it looks up is the function
    [current_process], and the lookup raises [TypeError]. *)
Theorem annotate_raises_with_anchors (text : str) (a : Anchor) (anchors : list Anchor)
    (ch : str) (chunks : list str) :
  find_anchors T text = Ok (a :: anchors) ->
  annotate_chunks_with_sections T text (ch :: chunks)
  = Raise (TypeError "'<=' not supported between instances of 'int' and another type").
Proof.
  intros H. unfold annotate_chunks_with_sections. rewrite H. reflexivity.
Qed.

End StructureParserProperties.

Lemma find_anchors_raises_on_numbered_witness :
  exists e, StructureParser.find_anchors Lib.basic StructureParser.clause_text = Py.Raise e.
Proof.
  apply (find_anchors_raises_on_numbered Lib.basic StructureParser.clause_text).
  left. vm_compute. discriminate.
Defined.

(** The exceptions on the two texts. *)
Lemma find_anchors_clause_text :
  StructureParser.find_anchors Lib.basic StructureParser.clause_text
  = Py.Raise (Py.NameError "_dot_depth").
Proof. vm_compute. reflexivity. Qed.

Lemma find_anchors_numtitle_text :
  StructureParser.find_anchors Lib.basic StructureParser.numtitle_text
  = Py.Raise (Py.IndexError "no such group").
Proof. vm_compute. reflexivity. Qed.

(** On a text with section headings only, [find_anchors] returns: two
    section anchors with ids 1 and 2, the first ending where the second
    starts and the second at the end of the text. *)
Lemma find_anchors_scenario3 :
  match StructureParser.find_anchors Lib.basic StructureParser.scenario3_text with
  | Py.Ok l =>
      map (fun a => (StructureParser.a_kind a, StructureParser.a_id a,
                     StructureParser.a_start a, StructureParser.a_end a)) l
      = [(StructureParser.section, Py.u "1", 0, 30);
         (StructureParser.section, Py.u "2", 30, 47)]
  | Py.Raise _ => False
  end.
Proof. vm_compute. reflexivity. Qed.

(** In scenario 4 the only anchor starts at offset 4 and the chunk at 0. *)
Lemma scenario4_anchor_starts :
  option_map (map StructureParser.a_start)
    (match StructureParser.find_anchors Lib.basic StructureParser.scenario4_text with
     | Py.Ok l => Some l
     | Py.Raise _ => None
     end) = Some [4].
Proof. vm_compute. reflexivity. Qed.

Lemma annotate_raises_with_anchors_witness :
  StructureParser.annotate_chunks_with_sections Lib.basic StructureParser.scenario4_text
    StructureParser.scenario4_chunks
  = Py.Raise (Py.TypeError "'<=' not supported between instances of 'int' and another type").
Proof.
  unfold StructureParser.scenario4_chunks.
  eapply (annotate_raises_with_anchors Lib.basic StructureParser.scenario4_text).
  vm_compute. reflexivity.
Defined.

(** The lookup also raises when an anchor is found: its second loop reads
    [bext]. *)
Lemma best_anchor_found_raises (a : StructureParser.Anchor) (pos : Z) :
  StructureParser.a_start a <= pos ->
  StructureParser.a_kind a = StructureParser.section ->
  StructureParser._best_anchor_for_pos [a] (Py.VInt pos) = Py.Raise (Py.NameError "bext").
Proof.
  intros Hle Hk. unfold StructureParser._best_anchor_for_pos.
  cbn [StructureParser.last_not_after Py.int_le Py.bind].
  destruct (Z.leb_spec (StructureParser.a_start a) pos); [|lia].
  cbn [rev app StructureParser.refine Py.int_gt Py.int_le Py.bind].
  destruct (Z.ltb_spec pos (StructureParser.a_start a)); [lia|].
  rewrite Hk. cbn [StructureParser.kind_eqb orb].
  destruct (Z.leb_spec (StructureParser.a_start a) pos); [|lia].
  destruct (Z.leb_spec (StructureParser.a_start a) (StructureParser.a_start a)); [|lia].
  reflexivity.
Qed.

(** ** The segmenter *)

Section SegmenterProperties.

Import Py Segmenter.

Variable T : Lib.tables.

(** Neither [ens] nor [rigth] is bound by the module or the builtins. *)
Lemma load_ens : load_global globals "ens" = Raise (NameError "ens").
Proof. reflexivity. Qed.

Lemma load_rigth : load_global globals "rigth" = Raise (NameError "rigth").
Proof. reflexivity. Qed.

(** An instance of [SegmentConfig] has no attribute [prefet_headings]. *)
Lemma getattr_prefet_headings (cfg : SegmentConfig) :
  getattr_truth cfg "prefet_headings" = Raise (AttributeError "SegmentConfig" "prefet_headings").
Proof. reflexivity. Qed.

(** The sentence loop leaves [best] untouched while every sentence is
    shorter than [min_len], and raises at the first one that is not. *)
Lemma sentence_loop_spec (cfg : SegmentConfig) (target : Z) (sents : list str)
    (best best_dist : Z) :
  sentence_loop cfg target sents 0 best best_dist
  = if existsb (long_sentence cfg) sents then Raise (NameError "ens")
    else Ok (best, best_dist).
Proof.
  induction sents as [|s rest IH]; [reflexivity|].
  cbn [sentence_loop existsb]. unfold long_sentence at 1.
  replace (0 + len s) with (len s) by lia.
  destruct (Z.ltb_spec (len s) (min_len cfg)) as [Hlt|Hge].
  - rewrite IH. destruct (Z.leb_spec (min_len cfg) (len s)); [lia|]. reflexivity.
  - destruct (Z.leb_spec (min_len cfg) (len s)); [|lia].
    rewrite load_ens. reflexivity.
Qed.

(** Part of C6 that the code does: no cut for a buffer within [max_len]. *)
Lemma soft_cut_short (buffer : str) (cfg : SegmentConfig) :
  len buffer <= max_len cfg -> _soft_cut T buffer cfg = Ok (-1).
Proof.
  intros H. unfold _soft_cut.
  destruct (Z.leb_spec (len buffer) (max_len cfg)); [reflexivity|lia].
Qed.

(** C6 (the code departs from the claim). [_soft_cut] reports no cut for a
    buffer of at most [max_len] characters; for every longer buffer it
    returns no offset at all: it raises [NameError] on [ens] at the first
    sentence of at least [min_len] characters, and on [rigth] when there is
    no such sentence. *)
Theorem soft_cut_spec (buffer : str) (cfg : SegmentConfig) :
  _soft_cut T buffer cfg
  = if len buffer <=? max_len cfg then Ok (-1)
    else if existsb (long_sentence cfg) (_split_sentences T buffer)
         then Raise (NameError "ens")
         else Raise (NameError "rigth").
Proof.
  unfold _soft_cut.
  destruct (len buffer <=? max_len cfg); [reflexivity|].
  rewrite sentence_loop_spec.
  destruct (existsb (long_sentence cfg) (_split_sentences T buffer)); [reflexivity|].
  cbn [bind fst]. change (negb (-1 =? -1)) with false. cbv iota.
  rewrite load_rigth. reflexivity.
Qed.

(** The first loop raises as soon as there is a paragraph. *)
Lemma build_items_spec (paragraphs : list str) (items : list (str * bool)) :
  build_items T paragraphs None items
  = match paragraphs with
    | [] => Ok items
    | _ :: _ => Raise (UnboundLocalError "p")
    end.
Proof. destruct paragraphs; reflexivity. Qed.

(** What [chunk_text_with_spans] does, by the number of paragraphs. *)
Lemma chunk_text_with_spans_cases (text : str) (cfg : SegmentConfig) :
  chunk_text_with_spans T text cfg
  = match _split_paragraphs T text with
    | [] => Ok None
    | _ :: _ => Raise (UnboundLocalError "p")
    end.
Proof.
  unfold chunk_text_with_spans. rewrite build_items_spec.
  destruct (_split_paragraphs T text); reflexivity.
Qed.

(** C2 (the code departs from the claim). [chunk_text_with_spans] returns no
    chunk list for any text: with at least one paragraph it raises
    [UnboundLocalError] on [p] in its first loop, and with none it returns
    [None]; [chunk_text] raises in both cases. There are no chunks whose
    concatenation could be compared with the text. *)
Theorem chunk_text_with_spans_no_chunks (text : str) (cfg : SegmentConfig) :
  (chunk_text_with_spans T text cfg = Ok None
   \/ chunk_text_with_spans T text cfg = Raise (UnboundLocalError "p"))
  /\ exists e, chunk_text T text cfg = Raise e.
Proof.
  unfold chunk_text. rewrite chunk_text_with_spans_cases.
  destruct (_split_paragraphs T text); split; eauto.
Qed.

(** The empty text has no paragraph. *)
Lemma split_paragraphs_empty : _split_paragraphs T [] = [].
Proof. reflexivity. Qed.

(** A text of 1201 letters [a] is one paragraph. *)
Lemma split_paragraphs_oversized :
  _split_paragraphs T (repeat 97 1201) = [repeat 97 1201].
Proof. vm_compute. reflexivity. Qed.

(** C3 (the code departs from the claim). For the empty text
    [chunk_text_with_spans] returns [None], not a pair of empty lists, and
    [chunk_text] fails to unpack it; for a single paragraph of 1201
    characters without any cut point it raises [UnboundLocalError] instead
    of returning one oversized chunk. *)
Theorem chunk_text_with_spans_degenerate (cfg : SegmentConfig) :
  chunk_text_with_spans T [] cfg = Ok None
  /\ chunk_text T [] cfg = Raise (TypeError "cannot unpack non-iterable NoneType object")
  /\ chunk_text_with_spans T (repeat 97 1201) cfg = Raise (UnboundLocalError "p").
Proof.
  unfold chunk_text. rewrite !chunk_text_with_spans_cases.
  rewrite split_paragraphs_empty, split_paragraphs_oversized.
  split; [|split]; reflexivity.
Qed.

End SegmenterProperties.

(** The two ways [_soft_cut] fails on a buffer longer than [max_len]. *)
Lemma soft_cut_examples :
  Segmenter._soft_cut Lib.basic Segmenter.one_word_buffer Segmenter.default_config
  = Py.Raise (Py.NameError "ens")
  /\ Segmenter._soft_cut Lib.basic Segmenter.short_sentences_buffer Segmenter.default_config
     = Py.Raise (Py.NameError "rigth").
Proof. split; vm_compute; reflexivity. Qed.

(** ** The page mapper *)

Section PageMapperProperties.

Import Py Segmenter.

Implicit Types (pm : list (gmap string Z)) (spans : list (Z * Z)).

(** The loop computes the cumulative ranges. *)
Lemma build_cutoffs_from (pre rest : list (gmap string Z)) (acc : list (Z * Z * Z)) :
  length acc = length pre ->
  build_cutoffs rest (total_chars pre) acc
  = acc ++ imap (fun i p => cumulative_range (pre ++ rest) (length pre + i) p) rest.
Proof.
  revert pre acc. induction rest as [|p rest IH]; intros pre acc Hlen.
  - simpl. now rewrite app_nil_r.
  - cbn [build_cutoffs imap].
    assert (Hsum : total_chars pre + default 0 (p !! "chars"%string) = total_chars (pre ++ [p])).
    { clear. induction pre as [|q pre IHp]; simpl.
      - unfold chars_of. lia.
      - rewrite <- IHp. lia. }
    rewrite Hsum.
    rewrite (IH (pre ++ [p])) by (rewrite !length_app; simpl; lia).
    rewrite <- app_assoc. f_equal. cbn [app]. f_equal.
    + unfold cumulative_range, page_number, chars_of, len.
      rewrite Nat.add_0_r, Hlen.
      rewrite take_app_length.
      rewrite <- Hsum. reflexivity.
    + apply imap_ext. intros i q _. cbn.
      rewrite <- app_assoc. cbn [app].
      rewrite length_app. cbn [length].
      replace (length pre + 1 + i)%nat with (length pre + S i)%nat by lia.
      reflexivity.
Qed.

Lemma build_cutoffs_spec pm : build_cutoffs pm 0 [] = cumulative_ranges pm.
Proof.
  exact (build_cutoffs_from [] pm [] eq_refl).
Qed.

(** [min] and [max] of a non-empty list are elements and bounds of it. *)
Lemma fold_min_spec (r : list Z) (x : Z) :
  In (fold_left Z.min r x) (x :: r) /\ forall y, In y (x :: r) -> fold_left Z.min r x <= y.
Proof.
  revert x. induction r as [|z r IH]; intros x; simpl.
  - split; [auto|]. intros y [->|[]]. lia.
  - destruct (IH (Z.min x z)) as [Hin Hle]. split.
    + destruct Hin as [Heq|Hin]; [|auto].
      rewrite <- Heq. destruct (Z.min_spec x z) as [[_ ->]|[_ ->]]; auto.
    + intros y [->|[->|Hy]].
      * specialize (Hle (Z.min y z) (or_introl eq_refl)). lia.
      * specialize (Hle (Z.min x y) (or_introl eq_refl)). lia.
      * apply Hle. right. exact Hy.
Qed.

Lemma fold_max_spec (r : list Z) (x : Z) :
  In (fold_left Z.max r x) (x :: r) /\ forall y, In y (x :: r) -> y <= fold_left Z.max r x.
Proof.
  revert x. induction r as [|z r IH]; intros x; simpl.
  - split; [auto|]. intros y [->|[]]. lia.
  - destruct (IH (Z.max x z)) as [Hin Hle]. split.
    + destruct Hin as [Heq|Hin]; [|auto].
      rewrite <- Heq. destruct (Z.max_spec x z) as [[_ ->]|[_ ->]]; auto.
    + intros y [->|[->|Hy]].
      * specialize (Hle (Z.max y z) (or_introl eq_refl)). lia.
      * specialize (Hle (Z.max x y) (or_introl eq_refl)). lia.
      * apply Hle. right. exact Hy.
Qed.

(** The pages the comprehension keeps are the overlapping pages. *)
Lemma pages_hit_spec pm (span : Z * Z) (pg : Z) :
  In pg (pages_hit (cumulative_ranges pm) span) <-> overlapping_page pm span pg.
Proof.
  unfold pages_hit, overlapping_page, overlaps. destruct span as [start end_].
  rewrite in_map_iff. split.
  - intros [c [Hpg Hc]]. apply filter_In in Hc as [Hin Hov].
    exists c. split; [exact Hin|]. split; [|exact Hpg].
    destruct c as [[a b] n]. cbn in *. lia.
  - intros [c [Hin [Hov Hpg]]]. exists c. split; [exact Hpg|].
    apply filter_In. split; [exact Hin|].
    destruct c as [[a b] n]. cbn in *. lia.
Qed.

(** The guard [if pages_hit] keeps [min] and [max] away from the empty
    list: the answer for one span is always defined. *)
Lemma page_range_defined (cutoffs : list (Z * Z * Z)) (span : Z * Z) :
  page_range cutoffs span = Ok (range_of cutoffs span).
Proof.
  unfold page_range, range_of. destruct (pages_hit cutoffs span); reflexivity.
Qed.

Lemma page_ranges_defined (cutoffs : list (Z * Z * Z)) spans (acc : list (option Z * option Z)) :
  page_ranges cutoffs spans acc = Ok (acc ++ map (range_of cutoffs) spans).
Proof.
  revert acc. induction spans as [|sp rest IH]; intros acc; simpl.
  - now rewrite app_nil_r.
  - rewrite page_range_defined. cbn [bind]. rewrite IH, <- app_assoc. reflexivity.
Qed.

(** [approximate_pages] is the map of [range_of] over the spans. *)
Lemma approximate_pages_map pm spans :
  approximate_pages pm spans = Ok (map (range_of (cumulative_ranges pm)) spans).
Proof.
  unfold approximate_pages. destruct pm as [|p pm].
  - f_equal. induction spans as [|sp rest IH]; [reflexivity|].
    simpl. rewrite IH. destruct sp. reflexivity.
  - rewrite page_ranges_defined, build_cutoffs_spec. reflexivity.
Qed.

Lemma range_of_as_specified pm (span : Z * Z) :
  range_as_specified pm span (range_of (cumulative_ranges pm) span).
Proof.
  unfold range_of, range_as_specified.
  destruct (pages_hit (cumulative_ranges pm) span) as [|x r] eqn:Hhits.
  - intros pg Hpg. apply pages_hit_spec in Hpg. rewrite Hhits in Hpg. exact Hpg.
  - destruct (fold_min_spec r x) as [Hmin Hlo], (fold_max_spec r x) as [Hmax Hhi].
    rewrite <- Hhits in Hmin, Hmax, Hlo, Hhi.
    split; [apply pages_hit_spec, Hmin|]. split; [apply pages_hit_spec, Hmax|].
    intros pg Hpg. apply pages_hit_spec in Hpg. split; [apply Hlo|apply Hhi]; exact Hpg.
Qed.

(** C9. [approximate_pages] returns, for each span in turn, the least and
    the greatest number among the pages whose cumulative character range
    overlaps the span, and [(None, None)] when no page does, which includes
    the case of an empty [pages_meta]; on the two pages and the span of
    scenario 5 the result is [[(1, 2)]]. *)
Theorem approximate_pages_as_specified pm spans :
  (exists res, approximate_pages pm spans = Ok res
               /\ Forall2 (range_as_specified pm) spans res)
  /\ (forall span, range_as_specified [] span (None, None))
  /\ approximate_pages scenario5_pages scenario5_spans = Ok [(Some 1, Some 2)].
Proof.
  split; [|split].
  - exists (map (range_of (cumulative_ranges pm)) spans). split.
    + apply approximate_pages_map.
    + induction spans as [|sp rest IH]; simpl; constructor.
      * apply range_of_as_specified.
      * exact IH.
  - intros span pg [c [Hin _]]. exact Hin.
  - vm_compute. reflexivity.
Qed.

(** The cases C10 names. An empty [pages_meta] answers [(None, None)] for
    every span, and an empty list of spans gives an empty result. *)
Lemma approximate_pages_no_pages spans :
  approximate_pages [] spans = Ok (map (fun _ => (None, None)) spans).
Proof. reflexivity. Qed.

Lemma approximate_pages_no_spans pm : approximate_pages pm [] = Ok [].
Proof. rewrite approximate_pages_map. reflexivity. Qed.

(** Lists of descriptors that read the same give the same answers. *)
Lemma build_cutoffs_same (l l' : list (gmap string Z)) (s : Z) (acc : list (Z * Z * Z)) :
  same_pages (length acc) l l' -> build_cutoffs l s acc = build_cutoffs l' s acc.
Proof.
  revert l' s acc. induction l as [|p r IH]; intros [|q r'] s acc H; try contradiction.
  - reflexivity.
  - cbn [same_pages] in H. destruct H as [Hc [Hp Hr]].
    cbn [build_cutoffs]. unfold chars_of in Hc. unfold page_number in Hp.
    rewrite Hc. unfold len. rewrite Hp.
    apply IH. rewrite length_app. cbn [length].
    replace (length acc + 1)%nat with (S (length acc)) by lia. exact Hr.
Qed.

Lemma approximate_pages_same pm pm' spans :
  same_pages 0 pm pm' -> approximate_pages pm spans = approximate_pages pm' spans.
Proof.
  intros H. unfold approximate_pages.
  destruct pm as [|p r], pm' as [|q r']; try contradiction; [reflexivity|].
  rewrite (build_cutoffs_same (p :: r) (q :: r') 0 []) by exact H. reflexivity.
Qed.

Lemma same_pages_middle (i : nat) (pre post : list (gmap string Z)) (p q : gmap string Z) :
  chars_of p = chars_of q ->
  page_number (i + length pre) p = page_number (i + length pre) q ->
  same_pages i (pre ++ p :: post) (pre ++ q :: post).
Proof.
  assert (Hrefl : forall l j, same_pages j l l).
  { induction l as [|x l IH]; intros j; cbn [same_pages]; auto. }
  revert i. induction pre as [|x pre IH]; intros i Hc Hp; cbn [app same_pages length] in *.
  - rewrite Nat.add_0_r in Hp. auto.
  - split; [reflexivity|]. split; [reflexivity|].
    apply IH; [exact Hc|]. replace (S i + length pre)%nat with (i + S (length pre))%nat by lia.
    exact Hp.
Qed.

(** A descriptor that lacks [chars] is read as one with [chars] 0, and one
    that lacks [page] as one numbered by its position. *)
Lemma approximate_pages_default_chars (pre post : list (gmap string Z)) (p : gmap string Z)
    spans :
  p !! "chars"%string = None ->
  approximate_pages (pre ++ p :: post) spans
  = approximate_pages (pre ++ <["chars"%string := 0]> p :: post) spans.
Proof.
  intros H. apply approximate_pages_same, same_pages_middle.
  - unfold chars_of. rewrite H, lookup_insert_eq. reflexivity.
  - unfold page_number. rewrite lookup_insert_ne by discriminate. reflexivity.
Qed.

Lemma approximate_pages_default_page (pre post : list (gmap string Z)) (p : gmap string Z)
    spans :
  p !! "page"%string = None ->
  approximate_pages (pre ++ p :: post) spans
  = approximate_pages (pre ++ <["page"%string := len pre + 1]> p :: post) spans.
Proof.
  intros H. apply approximate_pages_same, same_pages_middle.
  - unfold chars_of. rewrite lookup_insert_ne by discriminate. reflexivity.
  - unfold page_number, len. cbn [Nat.add]. rewrite H, lookup_insert_eq.
    cbn [default from_option id]. change (0 =? 0) with true. cbv iota.
    destruct (Z.eqb_spec (Z.of_nat (length pre) + 1) 0); [lia|]. reflexivity.
Qed.

(** C10. For every [pages_meta] and every list of spans [approximate_pages]
    returns (it raises nothing); its result has one pair per span, and the
    pair at index [i] is the answer for the span at index [i]: the least and
    the greatest number of the pages that overlap it, or [(None, None)].
    Without pages every pair is [(None, None)], and without spans the
    result is empty. A descriptor that lacks [chars] is read as one with
    [chars] 0, and one that lacks [page] as one numbered by its position,
    counted from 1. *)
Theorem approximate_pages_total pm spans :
  (exists res, approximate_pages pm spans = Ok res
     /\ length res = length spans
     /\ forall (i : nat) (sp : Z * Z), spans !! i = Some sp ->
          exists r, res !! i = Some r
                    /\ range_as_specified pm sp r
                    /\ approximate_pages pm [sp] = Ok [r])
  /\ approximate_pages [] spans = Ok (map (fun _ => (None, None)) spans)
  /\ approximate_pages pm [] = Ok []
  /\ (forall (pre post : list (gmap string Z)) (p : gmap string Z),
        p !! "chars"%string = None ->
        approximate_pages (pre ++ p :: post) spans
        = approximate_pages (pre ++ <["chars"%string := 0]> p :: post) spans)
  /\ (forall (pre post : list (gmap string Z)) (p : gmap string Z),
        p !! "page"%string = None ->
        approximate_pages (pre ++ p :: post) spans
        = approximate_pages
            (pre ++ <["page"%string := Z.of_nat (length pre) + 1]> p :: post) spans)
  /\ approximate_pages [ {[ "chars"%string := 5 ]} ] [(0, 1)] = Ok [(Some 1, Some 1)]
  /\ approximate_pages [ {[ "page"%string := 7 ]}; {[ "chars"%string := 5 ]} ] [(0, 1)]
     = Ok [(Some 2, Some 2)].
Proof.
  split; [|split; [|split; [|split; [|split; [|split]]]]].
  - exists (map (range_of (cumulative_ranges pm)) spans). split; [|split].
    + apply approximate_pages_map.
    + apply length_map.
    + intros i sp Hi. exists (range_of (cumulative_ranges pm) sp). split; [|split].
      * rewrite list_lookup_fmap, Hi. reflexivity.
      * apply range_of_as_specified.
      * rewrite approximate_pages_map. reflexivity.
  - apply approximate_pages_no_pages.
  - apply approximate_pages_no_spans.
  - intros pre post p H. apply approximate_pages_default_chars, H.
  - intros pre post p H. apply approximate_pages_default_page, H.
  - vm_compute. reflexivity.
  - vm_compute. reflexivity.
Qed.

(** A descriptor without [chars] counts no character, and one without
    [page] (or with page 0) is numbered by its position. *)
Lemma missing_chars (p : gmap string Z) :
  p !! "chars"%string = None -> chars_of p = 0.
Proof. intros H. unfold chars_of. now rewrite H. Qed.

Lemma missing_page (i : nat) (p : gmap string Z) :
  p !! "page"%string = None -> page_number i p = Z.of_nat i + 1.
Proof. intros H. unfold page_number. now rewrite H. Qed.

Lemma approximate_pages_missing_keys :
  approximate_pages [ {[ "chars"%string := 100 ]}; ∅; {[ "chars"%string := 5 ]} ]
                    [(90, 120); (0, 1); (100, 105); (200, 300)]
  = Ok [(Some 1, Some 3); (Some 1, Some 1); (Some 3, Some 3); (None, None)].
Proof. vm_compute. reflexivity. Qed.

End PageMapperProperties.

(** * Further properties *)

(** ** Strings *)

Section StringProperties.

Import Py.

Lemma lstrip_suffix (s : str) :
  exists pre, s = pre ++ lstrip s /\ forallb isspace pre = true.
Proof.
  induction s as [|c r IH]; [exists []; auto|].
  cbn [lstrip]. destruct (isspace c) eqn:E.
  - destruct IH as (pre & Heq & Hpre). exists (c :: pre). split.
    + cbn [app]. congruence.
    + cbn [forallb]. rewrite E. exact Hpre.
  - exists []. auto.
Qed.

Lemma lstrip_head (s : str) (c : Z) : head (lstrip s) = Some c -> isspace c = false.
Proof.
  induction s as [|x r IH]; [discriminate|].
  cbn [lstrip]. destruct (isspace x) eqn:E; [exact IH|].
  cbn. intros [= <-]. exact E.
Qed.

Lemma rstrip_prefix (s : str) :
  exists post, s = rstrip s ++ post /\ forallb isspace post = true.
Proof.
  unfold rstrip. destruct (lstrip_suffix (rev s)) as (pre & Heq & Hpre).
  exists (rev pre). split.
  - rewrite <- rev_app_distr, <- Heq, rev_involutive. reflexivity.
  - rewrite forallb_forall in Hpre |- *. intros x Hx. apply Hpre.
    apply in_rev. exact Hx.
Qed.

Lemma last_rev_head (s : str) : last (rev s) = head s.
Proof.
  destruct s as [|c r]; [reflexivity|]. cbn [rev head]. apply last_snoc.
Qed.

Lemma strip_trimmed (s : str) : trimmed (strip s).
Proof.
  unfold strip, rstrip. set (t := lstrip s).
  destruct (lstrip_suffix (rev t)) as (pre & Heq & Hpre).
  split; intros c Hc.
  - assert (Ht : t = rev (lstrip (rev t)) ++ rev pre).
    { rewrite <- rev_app_distr, <- Heq, rev_involutive. reflexivity. }
    destruct (rev (lstrip (rev t))) as [|x u]; [discriminate|].
    cbn in Hc. injection Hc as ->.
    apply (lstrip_head s). fold t. rewrite Ht. reflexivity.
  - rewrite last_rev_head in Hc. eapply lstrip_head, Hc.
Qed.

(** [strip] changes nothing on a trimmed [str]. *)
Lemma lstrip_id (s : str) :
  (forall c, head s = Some c -> isspace c = false) -> lstrip s = s.
Proof.
  destruct s as [|c r]; [reflexivity|]. intros H. cbn [lstrip].
  rewrite (H c eq_refl). reflexivity.
Qed.

Lemma strip_of_trimmed (s : str) : trimmed s -> strip s = s.
Proof.
  intros [Hh Hl]. unfold strip, rstrip. rewrite (lstrip_id s Hh).
  rewrite lstrip_id; [apply rev_involutive|].
  intros c Hc. apply Hl. rewrite <- (rev_involutive s), last_rev_head. exact Hc.
Qed.

Lemma strip_idempotent (s : str) : strip (strip s) = strip s.
Proof. apply strip_of_trimmed, strip_trimmed. Qed.

(** [strip] keeps a property of every code point. *)
Lemma lstrip_Forall (Q : Z -> Prop) (s : str) : Forall Q s -> Forall Q (lstrip s).
Proof.
  induction 1 as [|c r Hc Hr IH]; [constructor|].
  cbn [lstrip]. destruct (isspace c); [exact IH|constructor; assumption].
Qed.

Lemma strip_Forall (Q : Z -> Prop) (s : str) : Forall Q s -> Forall Q (strip s).
Proof.
  intros H. unfold strip, rstrip.
  apply Forall_rev, lstrip_Forall, Forall_rev, lstrip_Forall, H.
Qed.

End StringProperties.

(** ** Substitution and splitting keep what every code point satisfies *)

Section KeptProperties.

Import Py.

Variable Q : Z -> Prop.

Lemma substr_Forall (s : str) (a b : nat) : Forall Q s -> Forall Q (Re.substr s a b).
Proof.
  intros H. unfold Re.substr. apply Forall_take, Forall_drop, H.
Qed.

Lemma sub_from_Forall (s : str) (repl : Re.match_ -> str) (ms : list Re.match_) (i : nat) :
  Forall Q s -> (forall m, Forall Q (repl m)) -> Forall Q (Re.sub_from s repl ms i).
Proof.
  intros Hs Hr. revert i. induction ms as [|m ms IH]; intros i; cbn [Re.sub_from].
  - apply Forall_drop, Hs.
  - apply Forall_app. split; [apply substr_Forall, Hs|].
    apply Forall_app. split; [apply Hr|apply IH].
Qed.

Lemma sub_Forall (T : Lib.tables) (P : Re.pattern) (s : str) (repl : Re.match_ -> str) :
  Forall Q s -> (forall m, Forall Q (repl m)) -> Forall Q (Re.sub T P s repl).
Proof. intros Hs Hr. unfold Re.sub. apply sub_from_Forall; assumption. Qed.

(** One step of [splitlines]: at a line boundary the current line is closed
    and the scan goes on after the boundary, which is two code points long
    for [\r\n]. *)
Lemma splitlines_aux_cons (c : Z) (r cur : str) :
  splitlines_aux (c :: r) cur
  = if is_linebreak c
    then rev cur :: splitlines_aux (match c, r with 13, 10 :: r' => r' | _, _ => r end) []
    else splitlines_aux r (c :: cur).
Proof.
  cbn [splitlines_aux]. destruct (is_linebreak c); [|reflexivity].
  destruct c as [|p|p]; try reflexivity.
  do 4 (try (destruct p as [p|p|]; try reflexivity)).
  destruct r as [|d r']; try reflexivity.
  destruct d as [|q|q]; try reflexivity.
  do 4 (try (destruct q as [q|q|]; try reflexivity)).
Qed.

Lemma splitlines_aux_Forall (n : nat) (s cur : str) :
  (length s <= n)%nat ->
  Forall Q s -> Forall Q cur -> Forall (Forall Q) (splitlines_aux s cur).
Proof.
  revert s cur. induction n as [|n IH]; intros s cur Hn Hs Hcur.
  - destruct s; [|cbn in Hn; lia]. cbn.
    destruct cur; constructor; [apply Forall_rev, Hcur|constructor].
  - destruct s as [|c r].
    + cbn. destruct cur; constructor; [apply Forall_rev, Hcur|constructor].
    + rewrite splitlines_aux_cons. inversion Hs as [|? ? Hc Hr]; subst.
      cbn [length] in Hn. destruct (is_linebreak c).
      * constructor; [apply Forall_rev, Hcur|].
        assert (Hrest : forall r0, (length r0 <= n)%nat -> Forall Q r0 ->
                                   Forall (Forall Q) (splitlines_aux r0 []))
          by (intros; apply IH; [assumption|assumption|constructor]).
        assert (Hr' : forall d r', r = d :: r' -> Forall (Forall Q) (splitlines_aux r' [])).
        { intros d r' ->. inversion Hr; subst. apply Hrest; [cbn [length] in Hn; lia|assumption]. }
        assert (Hr0 : Forall (Forall Q) (splitlines_aux r [])) by (apply Hrest; [lia|exact Hr]).
        destruct c as [|p|p]; try exact Hr0.
        do 4 (try (destruct p as [p|p|]; try exact Hr0)).
        destruct r as [|d r']; try exact Hr0.
        destruct d as [|q|q]; try exact Hr0.
        do 4 (try (destruct q as [q|q|]; try exact Hr0)).
        eapply Hr'. reflexivity.
      * apply IH; [lia|exact Hr|constructor; assumption].
Qed.

Lemma splitlines_Forall (s : str) : Forall Q s -> Forall (Forall Q) (splitlines s).
Proof.
  intros H. unfold splitlines. eapply splitlines_aux_Forall; [reflexivity|exact H|constructor].
Qed.

Lemma join_Forall (sep : str) (parts : list str) :
  Forall Q sep -> Forall (Forall Q) parts -> Forall Q (join sep parts).
Proof.
  intros Hsep. induction 1 as [|x rest Hx Hrest IH]; [constructor|].
  cbn [join]. destruct rest as [|y rest']; [exact Hx|].
  apply Forall_app. split; [exact Hx|]. apply Forall_app. split; [exact Hsep|exact IH].
Qed.

Lemma replace_char_Forall (old : Z) (new s : str) :
  Forall Q new -> Forall Q s -> Forall Q (replace_char old new s).
Proof.
  intros Hnew. induction 1 as [|c r Hc Hr IH]; [constructor|].
  unfold replace_char. cbn [flat_map]. apply Forall_app. split; [|exact IH].
  destruct (c =? old); [exact Hnew|constructor; [exact Hc|constructor]].
Qed.

End KeptProperties.

(** The round trip of [split] and [join] on one separator. *)
Lemma join_split_char (sep : Z) (s cur : Py.str) :
  Py.join [sep] (Py.split_char sep s cur) = rev cur ++ s.
Proof.
  revert cur. induction s as [|c r IH]; intros cur; cbn [Py.split_char].
  - cbn. now rewrite app_nil_r.
  - destruct (c =? sep) eqn:E.
    + apply Z.eqb_eq in E as ->.
      assert (Hne : exists x xs, Py.split_char sep r [] = x :: xs).
      { clear. generalize (@nil Z). induction r as [|d r IH]; intros cur; cbn [Py.split_char]; eauto.
        destruct (d =? sep); eauto. }
      destruct Hne as (x & xs & Hx). specialize (IH []). rewrite Hx in IH |- *.
      change (Py.join [sep] (rev cur :: x :: xs))
        with (rev cur ++ [sep] ++ Py.join [sep] (x :: xs)).
      rewrite IH. reflexivity.
    + rewrite IH. cbn [rev]. rewrite <- app_assoc. reflexivity.
Qed.

(** ** More on the normaliser *)

Section NormalizerMore.

Import Py Normalizer.

Variable T : Lib.tables.

Lemma load_windows : load_global globals "windows" = Raise (NameError "windows").
Proof. reflexivity. Qed.

(** The loop of [_soften_inline_newlines] merges nothing: it copies the
    lines or raises. *)
Lemma soften_loop_copies (window : Z) (lines out : list str) :
  soften_loop window lines out = Ok (out ++ lines)
  \/ soften_loop window lines out = Raise (NameError "windows").
Proof.
  revert out. induction lines as [|cur rest IH]; intros out; cbn [soften_loop].
  - left. now rewrite app_nil_r.
  - destruct rest as [|nxt rest']; [left; reflexivity|].
    rewrite load_windows.
    destruct ((0 <? len cur) && (len cur <=? window)); cbn [bind].
    + destruct (0 <? len nxt); cbn [bind]; [right; reflexivity|].
      specialize (IH (out ++ [cur])). rewrite <- app_assoc in IH. exact IH.
    + specialize (IH (out ++ [cur])). rewrite <- app_assoc in IH. exact IH.
Qed.

(** X1. [_soften_inline_newlines] never merges two lines: it returns the
    text unchanged or raises [NameError] on [windows]. *)
Theorem soften_inline_newlines_changes_nothing (text : str) (window : Z) :
  _soften_inline_newlines text window = Ok text
  \/ _soften_inline_newlines text window = Raise (NameError "windows").
Proof.
  unfold _soften_inline_newlines.
  destruct (soften_loop_copies window (split_char NL text []) []) as [-> | ->].
  - left. cbn [bind app]. rewrite join_split_char. reflexivity.
  - right. reflexivity.
Qed.

(** White space is all [strip] removes and all [join] on a newline adds. *)
Lemma nonspace_app (a b : str) : nonspace (a ++ b) = nonspace a ++ nonspace b.
Proof. unfold nonspace. apply List.filter_app. Qed.

Lemma nonspace_spaces (a : str) : forallb isspace a = true -> nonspace a = [].
Proof.
  induction a as [|c r IH]; [reflexivity|]. cbn [forallb nonspace List.filter].
  intros H. apply andb_true_iff in H as [Hc Hr]. rewrite Hc. apply IH, Hr.
Qed.

Lemma nonspace_strip (a : str) : nonspace (strip a) = nonspace a.
Proof.
  unfold strip.
  destruct (lstrip_suffix a) as (pre & Ha & Hpre).
  destruct (rstrip_prefix (lstrip a)) as (post & Hb & Hpost).
  rewrite Ha at 2. rewrite Hb at 2.
  rewrite !nonspace_app, (nonspace_spaces pre Hpre), (nonspace_spaces post Hpost).
  now rewrite app_nil_r.
Qed.

Lemma nonspace_join (parts : list str) :
  nonspace (join [NL] parts) = concat (map nonspace parts).
Proof.
  induction parts as [|x rest IH]; [reflexivity|].
  destruct rest as [|y rest'].
  - cbn. now rewrite app_nil_r.
  - change (join [NL] (x :: y :: rest')) with (x ++ [NL] ++ join [NL] (y :: rest')).
    rewrite !nonspace_app, IH. reflexivity.
Qed.

Lemma quard_loop_nonspace (n : nat) (window : Z) (lines out : list str) :
  (length lines <= n)%nat ->
  concat (map nonspace (quard_loop T window lines out))
  = concat (map nonspace out) ++ concat (map nonspace lines).
Proof.
  revert lines out. induction n as [|n IH]; intros lines out Hn.
  - destruct lines; [|cbn in Hn; lia]. cbn. now rewrite app_nil_r.
  - destruct lines as [|cur rest]; [cbn; now rewrite app_nil_r|].
    cbn [quard_loop]. cbn [length] in Hn.
    destruct rest as [|nxt rest'].
    + rewrite map_app, concat_app. reflexivity.
    + cbn [length] in Hn.
      destruct (_ && _).
      * rewrite IH by lia. rewrite map_app, concat_app. cbn [map concat].
        rewrite nonspace_strip, !nonspace_app. cbn [nonspace List.filter isspace].
        change (nonspace [SP]) with (@nil Z).
        cbn [app]. rewrite !app_nil_r, <- !app_assoc. reflexivity.
      * rewrite IH by (cbn [length]; lia). rewrite map_app, concat_app. cbn [map concat].
        rewrite !app_nil_r, <- !app_assoc. reflexivity.
Qed.

(** X2. [_soffen_inline_newlines_quard] only moves white space: the code
    points of the text that are not white space come out unchanged and in
    the same order. *)
Theorem soffen_quard_keeps_nonspace (text : str) (window : Z) :
  nonspace (_soffen_inline_newlines_quard T text window) = nonspace text.
Proof.
  unfold _soffen_inline_newlines_quard.
  rewrite nonspace_join, (quard_loop_nonspace (length (split_char NL text []))) by reflexivity.
  cbn [map concat app]. rewrite <- nonspace_join, join_split_char. reflexivity.
Qed.

(** When [_soften_inline_newlines] returns, it returns its argument. *)
Lemma soften_returns_text (text out : str) (window : Z) :
  _soften_inline_newlines text window = Ok out -> out = text.
Proof.
  unfold _soften_inline_newlines.
  destruct (soften_loop_copies window (split_char NL text []) []) as [-> | ->];
    cbn [bind app]; [|discriminate].
  rewrite join_split_char. intros [= <-]. reflexivity.
Qed.

(** The stages of [clean] when it returns: the bullet stage was off, the
    lines were filtered, and the last stage is the compaction. *)
Lemma clean_stages (text out : str) (config : option CleanConfig) :
  clean T text config = Ok out ->
  normalize_bullets (effective config) = false
  /\ exists lines,
       _drop_header_footer_lines T (splitlines (before_bullets T (effective config) text))
         (effective config) = Ok lines
       /\ out = collapsed T (join [NL] lines)
                 (collapse_spaces (effective config))
                 (max_consecutive_newlines (effective config)).
Proof.
  unfold clean. set (cfg := effective config).
  fold (before_bullets T cfg text).
  destruct (normalize_bullets cfg) eqn:Hb.
  - cbn. discriminate.
  - cbn [bind]. intros H. split; [reflexivity|].
    destruct (_drop_header_footer_lines T _ cfg) as [lines|] eqn:Hd; [|discriminate].
    cbn [bind] in H. exists lines. split; [reflexivity|].
    destruct (soften_inline_newlines cfg).
    + destruct (_soften_inline_newlines (join [NL] lines) _) as [t|] eqn:Hs; [|discriminate].
      cbn [bind] in H. apply soften_returns_text in Hs as ->.
      apply collapse_returned in H. exact H.
    + cbn [bind] in H. apply collapse_returned in H. exact H.
Qed.

(** The first loop of [_drop_header_footer_lines] counts short lines only. *)
Lemma count_line_short (cfg : CleanConfig) (freq : gmap str Z) (raw : str) :
  counts_short cfg freq -> counts_short cfg (count_line T cfg freq raw).
Proof.
  intros Hinv. unfold count_line.
  destruct (_ || (header_max_len cfg <? len (strip raw))) eqn:E; [exact Hinv|].
  destruct (_ || _ || _); [|exact Hinv].
  apply orb_false_iff in E as [_ E]. apply Z.ltb_ge in E.
  intros k v Hk. apply lookup_insert_Some in Hk as [[<- _]|[_ Hk]]; [exact E|].
  eapply Hinv, Hk.
Qed.

Lemma count_lines_short (cfg : CleanConfig) (lines : list str) (freq : gmap str Z) :
  counts_short cfg freq -> counts_short cfg (fold_left (count_line T cfg) lines freq).
Proof.
  revert freq. induction lines as [|ln rest IH]; intros freq H; cbn [fold_left]; [exact H|].
  apply IH, count_line_short, H.
Qed.

Lemma keep_line_min_repeats (cfg : CleanConfig) (n n' : Z) (extra : list (str -> bool))
    (freq : gmap str Z) (ln : str) :
  1 <= n -> 1 <= n' -> counts_short cfg freq ->
  keep_line T (set_min_repeats n cfg) extra freq ln
  = keep_line T (set_min_repeats n' cfg) extra freq ln.
Proof.
  intros Hn Hn' Hinv. unfold keep_line. cbn [set_min_repeats remove_page_numbers
    remove_headers_footers header_min_repeats header_max_len].
  destruct (strip ln) as [|c r] eqn:Hs; [reflexivity|].
  match goal with
  | |- context [ (n <=? ?v) || ?w ] =>
      assert (Hsame : (n <=? v) || w = (n' <=? v) || w); [|rewrite Hsame; reflexivity]
  end.
  match goal with
  | |- context [ default 0 ?o ] => destruct o as [v|] eqn:Hf
  end.
  - apply Hinv in Hf. apply Z.leb_le in Hf. rewrite Hf, !orb_true_r. reflexivity.
  - cbn [default from_option id].
    destruct (Z.leb_spec n 0), (Z.leb_spec n' 0); first [lia|reflexivity].
Qed.

(** X3. From 1 on, [header_min_repeats] has no effect on the lines
    [_drop_header_footer_lines] keeps: only lines of at most
    [header_max_len] characters are counted, and those are dropped for their
    length alone. *)
Theorem drop_ignores_min_repeats (lines : list str) (cfg : CleanConfig) (n n' : Z) :
  1 <= n -> 1 <= n' ->
  _drop_header_footer_lines T lines (set_min_repeats n cfg)
  = _drop_header_footer_lines T lines (set_min_repeats n' cfg).
Proof.
  intros Hn Hn'. unfold _drop_header_footer_lines.
  cbn [set_min_repeats extra_header_footer_regexes].
  destruct (compile_extra T (extra_header_footer_regexes cfg) []) as [extra|e]; [|reflexivity].
  cbn [bind]. f_equal.
  change (count_line T (set_min_repeats n cfg)) with (count_line T cfg).
  change (count_line T (set_min_repeats n' cfg)) with (count_line T cfg).
  apply List.filter_ext_in. intros ln _.
  apply keep_line_min_repeats; [assumption|assumption|].
  apply count_lines_short. intros k v Hk. rewrite lookup_empty in Hk. discriminate.
Qed.

Lemma filter_sublist (f : str -> bool) (l : list str) : sublist (List.filter f l) l.
Proof.
  induction l as [|x l IH]; cbn [List.filter]; [constructor|].
  destruct (f x); [apply sublist_skip|apply sublist_cons]; exact IH.
Qed.

Lemma filter_blank_kept (f : str -> bool) (l : list str) :
  (forall ln, is_blank ln = true -> f ln = true) ->
  List.filter is_blank (List.filter f l) = List.filter is_blank l.
Proof.
  intros H. induction l as [|x l IH]; [reflexivity|]. cbn [List.filter].
  destruct (f x) eqn:Hf; cbn [List.filter].
  - rewrite IH. reflexivity.
  - destruct (is_blank x) eqn:Hb; [|exact IH]. rewrite (H x Hb) in Hf. discriminate.
Qed.

(** X4. [_drop_header_footer_lines] only drops lines: what it returns is a
    subsequence of its input, and every blank line of the input is in it. *)
Theorem drop_keeps_blank_lines (lines out : list str) (cfg : CleanConfig) :
  _drop_header_footer_lines T lines cfg = Ok out ->
  sublist out lines /\ List.filter is_blank out = List.filter is_blank lines.
Proof.
  unfold _drop_header_footer_lines.
  destruct (compile_extra T (extra_header_footer_regexes cfg) []) as [extra|e]; [|discriminate].
  cbn [bind]. intros [= <-]. split; [apply filter_sublist|].
  apply filter_blank_kept. intros ln Hb. unfold is_blank in Hb. unfold keep_line.
  destruct (strip ln); [reflexivity|discriminate].
Qed.

(** X5. Date lines and table-continuation lines are dropped whatever the
    configuration says: no line [_drop_header_footer_lines] returns is one,
    even with [remove_page_numbers] and [remove_headers_footers] off. *)
Theorem drop_dates_unconditionally (lines out : list str) (cfg : CleanConfig) :
  _drop_header_footer_lines T lines cfg = Ok out ->
  Forall (fun ln => is_blank ln = true
                    \/ (Re.matches T RE_DATE_LINE (strip ln) = false
                        /\ Re.matches T RE_TABLE_CONT (strip ln) = false)) out.
Proof.
  unfold _drop_header_footer_lines.
  destruct (compile_extra T (extra_header_footer_regexes cfg) []) as [extra|e]; [|discriminate].
  cbn [bind]. intros [= <-]. apply Forall_forall. intros ln Hin.
  apply list_elem_of_In, filter_In in Hin as [_ Hk].
  unfold keep_line in Hk. unfold is_blank.
  destruct (strip ln) as [|c r]; [left; reflexivity|right].
  destruct (remove_page_numbers cfg && _); [discriminate|].
  destruct (Re.matches T RE_DATE_LINE (c :: r)); [discriminate|].
  destruct (Re.matches T RE_TABLE_CONT (c :: r)); [discriminate|].
  split; reflexivity.
Qed.

(** Every stage of [clean] builds its text from the code points it is given,
    the newline, the space and the hyphen. *)
Lemma groups_1_2_Forall (Q : Z -> Prop) (text : str) (m : Re.match_) :
  Forall Q text -> Forall Q (groups_1_2 text m).
Proof.
  intros H. unfold groups_1_2. apply Forall_app.
  split; (destruct (List.find _ _) as [[? [? ?]]|]; [apply substr_Forall, H|constructor]).
Qed.

Lemma fix_hyphenation_Forall (Q : Z -> Prop) (passes : nat) (text : str) :
  Forall Q text -> Forall Q (fix_hyphenation_passes T passes text).
Proof.
  revert text. induction passes as [|n IH]; intros text H; cbn [fix_hyphenation_passes];
    [exact H|].
  destruct (str_eqb _ text); [exact H|].
  apply IH, sub_Forall; [exact H|]. intros m. apply groups_1_2_Forall, H.
Qed.

Lemma before_bullets_Forall (Q : Z -> Prop) (cfg : CleanConfig) (text : str) :
  Q 45 ->
  Forall Q (_strip_control_chars T (_normalize_unicode T text)) ->
  Forall Q (before_bullets T cfg text).
Proof.
  intros Hh H. unfold before_bullets.
  assert (H1 : Forall Q (if fix_hyphenation cfg
                         then _fix_hyphenation T (_strip_control_chars T (_normalize_unicode T text))
                         else _strip_control_chars T (_normalize_unicode T text))).
  { destruct (fix_hyphenation cfg); [apply fix_hyphenation_Forall, H|exact H]. }
  destruct (normalize_dashes cfg); [|exact H1].
  unfold _normalize_dashes. apply sub_Forall; [exact H1|].
  intros _. constructor; [exact Hh|constructor].
Qed.

Lemma collapse_Forall (Q : Z -> Prop) (text : str) (cs : bool) (n : Z) :
  Q SP -> Q NL -> Forall Q text -> Forall Q (collapsed T text cs n).
Proof.
  intros Hsp Hnl H. unfold collapsed. apply strip_Forall.
  assert (H1 : Forall Q (if cs
                         then Re.sub T (plain (Re.Rep 2 None (Re.lit1 SP)))
                                (replace_char TAB [SP] text) (fun _ => [SP])
                         else text)).
  { destruct cs; [|exact H]. apply sub_Forall.
    - apply replace_char_Forall; [constructor; [exact Hsp|constructor]|exact H].
    - intros _. constructor; [exact Hsp|constructor]. }
  destruct (1 <=? n); [|exact H1].
  apply sub_Forall; [exact H1|]. intros _.
  induction (Z.to_nat n); cbn [repeat]; constructor; assumption.
Qed.

Lemma clean_Forall (Q : Z -> Prop) (text out : str) (config : option CleanConfig) :
  Q SP -> Q NL -> Q 45 ->
  Forall Q (_strip_control_chars T (_normalize_unicode T text)) ->
  clean T text config = Ok out -> Forall Q out.
Proof.
  intros Hsp Hnl Hh H Hc. apply clean_stages in Hc as (_ & lines & Hd & ->).
  apply collapse_Forall; [assumption|assumption|].
  apply join_Forall; [constructor; [exact Hnl|constructor]|].
  unfold _drop_header_footer_lines in Hd.
  destruct (compile_extra T _ []) as [extra|e]; [|discriminate].
  cbn [bind] in Hd. injection Hd as <-.
  apply Forall_forall. intros ln Hin. apply list_elem_of_In, filter_In in Hin as [Hin _].
  assert (Hl : Forall (Forall Q) (splitlines (before_bullets T (effective config) text)))
    by (apply splitlines_Forall, before_bullets_Forall; assumption).
  rewrite Forall_forall in Hl. apply Hl, list_elem_of_In, Hin.
Qed.

(** X6. Where the tables class neither the space nor the hyphen as a
    control character, a text [clean] returns holds no control character
    other than the newline and the tab. *)
Theorem clean_no_control_chars (text out : str) (config : option CleanConfig) :
  Lib.category_C T SP = false -> Lib.category_C T 45 = false ->
  clean T text config = Ok out ->
  Forall (kept_char T) out.
Proof.
  intros Hsp Hh Hc. eapply clean_Forall; [| | | |exact Hc].
  - right. right. exact Hsp.
  - left. reflexivity.
  - right. right. exact Hh.
  - unfold _strip_control_chars. apply Forall_forall. intros c Hin.
    apply list_elem_of_In, filter_In in Hin as [_ Hk]. unfold kept_char.
    apply orb_true_iff in Hk as [Hk|Hk]; [apply orb_true_iff in Hk as [Hk|Hk]|].
    + left. apply Z.eqb_eq, Hk.
    + right. left. apply Z.eqb_eq, Hk.
    + right. right. apply negb_true_iff, Hk.
Qed.

End NormalizerMore.

(** ** More on the anchor extractor *)

Section StructureParserMore.

Import Py StructureParser.

Variable T : Lib.tables.

(** The two loops of the lookup at an [int] position. *)
Lemma last_not_after_candidate (anchors : list Anchor) (pos : Z) (c0 : option Anchor) :
  last_not_after anchors (VInt pos) c0 = Ok (candidate_at anchors pos c0).
Proof.
  revert c0. induction anchors as [|a rest IH]; intros c0; [reflexivity|].
  cbn [last_not_after candidate_at int_le bind].
  destruct (a_start a <=? pos); [apply IH|reflexivity].
Qed.

Lemma refine_compared (l : list Anchor) (pos : Z) (best : Anchor) :
  refine l (VInt pos) best
  = if existsb (compared best pos) l then Raise (NameError "bext") else Ok best.
Proof.
  induction l as [|a rest IH]; [reflexivity|].
  cbn [refine int_gt int_le bind existsb]. unfold compared at 1.
  destruct (Z.ltb_spec pos (a_start a)) as [Hgt|Hle].
  - destruct (Z.leb_spec (a_start a) pos); [lia|]. cbn [andb orb]. exact IH.
  - destruct (Z.leb_spec (a_start a) pos); [|lia]. cbn [andb].
    destruct (kind_eqb (a_kind a) table || kind_eqb (a_kind a) figure);
      cbn [negb andb orb]; [exact IH|].
    destruct (a_start best <=? a_start a); cbn [orb]; [|exact IH].
    rewrite load_bext. reflexivity.
Qed.

Lemma existsb_rev_eq {A : Type} (f : A -> bool) (l : list A) :
  existsb f (rev l) = existsb f l.
Proof.
  apply eq_true_iff_eq. rewrite !existsb_exists.
  split; intros (x & Hin & Hx); exists x; (split; [|exact Hx]).
  - apply in_rev, Hin.
  - apply in_rev. rewrite rev_involutive. exact Hin.
Qed.

Lemma candidate_at_In (anchors : list Anchor) (pos : Z) (c0 : option Anchor) (c : Anchor) :
  candidate_at anchors pos c0 = Some c ->
  c0 = Some c \/ (In c anchors /\ a_start c <= pos).
Proof.
  revert c0. induction anchors as [|a rest IH]; intros c0; cbn [candidate_at].
  - intros ->. left. reflexivity.
  - destruct (Z.leb_spec (a_start a) pos) as [Hle|Hgt]; [|intros ->; left; reflexivity].
    intros H. destruct (IH _ H) as [[= <-]|[Hin Hs]].
    + right. split; [left; reflexivity|exact Hle].
    + right. split; [right; exact Hin|exact Hs].
Qed.

(** The candidate in terms of the list: the anchors up to it start at or
    before [pos], and the one after it, if any, starts after [pos]; there is
    none when the list is empty or its first anchor starts after [pos]. *)
Lemma candidate_at_spec (anchors : list Anchor) (pos : Z) :
  match candidate_at anchors pos None with
  | Some c =>
      exists pre post, anchors = pre ++ c :: post
        /\ Forall (fun a => a_start a <= pos) (pre ++ [c])
        /\ forall a, head post = Some a -> pos < a_start a
  | None => forall a, head anchors = Some a -> pos < a_start a
  end.
Proof.
  assert (H : forall l (c0 : option Anchor) (done : list Anchor),
             match c0 with
             | Some c => exists pre, done = pre ++ [c]
             | None => done = []
             end ->
             Forall (fun a => a_start a <= pos) done ->
             match candidate_at l pos c0 with
             | Some c =>
                 exists pre post, done ++ l = pre ++ c :: post
                   /\ Forall (fun a => a_start a <= pos) (pre ++ [c])
                   /\ forall a, head post = Some a -> pos < a_start a
             | None => done = [] /\ forall a, head l = Some a -> pos < a_start a
             end).
  { induction l as [|a rest IH]; intros c0 done Hc0 Hdone; cbn [candidate_at].
    - destruct c0 as [c|].
      + destruct Hc0 as [pre ->]. exists pre, []. rewrite <- app_assoc.
        split; [reflexivity|]. split; [exact Hdone|]. intros a [=].
      + split; [exact Hc0|]. intros a [=].
    - destruct (Z.leb_spec (a_start a) pos) as [Hle|Hgt].
      + specialize (IH (Some a) (done ++ [a])).
        destruct (candidate_at rest pos (Some a)) as [c|].
        * destruct IH as (pre & post & Heq & HF & Hp).
          -- exists done. reflexivity.
          -- apply Forall_app. split; [exact Hdone|]. constructor; [exact Hle|constructor].
          -- exists pre, post. rewrite <- app_assoc in Heq. auto.
        * destruct IH as [Hnil _].
          -- exists done. reflexivity.
          -- apply Forall_app. split; [exact Hdone|]. constructor; [exact Hle|constructor].
          -- destruct done; discriminate.
      + destruct c0 as [c|].
        * destruct Hc0 as [pre ->]. exists pre, (a :: rest). rewrite <- app_assoc.
          split; [reflexivity|]. split; [exact Hdone|]. intros x [= <-]. exact Hgt.
        * split; [exact Hc0|]. intros x [= <-]. exact Hgt. }
  specialize (H anchors None [] eq_refl ltac:(constructor)).
  destruct (candidate_at anchors pos None) as [c|]; [exact H|apply H].
Qed.

Lemma best_anchor_cases (anchors : list Anchor) (pos : Z) :
  _best_anchor_for_pos anchors (VInt pos)
  = match candidate_at anchors pos None with
    | None => Ok None
    | Some c =>
        if existsb (compared c pos) anchors then Raise (NameError "bext") else Ok (Some c)
    end.
Proof.
  unfold _best_anchor_for_pos. destruct anchors as [|a0 rest]; [reflexivity|].
  rewrite last_not_after_candidate. cbn [bind].
  destruct (candidate_at (a0 :: rest) pos None) as [c|]; [|reflexivity].
  rewrite refine_compared, existsb_rev_eq.
  destruct (existsb (compared c pos) (a0 :: rest)); reflexivity.
Qed.

Lemma compared_self (c : Anchor) (pos : Z) :
  a_start c <= pos -> compared c pos c = true <-> ~ is_caption c.
Proof.
  intros Hs. unfold compared, is_caption.
  destruct (Z.leb_spec (a_start c) pos); [|lia].
  destruct (Z.leb_spec (a_start c) (a_start c)); [|lia].
  destruct (a_kind c); cbn; split; intros Hc; try reflexivity; try discriminate;
    try (intros [?|?]; discriminate); exfalso; apply Hc; auto.
Qed.

(** X7. The lookup at an [int] position, in full. Its candidate is the last
    anchor of the leading run of anchors that start at or before the
    position; without one it returns [None]. With one, it raises
    [NameError] on [bext] as soon as some anchor of the list that is no
    table or figure caption starts at or before the position and not
    before the candidate, and returns the candidate otherwise. So it
    returns an anchor only if that anchor is a caption of the list at or
    before the position, and it raises for every candidate that is not a
    caption. *)
Theorem best_anchor_only_captions (anchors : list Anchor) (pos : Z) :
  _best_anchor_for_pos anchors (VInt pos)
  = match candidate_at anchors pos None with
    | None => Ok None
    | Some c =>
        if existsb (compared c pos) anchors then Raise (NameError "bext") else Ok (Some c)
    end
  /\ (forall a, _best_anchor_for_pos anchors (VInt pos) = Ok (Some a) ->
        In a anchors /\ a_start a <= pos /\ is_caption a)
  /\ (forall c, candidate_at anchors pos None = Some c -> ~ is_caption c ->
        _best_anchor_for_pos anchors (VInt pos) = Raise (NameError "bext"))
  /\ match candidate_at anchors pos None with
     | Some c =>
         exists pre post, anchors = pre ++ c :: post
           /\ Forall (fun a => a_start a <= pos) (pre ++ [c])
           /\ forall a, head post = Some a -> pos < a_start a
     | None => forall a, head anchors = Some a -> pos < a_start a
     end.
Proof.
  split; [apply best_anchor_cases|]. split; [|split; [|apply candidate_at_spec]].
  - intros a. rewrite best_anchor_cases.
    destruct (candidate_at anchors pos None) as [c|] eqn:Hc; [|discriminate].
    destruct (existsb (compared c pos) anchors) eqn:He; [discriminate|].
    intros [= <-]. destruct (candidate_at_In _ _ _ _ Hc) as [[=]|[Hin Hs]].
    split; [exact Hin|]. split; [exact Hs|].
    destruct (compared c pos c) eqn:Hcc.
    + exfalso. assert (Hex : existsb (compared c pos) anchors = true)
        by (apply existsb_exists; exists c; auto). congruence.
    + unfold is_caption. unfold compared in Hcc.
      destruct (Z.leb_spec (a_start c) pos); [|lia].
      destruct (Z.leb_spec (a_start c) (a_start c)); [|lia].
      destruct (a_kind c); cbn in Hcc; try discriminate; auto.
  - intros c Hc Hn. rewrite best_anchor_cases, Hc.
    destruct (candidate_at_In _ _ _ _ Hc) as [[=]|[Hin Hs]].
    assert (Hex : existsb (compared c pos) anchors = true).
    { apply existsb_exists. exists c. split; [exact Hin|].
      apply compared_self; assumption. }
    rewrite Hex. reflexivity.
Qed.

(** The labelling loop returns only by adding [None] for every chunk. *)
Lemma annotate_loop_none (anchors : list Anchor) (chunks : list str) (cursor : Z)
    (acc labels : list (option str)) :
  annotate_loop anchors chunks cursor acc = Ok labels ->
  labels = acc ++ map (fun _ => None) chunks.
Proof.
  revert cursor acc. induction chunks as [|ch rest IH]; intros cursor acc; cbn [annotate_loop].
  - intros [= <-]. now rewrite app_nil_r.
  - rewrite load_current_process. cbn [bind].
    destruct anchors as [|a anchors'].
    + cbn [_best_anchor_for_pos bind]. intros H. apply IH in H as ->.
      rewrite <- app_assoc. reflexivity.
    + rewrite best_anchor_type_error. cbn [bind]. discriminate.
Qed.

(** X8. [annotate_chunks_with_sections] never gives a chunk a label: when it
    returns, it returns [None] for every chunk. *)
Theorem annotate_labels_all_none (text : str) (chunks : list str)
    (labels : list (option str)) :
  annotate_chunks_with_sections T text chunks = Ok labels ->
  labels = map (fun _ => None) chunks.
Proof.
  unfold annotate_chunks_with_sections.
  destruct (find_anchors T text) as [anchors|]; [|discriminate]. cbn [bind].
  intros H. apply annotate_loop_none in H. exact H.
Qed.

(** Every anchor [_mk_anchor] builds is well formed. *)
Lemma mk_anchor_well_formed (k : kind) (raw i t : option str) (start : Z) (a : Anchor) :
  _mk_anchor k raw i t start = Ok a -> well_formed a.
Proof.
  unfold _mk_anchor. destruct i as [i|]; [|destruct k; discriminate].
  destruct k; cbn; try discriminate; intros [= <-]; unfold well_formed, is_caption; cbn;
    (split; [|split; apply strip_trimmed]); auto.
Qed.

Lemma collect_well_formed (P : Re.pattern) (k : kind) (d : bool) (text : str)
    (ms : list Re.match_) (anchors out : list Anchor) :
  Forall well_formed anchors ->
  collect P k d text ms anchors = Ok out -> Forall well_formed out.
Proof.
  revert anchors. induction ms as [|m ms IH]; intros anchors Ha; cbn [collect].
  - intros [= <-]. exact Ha.
  - destruct (Re.group P text m "kind") as [raw|]; [|discriminate]. cbn [bind].
    destruct (Re.group P text m "id") as [i|]; [|discriminate]. cbn [bind].
    destruct (Re.group P text m "title") as [t|]; [|discriminate]. cbn [bind].
    destruct (_mk_anchor k raw _ t _) as [a|] eqn:Hm; [|discriminate]. cbn [bind].
    apply IH. apply Forall_app. split; [exact Ha|].
    constructor; [eapply mk_anchor_well_formed, Hm|constructor].
Qed.

Lemma set_end_well_formed (a : Anchor) (e : Z) : well_formed a -> well_formed (set_end a e).
Proof. intros H. exact H. Qed.

Lemma set_ends_well_formed (n : Z) (l : list Anchor) :
  Forall well_formed l -> Forall well_formed (set_ends n l).
Proof.
  induction 1 as [|a rest Ha Hr IH]; cbn [set_ends]; constructor;
    [apply set_end_well_formed, Ha|exact IH].
Qed.

Lemma insert_by_start_Forall (Q : Anchor -> Prop) (a : Anchor) (l : list Anchor) :
  Q a -> Forall Q l -> Forall Q (insert_by_start a l).
Proof.
  intros Ha. induction 1 as [|b rest Hb Hr IH]; cbn [insert_by_start].
  - constructor; [exact Ha|constructor].
  - destruct (a_start a <? a_start b); constructor; try assumption.
    constructor; assumption.
Qed.

Lemma sort_by_start_Forall (Q : Anchor -> Prop) (l : list Anchor) :
  Forall Q l -> Forall Q (sort_by_start l).
Proof.
  unfold sort_by_start. intros H.
  assert (Hg : forall acc, Forall Q acc ->
                 Forall Q (fold_left (fun acc a => insert_by_start a acc) l acc)).
  { induction H as [|a rest Ha Hr IH]; intros acc Hacc; cbn [fold_left]; [exact Hacc|].
    apply IH, insert_by_start_Forall; assumption. }
  apply Hg. constructor.
Qed.

Lemma sublist_Forall_anchor (Q : Anchor -> Prop) (l k : list Anchor) :
  sublist l k -> Forall Q k -> Forall Q l.
Proof.
  induction 1 as [|x l k Hs IH|x l k Hs IH]; intros H.
  - constructor.
  - inversion H; subst. constructor; [assumption|apply IH; assumption].
  - inversion H; subst. apply IH; assumption.
Qed.

(** X9. Every anchor [find_anchors] returns is a section or an appendix of
    level 1, or a table or figure caption of level 99, with an id and a title
    that neither start nor end with white space: it never returns a clause
    or a numbered title. *)
Theorem find_anchors_well_formed (text : str) (anchors : list Anchor) :
  find_anchors T text = Ok anchors -> Forall well_formed anchors.
Proof.
  unfold find_anchors, scan. intros H.
  destruct (collect RE_SECTION section false text _ []) as [a1|] eqn:H1; [|discriminate].
  apply collect_well_formed in H1; [|constructor]. cbn [bind] in H.
  destruct (collect RE_APPENDIX appendix true text _ a1) as [a2|] eqn:H2; [|discriminate].
  apply collect_well_formed in H2; [|exact H1]. cbn [bind] in H.
  destruct (collect RE_CLAUSE clause false text _ a2) as [a3|] eqn:H3; [|discriminate].
  apply collect_well_formed in H3; [|exact H2]. cbn [bind] in H.
  destruct (collect RE_NUM_TITLE numtitle false text _ a3) as [a4|] eqn:H4; [|discriminate].
  apply collect_well_formed in H4; [|exact H3]. cbn [bind] in H.
  destruct (collect RE_TABLE table false text _ a4) as [a5|] eqn:H5; [|discriminate].
  apply collect_well_formed in H5; [|exact H4]. cbn [bind] in H.
  destruct (collect RE_FIG figure false text _ a5) as [a6|] eqn:H6; [|discriminate].
  apply collect_well_formed in H6; [|exact H5]. cbn [bind] in H.
  injection H as <-. apply set_ends_well_formed.
  eapply sublist_Forall_anchor; [apply dedup_fold_sublist|]. cbn [app].
  apply set_ends_well_formed, sort_by_start_Forall, H6.
Qed.

End StructureParserMore.

(** ** Patterns that match runs of one class *)

Section SearchProperties.

Import Re.

Variable T : Lib.tables.
Variable p : pattern.
Variable s : Py.str.

Lemma nth_error_skipn_cons (i : nat) (c : Z) :
  nth_error s i = Some c -> skipn i s = c :: skipn (S i) s.
Proof.
  revert i. induction s as [|x l IH]; intros i H.
  - destruct i; discriminate.
  - destruct i as [|i].
    + cbn in H. injection H as ->. reflexivity.
    + cbn [nth_error] in H. cbn [skipn]. apply IH, H.
Qed.

Lemma nth_error_skipn_nil (i : nat) : nth_error s i = None -> skipn i s = [].
Proof.
  intros H. apply nth_error_None in H. apply skipn_all2, H.
Qed.

Lemma skipn_cons_nth_error (i : nat) (c : Z) (rest : Py.str) :
  skipn i s = c :: rest -> nth_error s i = Some c /\ skipn (S i) s = rest /\ (i < length s)%nat.
Proof.
  intros H. destruct (nth_error s i) as [x|] eqn:E.
  - rewrite (nth_error_skipn_cons i x E) in H. injection H as -> <-.
    split; [reflexivity|]. split; [reflexivity|]. apply nth_error_Some. congruence.
  - rewrite (nth_error_skipn_nil i E) in H. discriminate.
Qed.

Lemma match_at_start (i : nat) (m : match_) : match_at T p s i = Some m -> m_start m = i.
Proof.
  unfold match_at. destruct (run T p s (re p) i [] _) as [[j g]|]; [|discriminate].
  intros [= <-]. reflexivity.
Qed.

Lemma search_from_found (fu i : nat) (m : match_) :
  match_at T p s i = Some m -> search_from T p s fu i = Some m.
Proof. intros H. destruct fu; cbn [search_from]; rewrite H; reflexivity. Qed.

Lemma search_from_end (fu i : nat) :
  (length s <= i)%nat -> match_at T p s i = None -> search_from T p s fu i = None.
Proof.
  intros Hi H. destruct fu; cbn [search_from]; rewrite H; [reflexivity|].
  destruct (Nat.leb_spec (length s) i); [reflexivity|lia].
Qed.

Lemma search_from_fuel (fu j : nat) :
  (length s <= j + fu)%nat -> search_from T p s (S fu) j = search_from T p s fu j.
Proof.
  revert j. induction fu as [|fu IH]; intros j Hj.
  - cbn [search_from]. destruct (match_at T p s j); [reflexivity|].
    destruct (Nat.leb_spec (length s) j); [reflexivity|lia].
  - cbn [search_from]. destruct (match_at T p s j); [reflexivity|].
    destruct (length s <=? j)%nat; [reflexivity|].
    apply (IH (S j)). lia.
Qed.

Lemma search_from_skip (i : nat) :
  match_at T p s i = None -> (i < length s)%nat ->
  search_from T p s (length s) i = search_from T p s (length s) (S i).
Proof.
  intros H Hi. destruct (length s) as [|L] eqn:EL; [lia|].
  rewrite (search_from_fuel L (S i)) by lia.
  cbn [search_from]. rewrite H.
  destruct (Nat.leb_spec (length s) i); [lia|]. rewrite EL in *.
  destruct (Nat.leb_spec (S L) i); [lia|]. reflexivity.
Qed.

Lemma search_from_ge (fu j : nat) (m : match_) :
  search_from T p s fu j = Some m -> (j <= m_start m)%nat.
Proof.
  revert j. induction fu as [|fu IH]; intros j; cbn [search_from].
  - destruct (match_at T p s j) eqn:E; [|discriminate].
    intros [= <-]. apply match_at_start in E. lia.
  - destruct (match_at T p s j) eqn:E.
    + intros [= <-]. apply match_at_start in E. lia.
    + destruct (length s <=? j)%nat; [discriminate|].
      intros H. apply IH in H. lia.
Qed.

Lemma finditer_from_skip (F i : nat) :
  match_at T p s i = None -> (i < length s)%nat ->
  finditer_from T p s (S F) i = finditer_from T p s (S F) (S i).
Proof.
  intros H Hi. cbn [finditer_from]. rewrite (search_from_skip i H Hi). reflexivity.
Qed.

Lemma finditer_from_head_ge (F i : nat) (m : match_) (ms : list match_) :
  finditer_from T p s F i = m :: ms -> (i <= m_start m)%nat.
Proof.
  destruct F as [|F]; cbn [finditer_from]; [discriminate|].
  destruct (search_from T p s (length s) i) as [m'|] eqn:E; [|discriminate].
  intros [= <- _]. eapply search_from_ge, E.
Qed.

Lemma substr_step (i b : nat) (c : Z) :
  nth_error s i = Some c -> (S i <= b)%nat -> substr s i b = c :: substr s (S i) b.
Proof.
  intros H Hb. unfold substr. rewrite (nth_error_skipn_cons i c H).
  replace (b - i)%nat with (S (b - S i)) by lia. reflexivity.
Qed.

Lemma substr_snoc (a i : nat) (c : Z) :
  nth_error s i = Some c -> (a <= i)%nat -> substr s a (S i) = substr s a i ++ [c].
Proof.
  intros H Ha. unfold substr.
  replace (S i - a)%nat with (S (i - a)) by lia.
  assert (Hn : nth_error (skipn a s) (i - a) = Some c).
  { rewrite nth_error_skipn. replace (a + (i - a))%nat with i by lia. exact H. }
  revert Hn. generalize (skipn a s) (i - a)%nat. clear.
  intros l n. revert l. induction n as [|n IH]; intros [|x l] Hn; try discriminate.
  - cbn in Hn. injection Hn as ->. reflexivity.
  - cbn in Hn. cbn [firstn]. rewrite (IH l Hn). reflexivity.
Qed.

Lemma sub_from_step (repl : match_ -> Py.str) (ms : list match_) (i : nat) (c : Z) :
  nth_error s i = Some c ->
  (forall m ms', ms = m :: ms' -> (S i <= m_start m)%nat) ->
  sub_from s repl ms i = c :: sub_from s repl ms (S i).
Proof.
  intros H Hms. destruct ms as [|m ms']; cbn [sub_from].
  - apply nth_error_skipn_cons, H.
  - rewrite (substr_step i (m_start m) c H) by (eapply Hms; reflexivity). reflexivity.
Qed.

End SearchProperties.

Lemma run_len_le (pred : Z -> bool) (l : Py.str) : (Py.run_len pred l <= length l)%nat.
Proof.
  induction l as [|c l IH]; cbn [Py.run_len length]; [lia|].
  destruct (pred c); lia.
Qed.

Lemma skipn_app_firstn (l : Py.str) (a i : nat) :
  (a <= i)%nat -> skipn a l = Re.substr l a i ++ skipn i l.
Proof.
  intros H. unfold Re.substr.
  rewrite <- (firstn_skipn (i - a) (skipn a l)) at 1.
  rewrite skipn_skipn. replace (i - a + a)%nat with i by lia. reflexivity.
Qed.

Section RunPatterns.

Import Re.

Variable T : Lib.tables.
Variable p : pattern.
Variable s : Py.str.
Variable lo : nat.
Variable items : list item.

Hypothesis Hre : re p = Rep lo None (Set_ items).
Hypothesis Hlo : (1 <= lo)%nat.

Lemma rep_loop_run (fuel : nat) : forall (i : nat) (g : groups) (lo' : nat),
  (Py.run_len (in_set T p items) (skipn i s) < fuel)%nat ->
  rep_loop (run T p s (Set_ items)) (fun j g' => Some (j, g')) fuel lo' None i g
  = if (lo' <=? Py.run_len (in_set T p items) (skipn i s))%nat
    then Some ((i + Py.run_len (in_set T p items) (skipn i s))%nat, g) else None.
Proof.
  induction fuel as [|fuel IH]; intros i g lo' Hf; [lia|].
  cbn [rep_loop run option_map]. unfold char_at.
  destruct (nth_error s i) as [c|] eqn:E.
  - rewrite (nth_error_skipn_cons s i c E) in *. cbn [Py.run_len] in *.
    destruct (in_set T p items c) eqn:Hc.
    + assert (Hne : (S i =? i)%nat = false) by (apply Nat.eqb_neq; lia).
      rewrite Hne. rewrite IH by lia.
      destruct lo' as [|lo']; cbn [Nat.pred].
      * cbn [Nat.leb]. f_equal. f_equal. lia.
      * change (S lo' <=? S ?r)%nat with (lo' <=? r)%nat.
        destruct (lo' <=? _)%nat; [|reflexivity]. f_equal. f_equal. lia.
    + destruct lo' as [|lo']; cbn [Nat.leb]; [|reflexivity].
      f_equal. f_equal. lia.
  - rewrite (nth_error_skipn_nil s i E). cbn [Py.run_len].
    destruct lo' as [|lo']; cbn [Nat.leb]; [|reflexivity].
    f_equal. f_equal. lia.
Qed.

Lemma match_at_run (i : nat) :
  match_at T p s i
  = if (lo <=? Py.run_len (in_set T p items) (skipn i s))%nat
    then Some {| m_start := i;
                 m_end := (i + Py.run_len (in_set T p items) (skipn i s))%nat;
                 m_groups := [] |}
    else None.
Proof.
  unfold match_at. rewrite Hre. cbn [run]. rewrite rep_loop_run.
  - destruct (lo <=? _)%nat; reflexivity.
  - pose proof (run_len_le (in_set T p items) (skipn i s)) as H1.
    pose proof (length_skipn i s) as H2. lia.
Qed.

Lemma finditer_from_end (F i : nat) :
  skipn i s = [] -> finditer_from T p s F i = [].
Proof.
  intros H. destruct F as [|F]; [reflexivity|]. cbn [finditer_from].
  rewrite search_from_end; [reflexivity| |].
  - pose proof (length_skipn i s) as H2. rewrite H in H2. cbn in H2. lia.
  - rewrite match_at_run, H. cbn [Py.run_len].
    destruct (Nat.leb_spec lo 0); [lia|reflexivity].
Qed.

Lemma sub_from_runs (repl : Py.str) (f : nat) : forall (i F : nat),
  (length (skipn i s) <= f)%nat -> (length (skipn i s) < F)%nat ->
  sub_from s (fun _ => repl) (finditer_from T p s F i) i
  = sub_runs (in_set T p items) lo repl f (skipn i s).
Proof.
  induction f as [|f IH]; intros i F Hf HF.
  - destruct (skipn i s) eqn:Es; [|cbn in Hf; lia].
    rewrite (finditer_from_end F i Es). cbn [sub_from sub_runs]. exact Es.
  - destruct (skipn i s) as [|c rest] eqn:Es.
    + rewrite (finditer_from_end F i Es). cbn [sub_from sub_runs]. exact Es.
    + destruct (skipn_cons_nth_error s i c rest Es) as (Hn & Hr & Hi).
      destruct F as [|F]; [lia|].
      cbn [sub_runs]. rewrite <- Es.
      pose proof (match_at_run i) as Hm.
      destruct (lo <=? Py.run_len (in_set T p items) (skipn i s))%nat eqn:Hlong.
      * apply Nat.leb_le in Hlong.
        cbn [finditer_from]. rewrite (search_from_found T p s _ i _ Hm).
        cbn [m_start m_end].
        destruct (Nat.leb_spec (i + Py.run_len (in_set T p items) (skipn i s)) i); [lia|].
        cbn [sub_from m_start m_end]. unfold substr at 1.
        rewrite Nat.sub_diag, firstn_O. cbn [app]. f_equal.
        rewrite skipn_skipn.
        rewrite (Nat.add_comm (Py.run_len _ _) i).
        pose proof (length_skipn (i + Py.run_len (in_set T p items) (skipn i s)) s) as H2.
        pose proof (length_skipn i s) as H3. rewrite Es in H3 at 1. cbn [length] in Hf, HF, H3.
        apply IH; lia.
      * rewrite (finditer_from_skip T p s F i Hm Hi).
        rewrite (sub_from_step s _ _ i c Hn).
        2:{ intros m ms' Hms. eapply finditer_from_head_ge, Hms. }
        f_equal. rewrite <- Hr.
        pose proof (length_skipn (S i) s) as H2.
        pose proof (length_skipn i s) as H3. rewrite Es in H3 at 1. cbn [length] in Hf, HF, H3.
        apply IH; lia.
Qed.

Lemma sub_runs_spec (repl : Py.str) :
  sub T p s (fun _ => repl) = sub_runs (in_set T p items) lo repl (length s) s.
Proof.
  unfold sub, finditer.
  rewrite (sub_from_runs repl (length s) 0 (S (length s))); rewrite ?skipn_O;
    [reflexivity|lia|lia].
Qed.

Lemma split_from_runs (f : nat) : forall (i F a : nat) (cur : Py.str),
  (a <= i)%nat -> rev cur = substr s a i ->
  (length (skipn i s) <= f)%nat -> (length (skipn i s) < F)%nat ->
  split_from s (finditer_from T p s F i) a
  = split_runs (in_set T p items) lo f cur (skipn i s).
Proof.
  induction f as [|f IH]; intros i F a cur Ha Hcur Hf HF.
  - destruct (skipn i s) eqn:Es; [|cbn in Hf; lia].
    rewrite (finditer_from_end F i Es). cbn [split_from split_runs].
    rewrite (skipn_app_firstn s a i Ha), Es, Hcur. reflexivity.
  - destruct (skipn i s) as [|c rest] eqn:Es.
    + rewrite (finditer_from_end F i Es). cbn [split_from split_runs].
      rewrite (skipn_app_firstn s a i Ha), Es, Hcur, app_nil_r. reflexivity.
    + destruct (skipn_cons_nth_error s i c rest Es) as (Hn & Hr & Hi).
      destruct F as [|F]; [lia|].
      cbn [split_runs]. rewrite <- Es.
      pose proof (match_at_run i) as Hm.
      destruct (lo <=? Py.run_len (in_set T p items) (skipn i s))%nat eqn:Hlong.
      * apply Nat.leb_le in Hlong.
        cbn [finditer_from]. rewrite (search_from_found T p s _ i _ Hm).
        cbn [m_start m_end].
        destruct (Nat.leb_spec (i + Py.run_len (in_set T p items) (skipn i s)) i); [lia|].
        cbn [split_from m_start m_end]. rewrite <- Hcur. f_equal.
        rewrite skipn_skipn.
        rewrite (Nat.add_comm (Py.run_len _ _) i).
        pose proof (length_skipn (i + Py.run_len (in_set T p items) (skipn i s)) s) as H2.
        pose proof (length_skipn i s) as H3. rewrite Es in H3 at 1. cbn [length] in Hf, HF, H3.
        apply IH; [lia| |lia|lia].
        unfold substr. rewrite Nat.sub_diag. reflexivity.
      * rewrite (finditer_from_skip T p s F i Hm Hi).
        rewrite <- Hr.
        pose proof (length_skipn (S i) s) as H2.
        pose proof (length_skipn i s) as H3. rewrite Es in H3 at 1. cbn [length] in Hf, HF, H3.
        apply IH; [lia| |lia|lia].
        cbn [rev]. rewrite Hcur. symmetry. apply substr_snoc; [exact Hn|exact Ha].
Qed.

Lemma split_runs_spec :
  split T p s = split_runs (in_set T p items) lo (length s) [] s.
Proof.
  unfold split, finditer.
  rewrite (split_from_runs (length s) 0 (S (length s)) 0 []); rewrite ?skipn_O;
    try lia; reflexivity.
Qed.

End RunPatterns.

(** ** Runs of one class *)

Section RunsBounded.

Import Py.

Variable pred : Z -> bool.

Lemma run_len_app_le (a b : str) : (run_len pred a <= run_len pred (a ++ b))%nat.
Proof.
  induction a as [|c a IH]; cbn [run_len app]; [lia|].
  destruct (pred c); lia.
Qed.

Lemma run_len_app (a b : str) :
  run_len pred (a ++ b)
  = if forallb pred a then (length a + run_len pred b)%nat else run_len pred a.
Proof.
  induction a as [|c a IH]; cbn [run_len app forallb length]; [reflexivity|].
  destruct (pred c); cbn [andb]; [|reflexivity].
  rewrite IH. destruct (forallb pred a); reflexivity.
Qed.

Lemma run_len_all (a : str) : forallb pred a = true -> run_len pred a = length a.
Proof.
  induction a as [|c a IH]; cbn [run_len forallb length]; [reflexivity|].
  destruct (pred c); cbn [andb]; [|discriminate]. intros H. rewrite (IH H). reflexivity.
Qed.

Lemma run_len_skip (s : str) : run_len pred (skipn (run_len pred s) s) = O.
Proof.
  induction s as [|c s IH]; [reflexivity|].
  cbn [run_len]. destruct (pred c) eqn:E.
  - cbn [skipn]. exact IH.
  - cbn [skipn run_len]. rewrite E. reflexivity.
Qed.

Lemma run_len_skip_In (s : str) (c : Z) :
  In c s -> pred c = false -> In c (skipn (run_len pred s) s).
Proof.
  induction s as [|x s IH]; [intros []|].
  intros Hin Hc. cbn [run_len]. destruct (pred x) eqn:E.
  - cbn [skipn]. destruct Hin as [->|Hin]; [congruence|]. apply IH; assumption.
  - exact Hin.
Qed.

Lemma runs_bounded_skipn (K n : nat) (s : str) :
  runs_bounded pred K s -> runs_bounded pred K (skipn n s).
Proof.
  revert s. induction n as [|n IH]; intros s H; [exact H|].
  destruct s as [|c s]; [exact H|]. cbn [skipn]. apply IH, H.
Qed.

Lemma runs_bounded_app_r (K : nat) (a b : str) :
  runs_bounded pred K (a ++ b) -> runs_bounded pred K b.
Proof.
  induction a as [|c a IH]; [auto|]. cbn [app runs_bounded]. intros [_ H]. apply IH, H.
Qed.

Lemma runs_bounded_app_l (K : nat) (a b : str) :
  runs_bounded pred K (a ++ b) -> runs_bounded pred K a.
Proof.
  induction a as [|c a IH]; [constructor|]. cbn [app runs_bounded]. intros [H1 H2].
  split; [|apply IH, H2].
  pose proof (run_len_app_le (c :: a) b) as H. cbn [app] in H. lia.
Qed.

Lemma runs_bounded_others (K : nat) (a b : str) :
  Forall (fun c => pred c = false) a -> runs_bounded pred K b -> runs_bounded pred K (a ++ b).
Proof.
  induction 1 as [|c a Hc Ha IH]; [auto|]. intros Hb.
  cbn [app runs_bounded run_len]. rewrite Hc. split; [lia|]. apply IH, Hb.
Qed.

Lemma runs_bounded_repeat (K n : nat) (c : Z) (b : str) :
  (n <= K)%nat -> run_len pred b = O -> runs_bounded pred K b ->
  runs_bounded pred K (repeat c n ++ b).
Proof.
  intros Hn H0 Hb. induction n as [|n IH]; [exact Hb|].
  cbn [repeat app runs_bounded]. split; [|apply IH; lia].
  pose proof (run_len_app (c :: repeat c n) b) as H. cbn [app] in H. rewrite H.
  destruct (forallb pred (c :: repeat c n)) eqn:E.
  - rewrite H0. cbn [length]. rewrite repeat_length. lia.
  - pose proof (run_len_le pred (c :: repeat c n)) as H1.
    cbn [length] in H1. rewrite repeat_length in H1. lia.
Qed.

Lemma runs_bounded_strip (K : nat) (s : str) :
  runs_bounded pred K s -> runs_bounded pred K (strip s).
Proof.
  intros H. unfold strip.
  destruct (lstrip_suffix s) as (pre & Heq & _).
  destruct (rstrip_prefix (lstrip s)) as (post & Heq' & _).
  rewrite Heq in H. apply runs_bounded_app_r in H.
  rewrite Heq' in H. apply runs_bounded_app_l in H. exact H.
Qed.

Lemma run_len_repeat (c : Z) (n : nat) (post : str) :
  pred c = true -> (n <= run_len pred (repeat c n ++ post))%nat.
Proof.
  intros Hc. induction n as [|n IH]; [lia|].
  cbn [repeat app run_len]. rewrite Hc. lia.
Qed.

(** A text whose runs are at most [K] long holds no [K + 1] consecutive
    copies of a code point of the class. *)
Lemma runs_bounded_no_run (K : nat) (c : Z) (s : str) :
  pred c = true -> runs_bounded pred K s ->
  forall pre post, s <> pre ++ repeat c (S K) ++ post.
Proof.
  intros Hc H pre post ->. apply runs_bounded_app_r in H.
  pose proof (run_len_repeat c (S K) post Hc) as Hr.
  cbn [repeat app runs_bounded] in H. destruct H as [H _].
  cbn [repeat app] in Hr. lia.
Qed.

Lemma runs_bounded_snoc (K : nat) (l : str) (c : Z) :
  runs_bounded pred K l ->
  (pred c = true -> (run_len pred (rev l) < K)%nat) ->
  runs_bounded pred K (l ++ [c]).
Proof.
  induction l as [|x l IH]; intros Hl Hc.
  - cbn [app runs_bounded run_len]. split; [|exact I].
    destruct (pred c) eqn:E; [|lia]. specialize (Hc eq_refl). cbn in Hc. lia.
  - cbn [app runs_bounded] in *. destruct Hl as [H1 H2]. split.
    + pose proof (run_len_app (x :: l) [c]) as H. cbn [app] in H. rewrite H.
      destruct (forallb pred (x :: l)) eqn:E; [|exact H1].
      cbn [run_len]. destruct (pred c) eqn:Ec; [|rewrite (run_len_all _ E) in H1; lia].
      specialize (Hc eq_refl).
      rewrite run_len_all in Hc.
      * rewrite length_rev in Hc. lia.
      * rewrite forallb_forall in E |- *. intros y Hy. apply E, in_rev, Hy.
    + apply IH; [exact H2|]. intros Ec. specialize (Hc Ec).
      cbn [rev] in Hc. pose proof (run_len_app_le (rev l) [x]). lia.
Qed.

(** *** Substitution *)

Variable lo : nat.
Hypothesis Hlo : (1 <= lo)%nat.

Lemma sub_runs_short (repl : str) (f : nat) : forall s : str,
  (length s <= f)%nat -> (run_len pred s < lo)%nat ->
  run_len pred (Re.sub_runs pred lo repl f s) = run_len pred s.
Proof.
  induction f as [|f IH]; intros s Hf Hs; [reflexivity|].
  destruct s as [|c rest]; [reflexivity|].
  cbn [Re.sub_runs]. destruct (Nat.leb_spec lo (run_len pred (c :: rest))); [lia|].
  cbn [run_len] in *. destruct (pred c); [|reflexivity].
  rewrite IH; [reflexivity|cbn [length] in Hf; lia|lia].
Qed.

(** Runs of at least [lo] replaced by a text that adds no longer run than
    [K], the shorter runs being at most [K] long: no run is longer than
    [K]. *)
Lemma sub_runs_bounded (K : nat) (repl : str) (f : nat) :
  (lo <= S K)%nat ->
  (forall tail, run_len pred tail = O -> runs_bounded pred K tail ->
                runs_bounded pred K (repl ++ tail)) ->
  forall s : str, (length s <= f)%nat ->
  runs_bounded pred K (Re.sub_runs pred lo repl f s).
Proof.
  intros HK Hrepl. induction f as [|f IH]; intros s Hf.
  - destruct s; [exact I|cbn in Hf; lia].
  - destruct s as [|c rest]; [exact I|].
    cbn [Re.sub_runs]. cbn [length] in Hf.
    destruct (Nat.leb_spec lo (run_len pred (c :: rest))) as [Hlong|Hshort].
    + assert (Hlen : (length (skipn (run_len pred (c :: rest)) (c :: rest)) <= f)%nat).
      { rewrite length_skipn. cbn [length]. lia. }
      apply Hrepl; [|apply IH, Hlen].
      rewrite sub_runs_short; [apply run_len_skip|exact Hlen|].
      rewrite run_len_skip. lia.
    + cbn [runs_bounded]. split; [|apply IH; lia].
      cbn [run_len] in *. destruct (pred c); [|lia].
      rewrite sub_runs_short; lia.
Qed.

End RunsBounded.

(** Substitution lengthens no run of another class, when the replacement
    is not empty and holds no code point of that class. *)
Lemma sub_runs_le (pred other : Z -> bool) (lo : nat) (repl : Py.str) (f : nat) :
  repl <> [] -> Forall (fun c => other c = false) repl ->
  forall s : Py.str,
  (Py.run_len other (Re.sub_runs pred lo repl f s) <= Py.run_len other s)%nat.
Proof.
  intros Hne Hrepl. induction f as [|f IH]; intros s; [cbn; lia|].
  destruct s as [|c rest]; [cbn; lia|].
  cbn [Re.sub_runs]. destruct (lo <=? Py.run_len pred (c :: rest))%nat.
  - destruct Hrepl as [|x repl' Hx _]; [congruence|].
    cbn [app Py.run_len]. rewrite Hx. lia.
  - cbn [Py.run_len]. destruct (other c); [|lia]. specialize (IH rest). lia.
Qed.

Lemma sub_runs_keeps_bound (pred other : Z -> bool) (lo K : nat) (repl : Py.str) (f : nat) :
  repl <> [] -> Forall (fun c => other c = false) repl ->
  forall s : Py.str,
  Py.runs_bounded other K s -> Py.runs_bounded other K (Re.sub_runs pred lo repl f s).
Proof.
  intros Hne Hrepl. induction f as [|f IH]; intros s Hs; [exact Hs|].
  destruct s as [|c rest]; [exact I|].
  cbn [Re.sub_runs]. destruct (lo <=? Py.run_len pred (c :: rest))%nat.
  - apply runs_bounded_others; [exact Hrepl|].
    apply IH, runs_bounded_skipn, Hs.
  - cbn [Py.runs_bounded] in *. destruct Hs as [H1 H2]. split; [|apply IH, H2].
    pose proof (sub_runs_le pred other lo repl f Hne Hrepl rest) as Hle.
    cbn [Py.run_len] in *. destruct (other c); lia.
Qed.

(** ** The last stage of the normaliser *)

Section CollapseProperties.

Import Py Normalizer.

Variable T : Lib.tables.

Lemma replace_char_gone (old : Z) (new s : str) :
  Forall (fun c => c <> old) new -> Forall (fun c => c <> old) (replace_char old new s).
Proof.
  intros Hnew. induction s as [|c r IH]; [constructor|].
  unfold replace_char. cbn [flat_map]. apply Forall_app. split; [|exact IH].
  destruct (Z.eqb_spec c old); [exact Hnew|constructor; [assumption|constructor]].
Qed.

Lemma space_class_spec (c : Z) : space_class T c = (c =? SP).
Proof.
  unfold space_class, Re.in_set. cbn. rewrite !orb_false_r. reflexivity.
Qed.

Lemma newline_class_spec (lo : nat) (c : Z) : newline_class T lo c = (c =? NL).
Proof.
  unfold newline_class, Re.in_set. cbn. rewrite !orb_false_r. reflexivity.
Qed.

Lemma sub_spaces_bounded (text : str) :
  runs_bounded (space_class T) 1
    (Re.sub T (plain (Re.Rep 2 None (Re.lit1 SP))) text (fun _ => [SP])).
Proof.
  rewrite (sub_runs_spec T (plain (Re.Rep 2 None (Re.lit1 SP))) text 2 [Re.Chr SP] eq_refl)
    by lia.
  fold (space_class T). apply sub_runs_bounded; [lia|lia| |lia].
  intros tail H0 Hb. cbn [app runs_bounded run_len].
  rewrite space_class_spec. cbn. rewrite H0. split; [lia|exact Hb].
Qed.

Lemma sub_newlines_spec (text : str) (N : Z) :
  1 <= N ->
  Re.sub T (plain (Re.Rep (Z.to_nat (N + 1)) None (Re.lit1 NL))) text
    (fun _ => repeat NL (Z.to_nat N))
  = Re.sub_runs (newline_class T (Z.to_nat (N + 1))) (Z.to_nat (N + 1))
      (repeat NL (Z.to_nat N)) (length text) text.
Proof.
  intros HN.
  rewrite (sub_runs_spec T (plain (Re.Rep (Z.to_nat (N + 1)) None (Re.lit1 NL))) text
             (Z.to_nat (N + 1)) [Re.Chr NL] eq_refl) by lia.
  reflexivity.
Qed.

Lemma sub_newlines_bounded (text : str) (N : Z) :
  1 <= N ->
  runs_bounded (newline_class T (Z.to_nat (N + 1))) (Z.to_nat N)
    (Re.sub T (plain (Re.Rep (Z.to_nat (N + 1)) None (Re.lit1 NL))) text
       (fun _ => repeat NL (Z.to_nat N))).
Proof.
  intros HN. rewrite (sub_newlines_spec text N HN).
  apply sub_runs_bounded; [lia|lia| |lia].
  intros tail H0 Hb. apply runs_bounded_repeat; [lia|exact H0|exact Hb].
Qed.

Lemma sub_newlines_keeps_spaces (text : str) (N : Z) :
  1 <= N ->
  runs_bounded (space_class T) 1 text ->
  runs_bounded (space_class T) 1
    (Re.sub T (plain (Re.Rep (Z.to_nat (N + 1)) None (Re.lit1 NL))) text
       (fun _ => repeat NL (Z.to_nat N))).
Proof.
  intros HN Hb. rewrite (sub_newlines_spec text N HN).
  apply sub_runs_keeps_bound; [| |exact Hb].
  - destruct (Z.to_nat N) eqn:E; [lia|discriminate].
  - apply Forall_forall. intros c Hc. apply list_elem_of_In, repeat_spec in Hc as ->.
    rewrite space_class_spec. reflexivity.
Qed.

Lemma collapse_no_tab (text : str) (N : Z) :
  Forall (fun c => c <> TAB) (collapsed T text true N).
Proof.
  unfold collapsed. apply strip_Forall.
  assert (H1 : Forall (fun c => c <> TAB)
                 (Re.sub T (plain (Re.Rep 2 None (Re.lit1 SP)))
                    (replace_char TAB [SP] text) (fun _ => [SP]))).
  { apply sub_Forall.
    - apply replace_char_gone. constructor; [discriminate|constructor].
    - intros _. constructor; [discriminate|constructor]. }
  destruct (1 <=? N); [|exact H1].
  apply sub_Forall; [exact H1|]. intros _.
  apply Forall_forall. intros c Hc. apply list_elem_of_In, repeat_spec in Hc as ->.
  discriminate.
Qed.

Lemma collapse_spaces_bounded (text : str) (N : Z) :
  runs_bounded (space_class T) 1 (collapsed T text true N).
Proof.
  unfold collapsed. apply runs_bounded_strip.
  pose proof (sub_spaces_bounded (replace_char TAB [SP] text)) as H1.
  destruct (Z.leb_spec 1 N); [|exact H1].
  apply sub_newlines_keeps_spaces; assumption.
Qed.

Lemma collapse_newlines_bounded (text : str) (cs : bool) (N : Z) :
  1 <= N ->
  runs_bounded (newline_class T (Z.to_nat (N + 1))) (Z.to_nat N)
    (collapsed T text cs N).
Proof.
  intros HN. unfold collapsed. apply runs_bounded_strip.
  destruct (Z.leb_spec 1 N); [|lia].
  apply sub_newlines_bounded, HN.
Qed.

(** X10. With [collapse_spaces] set, the text [_collapse_spaces_and_newlines]
    returns holds no tab and no two adjacent spaces, whatever the limit [N];
    and it returns for every [N] below [MAXREPEAT - 1]. *)
Theorem collapse_leaves_single_spaces (text : str) (N : Z) :
  (N < MAXREPEAT - 1 -> exists out, _collapse_spaces_and_newlines T text true N = Ok out)
  /\ forall out, _collapse_spaces_and_newlines T text true N = Ok out ->
       Forall (fun c => c <> TAB) out
       /\ forall pre post, out <> pre ++ [SP; SP] ++ post.
Proof.
  split.
  - intros HN. rewrite collapse_returns by exact HN. eauto.
  - intros out H. apply collapse_returned in H as ->.
    split; [apply collapse_no_tab|].
    apply (runs_bounded_no_run (space_class T) 1 SP).
    + rewrite space_class_spec. reflexivity.
    + apply collapse_spaces_bounded.
Qed.

(** X11. With a limit [N] of at least one, the text
    [_collapse_spaces_and_newlines] returns holds no [N + 1] consecutive
    newlines; and it returns for every [N] below [MAXREPEAT - 1]. *)
Theorem collapse_caps_newlines (text : str) (cs : bool) (N : Z) :
  1 <= N ->
  (N < MAXREPEAT - 1 -> exists out, _collapse_spaces_and_newlines T text cs N = Ok out)
  /\ forall out, _collapse_spaces_and_newlines T text cs N = Ok out ->
       forall pre post, out <> pre ++ repeat NL (S (Z.to_nat N)) ++ post.
Proof.
  intros HN. split.
  - intros Hlt. rewrite collapse_returns by exact Hlt. eauto.
  - intros out H. apply collapse_returned in H as ->.
    apply (runs_bounded_no_run (newline_class T (Z.to_nat (N + 1))) (Z.to_nat N) NL).
    + rewrite newline_class_spec. reflexivity.
    + apply collapse_newlines_bounded, HN.
Qed.

(** X12. A text [clean] returns is trimmed; with [collapse_spaces] set it
    holds no tab and no two adjacent spaces, and with
    [max_consecutive_newlines] at least one it holds no longer run of
    newlines than that. *)
Theorem clean_output_compact (text out : str) (config : option CleanConfig) :
  clean T text config = Ok out ->
  trimmed out
  /\ (collapse_spaces (effective config) = true ->
      Forall (fun c => c <> TAB) out /\ forall pre post, out <> pre ++ [SP; SP] ++ post)
  /\ (1 <= max_consecutive_newlines (effective config) ->
      forall pre post,
        out <> pre ++ repeat NL (S (Z.to_nat (max_consecutive_newlines (effective config))))
                   ++ post).
Proof.
  intros Hc. apply clean_stages in Hc as (_ & lines & _ & ->).
  split; [|split].
  - unfold collapsed. apply strip_trimmed.
  - intros ->. split; [apply collapse_no_tab|].
    apply (runs_bounded_no_run (space_class T) 1 SP).
    + rewrite space_class_spec. reflexivity.
    + apply collapse_spaces_bounded.
  - intros HN.
    apply (runs_bounded_no_run
             (newline_class T (Z.to_nat (max_consecutive_newlines (effective config) + 1)))
             (Z.to_nat (max_consecutive_newlines (effective config))) NL).
    + rewrite newline_class_spec. reflexivity.
    + apply collapse_newlines_bounded, HN.
Qed.

End CollapseProperties.

(** ** Dashes *)

Lemma sub_runs_removes (pred : Z -> bool) (repl : Py.str) (f : nat) :
  Forall (fun c => pred c = false) repl ->
  forall s : Py.str, (length s <= f)%nat ->
  Forall (fun c => pred c = false) (Re.sub_runs pred 1 repl f s).
Proof.
  intros Hrepl. induction f as [|f IH]; intros s Hf.
  - destruct s; [constructor|cbn in Hf; lia].
  - destruct s as [|c rest]; [constructor|].
    cbn [Re.sub_runs]. cbn [length] in Hf.
    destruct (Nat.leb_spec 1 (Py.run_len pred (c :: rest))) as [Hlong|Hshort].
    + apply Forall_app. split; [exact Hrepl|]. apply IH.
      rewrite length_skipn. cbn [length]. lia.
    + constructor; [|apply IH; lia].
      cbn [Py.run_len] in Hshort. destruct (pred c); [lia|reflexivity].
Qed.

Section DashProperties.

Import Py Normalizer.

Variable T : Lib.tables.

Lemma normalize_dashes_none (text : str) :
  Forall (fun c => ~ (8208 <= c <= 8213)) (_normalize_dashes T text).
Proof.
  unfold _normalize_dashes.
  rewrite (sub_runs_spec T RE_ANY_DASH text 1
             [Re.Chr 8208; Re.Chr 8209; Re.Chr 8210; Re.Chr 8211; Re.Chr 8212; Re.Chr 8213]
             eq_refl) by lia.
  eapply Forall_impl; [apply sub_runs_removes; [|lia]|].
  - constructor; [reflexivity|constructor].
  - cbn beta. intros c Hc Hr. unfold Re.in_set in Hc. cbn in Hc.
    rewrite !orb_false_r in Hc.
    repeat (apply orb_false_iff in Hc as [Hc ?]). lia.
Qed.

(** X13. The text [_normalize_dashes] returns holds none of the dash
    variants U+2010 to U+2015. *)
Theorem normalize_dashes_none_left (text : str) :
  Forall (fun c => ~ (8208 <= c <= 8213)) (_normalize_dashes T text).
Proof. apply normalize_dashes_none. Qed.

(** X14. With [normalize_dashes] set, a text [clean] returns holds none of
    the dash variants U+2010 to U+2015: no later stage brings one back. *)
Theorem clean_no_dash_variants (text out : str) (config : option CleanConfig) :
  normalize_dashes (effective config) = true ->
  clean T text config = Ok out ->
  Forall (fun c => ~ (8208 <= c <= 8213)) out.
Proof.
  intros Hn Hc. apply clean_stages in Hc as (_ & lines & Hd & ->).
  apply collapse_Forall; [unfold SP; lia|unfold NL; lia|].
  apply join_Forall; [constructor; [unfold NL; lia|constructor]|].
  unfold _drop_header_footer_lines in Hd.
  destruct (compile_extra T _ []) as [extra|e]; [|discriminate].
  cbn [bind] in Hd. injection Hd as <-.
  apply Forall_forall. intros ln Hin. apply list_elem_of_In, filter_In in Hin as [Hin _].
  assert (Hl : Forall (Forall (fun c => ~ (8208 <= c <= 8213)))
                 (splitlines (before_bullets T (effective config) text))).
  { apply splitlines_Forall. unfold before_bullets. rewrite Hn.
    apply normalize_dashes_none. }
  rewrite Forall_forall in Hl. apply Hl, list_elem_of_In, Hin.
Qed.

End DashProperties.

(** ** Paragraphs *)

Lemma split_runs_bounded (pred : Z -> bool) (K : nat) (f : nat) :
  forall cur s : Py.str, (length s <= f)%nat ->
  Py.runs_bounded pred K (rev cur) ->
  (Py.run_len pred cur = O \/ (Py.run_len pred cur + Py.run_len pred s <= K)%nat) ->
  Forall (Py.runs_bounded pred K) (Re.split_runs pred (S K) f cur s).
Proof.
  induction f as [|f IH]; intros cur s Hf Hcur Hinv.
  - destruct s; [|cbn in Hf; lia]. cbn [Re.split_runs]. rewrite app_nil_r.
    constructor; [exact Hcur|constructor].
  - destruct s as [|c rest]; [constructor; [exact Hcur|constructor]|].
    cbn [Re.split_runs]. cbn [length] in Hf.
    destruct (Nat.leb_spec (S K) (Py.run_len pred (c :: rest))) as [Hlong|Hshort].
    + constructor; [exact Hcur|]. apply IH.
      * rewrite length_skipn. cbn [length]. lia.
      * exact I.
      * left. reflexivity.
    + cbn [Py.run_len] in Hshort, Hinv. apply IH; [lia| |].
      * cbn [rev]. apply runs_bounded_snoc; [exact Hcur|].
        intros Hc. rewrite Hc in *. rewrite rev_involutive. lia.
      * cbn [Py.run_len]. destruct (pred c); [right; lia|left; reflexivity].
Qed.

Lemma nonspace_skip_run (pred : Z -> bool) (s : Py.str) :
  (forall c, pred c = true -> Py.isspace c = true) ->
  Normalizer.nonspace (skipn (Py.run_len pred s) s) = Normalizer.nonspace s.
Proof.
  intros Hp. induction s as [|c s IH]; [reflexivity|].
  cbn [Py.run_len]. destruct (pred c) eqn:E; [|reflexivity].
  cbn [skipn]. rewrite IH. unfold Normalizer.nonspace. cbn [List.filter].
  rewrite (Hp c E). reflexivity.
Qed.

Lemma split_runs_nonspace (pred : Z -> bool) (lo : nat) (f : nat) :
  (1 <= lo)%nat ->
  (forall c, pred c = true -> Py.isspace c = true) ->
  forall cur s : Py.str, (length s <= f)%nat ->
  concat (map Normalizer.nonspace (Re.split_runs pred lo f cur s))
  = Normalizer.nonspace (rev cur) ++ Normalizer.nonspace s.
Proof.
  intros Hlo Hp. induction f as [|f IH]; intros cur s Hf.
  - destruct s; [|cbn in Hf; lia]. cbn [Re.split_runs map concat].
    rewrite !app_nil_r. reflexivity.
  - destruct s as [|c rest]; [cbn [Re.split_runs map concat]; reflexivity|].
    cbn [Re.split_runs]. cbn [length] in Hf.
    destruct (Nat.leb_spec lo (Py.run_len pred (c :: rest))) as [Hlong|Hshort].
    + cbn [map concat]. rewrite IH.
      * cbn [rev]. unfold Normalizer.nonspace at 2. cbn [List.filter app].
        rewrite (nonspace_skip_run pred (c :: rest) Hp). reflexivity.
      * rewrite length_skipn. cbn [length]. lia.
    + rewrite IH by lia. cbn [rev]. rewrite nonspace_app, <- app_assoc.
      f_equal. change (c :: rest) with ([c] ++ rest). rewrite nonspace_app. reflexivity.
Qed.

Section ParagraphProperties.

Import Py Segmenter.

Variable T : Lib.tables.

Lemma para_class_spec (c : Z) : Re.in_set T PARA_SPLIT_RE [Re.Chr NL] c = (c =? NL).
Proof. unfold Re.in_set. cbn. rewrite !orb_false_r. reflexivity. Qed.

Lemma split_paragraphs_runs (text : str) :
  Re.split T PARA_SPLIT_RE text
  = Re.split_runs (Re.in_set T PARA_SPLIT_RE [Re.Chr NL]) 2 (length text) [] text.
Proof. apply (split_runs_spec T PARA_SPLIT_RE text 2 [Re.Chr NL] eq_refl). lia. Qed.

Lemma nonspace_nil_trimmed (s : str) : trimmed s -> Normalizer.nonspace s = [] -> s = [].
Proof.
  intros [Hh _] Hn. destruct s as [|c r]; [reflexivity|].
  unfold Normalizer.nonspace in Hn. cbn [List.filter] in Hn.
  rewrite (Hh c eq_refl) in Hn. discriminate.
Qed.

Lemma nonspace_nil_blank (s : str) : Normalizer.nonspace s = [] <-> forallb isspace s = true.
Proof.
  induction s as [|c r IH]; [split; reflexivity|].
  unfold Normalizer.nonspace in *. cbn [List.filter forallb].
  destruct (isspace c); cbn [negb andb]; [exact IH|]. split; discriminate.
Qed.

Lemma split_paragraphs_nonspace (text : str) :
  concat (map Normalizer.nonspace (_split_paragraphs T text)) = Normalizer.nonspace text.
Proof.
  unfold _split_paragraphs. rewrite split_paragraphs_runs.
  assert (Hp : forall c, Re.in_set T PARA_SPLIT_RE [Re.Chr NL] c = true -> isspace c = true).
  { intros c Hc. rewrite para_class_spec in Hc. apply Z.eqb_eq in Hc as ->. reflexivity. }
  assert (H2 : (1 <= 2)%nat) by lia.
  pose proof (split_runs_nonspace (Re.in_set T PARA_SPLIT_RE [Re.Chr NL]) 2 (length text)
                H2 Hp [] text (Nat.le_refl _)) as H.
  change (Normalizer.nonspace (rev []) ++ Normalizer.nonspace text)
    with (Normalizer.nonspace text) in H.
  rewrite <- H.
  generalize (Re.split_runs (Re.in_set T PARA_SPLIT_RE [Re.Chr NL]) 2 (length text) [] text).
  intros parts. induction parts as [|x parts IH]; [reflexivity|].
  cbn [map List.filter concat]. rewrite <- IH, <- (nonspace_strip x).
  destruct (strip x); reflexivity.
Qed.

Lemma split_paragraphs_each (text para : str) :
  In para (_split_paragraphs T text) ->
  para <> [] /\ trimmed para
  /\ runs_bounded (Re.in_set T PARA_SPLIT_RE [Re.Chr NL]) 1 para.
Proof.
  unfold _split_paragraphs. intros Hin.
  apply filter_In in Hin as [Hin Hne]. apply in_map_iff in Hin as (x & <- & Hx).
  split; [|split].
  - destruct (strip x); [discriminate|discriminate].
  - apply strip_trimmed.
  - apply runs_bounded_strip. rewrite split_paragraphs_runs in Hx.
    pose proof (split_runs_bounded (Re.in_set T PARA_SPLIT_RE [Re.Chr NL]) 1 (length text)
                  [] text (Nat.le_refl _) I (or_introl eq_refl)) as H.
    rewrite Forall_forall in H. apply H, list_elem_of_In, Hx.
Qed.

Lemma split_paragraphs_none (text : str) :
  _split_paragraphs T text = [] <-> forallb isspace text = true.
Proof.
  rewrite <- nonspace_nil_blank, <- split_paragraphs_nonspace. split.
  - intros ->. reflexivity.
  - intros H. destruct (_split_paragraphs T text) as [|para rest] eqn:E; [reflexivity|].
    assert (Hin : In para (_split_paragraphs T text)) by (rewrite E; left; reflexivity).
    apply split_paragraphs_each in Hin as (Hne & Htr & _).
    cbn [map concat] in H. apply app_eq_nil in H as [H _].
    apply (nonspace_nil_trimmed para Htr) in H. contradiction.
Qed.

(** X15. Every paragraph [_split_paragraphs] returns is non-empty and
    trimmed and holds no two consecutive newlines. *)
Theorem split_paragraphs_shape (text : str) :
  Forall (fun para => para <> [] /\ trimmed para
                      /\ forall pre post, para <> pre ++ [NL; NL] ++ post)
    (_split_paragraphs T text).
Proof.
  apply Forall_forall. intros para Hin.
  apply list_elem_of_In, split_paragraphs_each in Hin as (Hne & Htr & Hb).
  split; [exact Hne|]. split; [exact Htr|].
  apply (runs_bounded_no_run (Re.in_set T PARA_SPLIT_RE [Re.Chr NL]) 1 NL).
  - rewrite para_class_spec. reflexivity.
  - exact Hb.
Qed.

(** X16. The paragraphs hold the code points of the text that are not
    white space, all of them and in the order of the text. *)
Theorem split_paragraphs_keeps_nonspace (text : str) :
  concat (map Normalizer.nonspace (_split_paragraphs T text)) = Normalizer.nonspace text.
Proof. apply split_paragraphs_nonspace. Qed.

(** X17. [chunk_text_with_spans] returns [None] for a text of white space
    only and raises [UnboundLocalError] on [p] for every other text. *)
Theorem chunk_text_with_spans_by_text (text : str) (cfg : SegmentConfig) :
  chunk_text_with_spans T text cfg
  = if forallb isspace text then Ok None else Raise (UnboundLocalError "p").
Proof.
  rewrite chunk_text_with_spans_cases.
  pose proof (split_paragraphs_none text) as H.
  destruct (_split_paragraphs T text) as [|para rest].
  - rewrite (proj1 H eq_refl). reflexivity.
  - destruct (forallb isspace text); [|reflexivity].
    destruct H as [_ H]. discriminate (H eq_refl).
Qed.

End ParagraphProperties.

(** ** More on the page mapper *)

Section PageMapperMore.

Import Py Segmenter.

Lemma total_chars_nonneg (pm : list (gmap string Z)) :
  Forall (fun q => 0 <= chars_of q) pm -> 0 <= total_chars pm.
Proof.
  induction 1 as [|q pm Hq _ IH]; cbn [total_chars]; lia.
Qed.

Lemma total_chars_take_mono (pm : list (gmap string Z)) :
  Forall (fun q => 0 <= chars_of q) pm ->
  forall j k : nat, (j <= k)%nat -> total_chars (take j pm) <= total_chars (take k pm).
Proof.
  induction 1 as [|q pm Hq Hpm IH]; intros j k Hjk.
  - rewrite !take_nil. lia.
  - destruct j as [|j].
    + cbn [take total_chars]. apply total_chars_nonneg, Forall_take.
      constructor; assumption.
    + destruct k as [|k]; [lia|]. cbn [take total_chars].
      specialize (IH j k). lia.
Qed.

Lemma total_chars_take_S (pm : list (gmap string Z)) (j : nat) (q : gmap string Z) :
  pm !! j = Some q -> total_chars (take (S j) pm) = total_chars (take j pm) + chars_of q.
Proof.
  revert j. induction pm as [|x pm IH]; intros j Hj; [discriminate|].
  destruct j as [|j].
  - cbn in Hj. injection Hj as ->. cbn [take total_chars]. rewrite take_0. cbn. lia.
  - cbn [lookup list_lookup] in Hj. change (take (S (S j)) (x :: pm)) with (x :: take (S j) pm).
    change (take (S j) (x :: pm)) with (x :: take j pm).
    cbn [total_chars]. rewrite (IH j Hj). lia.
Qed.

Lemma total_chars_take_le (pm : list (gmap string Z)) (j : nat) :
  Forall (fun q => 0 <= chars_of q) pm -> total_chars (take j pm) <= total_chars pm.
Proof.
  intros H. rewrite <- (take_ge pm (Nat.max j (length pm))) at 2 by lia.
  apply total_chars_take_mono; [exact H|lia].
Qed.

Lemma In_cumulative_ranges (pm : list (gmap string Z)) (c : Z * Z * Z) :
  In c (cumulative_ranges pm) <->
  exists (j : nat) (q : gmap string Z), pm !! j = Some q /\ c = cumulative_range pm j q.
Proof.
  unfold cumulative_ranges. rewrite <- list_elem_of_In, elem_of_lookup_imap.
  split; intros (j & q & H1 & H2); exists j, q; auto.
Qed.

(** A page that overlaps a span inside the range of page [i] is page [i]. *)
Lemma overlapping_within (pm : list (gmap string Z)) (i : nat) (p : gmap string Z)
    (start end_ pg : Z) :
  Forall (fun q => 0 <= chars_of q) pm -> pm !! i = Some p ->
  total_chars (take i pm) <= start -> end_ <= total_chars (take i pm) + chars_of p ->
  overlapping_page pm (start, end_) pg -> pg = page_number i p.
Proof.
  intros Hnn Hi Hs He (c & Hin & Hov & <-).
  apply In_cumulative_ranges in Hin as (j & q & Hj & ->).
  unfold overlaps, cumulative_range in Hov. cbn [fst snd] in Hov |- *.
  destruct (Nat.lt_trichotomy j i) as [Hlt|[->|Hgt]].
  - exfalso. apply Hov. left.
    rewrite <- (total_chars_take_S pm j q Hj).
    pose proof (total_chars_take_mono pm Hnn (S j) i). lia.
  - rewrite Hi in Hj. injection Hj as <-. reflexivity.
  - exfalso. apply Hov. right.
    pose proof (total_chars_take_S pm i p Hi).
    pose proof (total_chars_take_mono pm Hnn (S i) j). lia.
Qed.

Lemma overlapping_self (pm : list (gmap string Z)) (i : nat) (p : gmap string Z)
    (start end_ : Z) :
  pm !! i = Some p ->
  total_chars (take i pm) <= start -> start < end_ ->
  end_ <= total_chars (take i pm) + chars_of p ->
  overlapping_page pm (start, end_) (page_number i p).
Proof.
  intros Hi Hs Hlt He. exists (cumulative_range pm i p). split; [|split].
  - apply In_cumulative_ranges. exists i, p. auto.
  - unfold overlaps, cumulative_range. cbn [fst snd]. lia.
  - reflexivity.
Qed.

(** X18. With no negative character count, a non-empty span that lies
    inside the range of one page is mapped to that page alone. *)
Theorem approximate_pages_within_page (pm : list (gmap string Z)) (i : nat)
    (p : gmap string Z) (start end_ : Z) :
  Forall (fun q => 0 <= chars_of q) pm ->
  pm !! i = Some p ->
  total_chars (take i pm) <= start -> start < end_ ->
  end_ <= total_chars (take i pm) + chars_of p ->
  approximate_pages pm [(start, end_)]
  = Ok [(Some (page_number i p), Some (page_number i p))].
Proof.
  intros Hnn Hi Hs Hlt He. rewrite approximate_pages_map. cbn [map].
  pose proof (range_of_as_specified pm (start, end_)) as H.
  destruct (range_of (cumulative_ranges pm) (start, end_)) as [[lo|] [hi|]];
    cbn in H; try contradiction.
  - destruct H as (Hlo & Hhi & _).
    apply (overlapping_within pm i p start end_ lo Hnn Hi Hs He) in Hlo.
    apply (overlapping_within pm i p start end_ hi Hnn Hi Hs He) in Hhi.
    subst. reflexivity.
  - exfalso. apply (H (page_number i p)). apply overlapping_self; assumption.
Qed.

(** X19. With no negative character count, a span that starts at or after
    the end of the last page, or ends at or before offset 0, is mapped to no
    page. *)
Theorem approximate_pages_outside (pm : list (gmap string Z)) (start end_ : Z) :
  Forall (fun q => 0 <= chars_of q) pm ->
  total_chars pm <= start \/ end_ <= 0 ->
  approximate_pages pm [(start, end_)] = Ok [(None, None)].
Proof.
  intros Hnn Hout. rewrite approximate_pages_map. cbn [map].
  pose proof (range_of_as_specified pm (start, end_)) as H.
  destruct (range_of (cumulative_ranges pm) (start, end_)) as [[lo|] [hi|]];
    cbn in H; try contradiction; [|reflexivity].
  exfalso. destruct H as ((c & Hin & Hov & _) & _).
  apply In_cumulative_ranges in Hin as (j & q & Hj & ->).
  unfold overlaps, cumulative_range in Hov. cbn [fst snd] in Hov. apply Hov.
  pose proof (total_chars_take_S pm j q Hj).
  pose proof (total_chars_take_le pm (S j) Hnn).
  pose proof (total_chars_nonneg (take j pm) (Forall_take _ _ _ Hnn)).
  lia.
Qed.

End PageMapperMore.

(** ** The further properties on concrete inputs *)

Lemma drop_ignores_min_repeats_witness :
  Normalizer._drop_header_footer_lines Lib.basic Normalizer.noisy_lines
    (Normalizer.set_min_repeats 1 Normalizer.default_config)
  = Normalizer._drop_header_footer_lines Lib.basic Normalizer.noisy_lines
      (Normalizer.set_min_repeats 5 Normalizer.default_config).
Proof.
  apply (drop_ignores_min_repeats Lib.basic Normalizer.noisy_lines Normalizer.default_config
           1 5); lia.
Defined.

Lemma drop_keeps_blank_lines_witness :
  exists out,
    Normalizer._drop_header_footer_lines Lib.basic Normalizer.noisy_lines Normalizer.keep_all
    = Py.Ok out
    /\ sublist out Normalizer.noisy_lines
    /\ List.filter Normalizer.is_blank out
       = List.filter Normalizer.is_blank Normalizer.noisy_lines.
Proof.
  eexists. split; [vm_compute; reflexivity|].
  apply (drop_keeps_blank_lines Lib.basic Normalizer.noisy_lines _ Normalizer.keep_all).
  vm_compute. reflexivity.
Defined.

Lemma drop_dates_unconditionally_witness :
  exists out,
    Normalizer._drop_header_footer_lines Lib.basic Normalizer.noisy_lines Normalizer.keep_all
    = Py.Ok out
    /\ Forall (fun ln => Normalizer.is_blank ln = true
                         \/ (Re.matches Lib.basic Normalizer.RE_DATE_LINE (Py.strip ln) = false
                             /\ Re.matches Lib.basic Normalizer.RE_TABLE_CONT (Py.strip ln)
                                = false)) out.
Proof.
  eexists. split; [vm_compute; reflexivity|].
  apply (drop_dates_unconditionally Lib.basic Normalizer.noisy_lines _ Normalizer.keep_all).
  vm_compute. reflexivity.
Defined.

Lemma clean_no_control_chars_witness :
  exists out,
    Normalizer.clean Lib.basic Normalizer.scenario1_text
      (Some (Normalizer.without_bullets Normalizer.default_config)) = Py.Ok out
    /\ Forall (Normalizer.kept_char Lib.basic) out.
Proof.
  eexists. split; [vm_compute; reflexivity|].
  apply (clean_no_control_chars Lib.basic Normalizer.scenario1_text _
           (Some (Normalizer.without_bullets Normalizer.default_config)));
    vm_compute; reflexivity.
Defined.

Lemma best_anchor_only_captions_witness :
  In StructureParser.caption_anchor [StructureParser.caption_anchor]
  /\ StructureParser.a_start StructureParser.caption_anchor <= 5
  /\ StructureParser.is_caption StructureParser.caption_anchor.
Proof.
  apply (proj1 (proj2 (best_anchor_only_captions [StructureParser.caption_anchor] 5))).
  vm_compute. reflexivity.
Defined.

Lemma annotate_labels_all_none_witness :
  exists labels,
    StructureParser.annotate_chunks_with_sections Lib.basic StructureParser.plain_text
      [Py.u "Just a line"; Py.u "of text."] = Py.Ok labels
    /\ labels = map (fun _ => None) [Py.u "Just a line"; Py.u "of text."].
Proof.
  eexists. split; [vm_compute; reflexivity|].
  apply (annotate_labels_all_none Lib.basic StructureParser.plain_text).
  vm_compute. reflexivity.
Defined.

Lemma find_anchors_well_formed_witness :
  exists anchors,
    StructureParser.find_anchors Lib.basic StructureParser.caption_text = Py.Ok anchors
    /\ Forall StructureParser.well_formed anchors.
Proof.
  eexists. split; [vm_compute; reflexivity|].
  apply (find_anchors_well_formed Lib.basic StructureParser.caption_text).
  vm_compute. reflexivity.
Defined.

Lemma find_anchors_returns_witness :
  exists anchors,
    StructureParser.find_anchors Lib.basic StructureParser.caption_text = Py.Ok anchors.
Proof.
  apply (find_anchors_returns Lib.basic StructureParser.caption_text); vm_compute; reflexivity.
Defined.

Lemma find_anchors_chained_witness :
  exists anchors,
    StructureParser.find_anchors Lib.basic StructureParser.scenario3_text = Py.Ok anchors
    /\ StructureParser.chained (Py.len StructureParser.scenario3_text) anchors.
Proof.
  eexists. split; [vm_compute; reflexivity|].
  apply (find_anchors_chained Lib.basic StructureParser.scenario3_text).
  vm_compute. reflexivity.
Defined.

Lemma find_anchors_ascending_witness :
  exists anchors,
    StructureParser.find_anchors Lib.basic StructureParser.caption_text = Py.Ok anchors
    /\ StructureParser.ascending (map StructureParser.a_start anchors).
Proof.
  eexists. split; [vm_compute; reflexivity|].
  apply (find_anchors_ascending Lib.basic StructureParser.caption_text).
  vm_compute. reflexivity.
Defined.

Lemma clean_returns_without_bullets_witness :
  exists out,
    Normalizer.clean Lib.basic Normalizer.scenario1_text
      (Some (Normalizer.without_bullets Normalizer.default_config)) = Py.Ok out.
Proof.
  apply (clean_returns_without_bullets Lib.basic Normalizer.scenario1_text
           (Normalizer.without_bullets Normalizer.default_config));
    reflexivity.
Defined.

Lemma collapse_leaves_single_spaces_witness :
  exists out,
    Normalizer._collapse_spaces_and_newlines Lib.basic
      (Py.u "a" ++ [9; 32; 32] ++ Py.u "b" ++ [32; 10; 32] ++ Py.u "c") true 2 = Py.Ok out
    /\ Forall (fun c => c <> Py.TAB) out
    /\ forall pre post, out <> pre ++ [Py.SP; Py.SP] ++ post.
Proof.
  eexists. split; [vm_compute; reflexivity|].
  apply (collapse_leaves_single_spaces Lib.basic
           (Py.u "a" ++ [9; 32; 32] ++ Py.u "b" ++ [32; 10; 32] ++ Py.u "c") 2).
  vm_compute. reflexivity.
Defined.

Lemma collapse_caps_newlines_witness :
  exists out,
    Normalizer._collapse_spaces_and_newlines Lib.basic
      (Py.u "a" ++ [10; 10; 10; 10; 10] ++ Py.u "b") true 2 = Py.Ok out
    /\ forall pre post, out <> pre ++ repeat Py.NL 3 ++ post.
Proof.
  eexists. split; [vm_compute; reflexivity|].
  apply (collapse_caps_newlines Lib.basic (Py.u "a" ++ [10; 10; 10; 10; 10] ++ Py.u "b")
           true 2); [lia|].
  vm_compute. reflexivity.
Defined.

Lemma clean_output_compact_witness :
  exists out,
    Normalizer.clean Lib.basic Normalizer.scenario1_text
      (Some (Normalizer.without_bullets Normalizer.default_config)) = Py.Ok out
    /\ Py.trimmed out
    /\ (Forall (fun c => c <> Py.TAB) out
        /\ forall pre post, out <> pre ++ [Py.SP; Py.SP] ++ post)
    /\ forall pre post, out <> pre ++ repeat Py.NL 3 ++ post.
Proof.
  eexists. split; [vm_compute; reflexivity|].
  destruct (clean_output_compact Lib.basic Normalizer.scenario1_text _
              (Some (Normalizer.without_bullets Normalizer.default_config)) eq_refl)
    as (Ht & Hs & Hn).
  split; [exact Ht|]. split; [exact (Hs eq_refl)|].
  apply Hn. vm_compute. discriminate.
Defined.

Lemma clean_no_dash_variants_witness :
  exists out,
    Normalizer.clean Lib.basic (Py.u "2010" ++ [8211] ++ Py.u "2020" ++ [8212; 8212])
      (Some (Normalizer.without_bullets Normalizer.default_config)) = Py.Ok out
    /\ Forall (fun c => ~ (8208 <= c <= 8213)) out.
Proof.
  eexists. split; [vm_compute; reflexivity|].
  apply (clean_no_dash_variants Lib.basic (Py.u "2010" ++ [8211] ++ Py.u "2020" ++ [8212; 8212])
           _ (Some (Normalizer.without_bullets Normalizer.default_config)));
    vm_compute; reflexivity.
Defined.

Lemma approximate_pages_within_page_witness :
  Segmenter.approximate_pages Segmenter.scenario5_pages [(110, 120)]
  = Py.Ok [(Some 2, Some 2)].
Proof.
  etransitivity.
  - apply (approximate_pages_within_page Segmenter.scenario5_pages 1
             {[ "page"%string := 2; "chars"%string := 50 ]} 110 120).
    + repeat constructor; vm_compute; discriminate.
    + reflexivity.
    + vm_compute. discriminate.
    + lia.
    + vm_compute. discriminate.
  - vm_compute. reflexivity.
Defined.

Lemma approximate_pages_outside_witness :
  Segmenter.approximate_pages Segmenter.scenario5_pages [(150, 170)]
  = Py.Ok [(None, None)].
Proof.
  apply (approximate_pages_outside Segmenter.scenario5_pages 150 170).
  - repeat constructor; vm_compute; discriminate.
  - left. vm_compute. discriminate.
Defined.
